(** * republic-go: the darknode Router, the gRPC StreamService and the Ome

  A shallow embedding of three source files of republic-go,
    - package [ome]      (Computation, the Ranker drain, the backlog sweep),
    - package [grpc]     (StreamService.verifyStreamAddress, safeStream),
    - package [darknode] (Router: compute arcs and the order fragment
                          fan-out),
  and the properties the specification states about them.

  Go maps are stdpp [gmap]s, byte slices and arrays are [list byte],
  Go [int]s that only count are [Z], channels and mutexes live in an
  explicit store because Go passes them by reference. *)

From Stdlib Require Import ZArith Lia List.
From Stdlib Require Import Strings.Byte.
From stdpp Require Import base decidable countable gmap strings list fin_maps.
Local Open Scope Z_scope.

(** ** Bytes *)

Module Bytes.

#[global] Instance byte_eq_dec : EqDecision byte := Byte.byte_eq_dec.

#[global] Program Instance byte_countable : Countable byte :=
  inj_countable Byte.to_N Byte.of_N Byte.of_to_N.

(** Go's builtin [copy(dst, src)]: the first [min (len dst) (len src)]
    elements of [src] overwrite the start of [dst]; the length of [dst]
    never changes. *)
Definition copy {A} (dst src : list A) : list A :=
  take (length dst) src ++ drop (length src) dst.

(** [bytes.Compare(a, b)]: lexicographic comparison, result -1, 0 or 1. *)
Fixpoint Compare (a b : list byte) : Z :=
  match a, b with
  | [], [] => 0
  | [], _ :: _ => -1
  | _ :: _, [] => 1
  | x :: a', y :: b' =>
      if (Byte.to_N x <? Byte.to_N y)%N then -1
      else if (Byte.to_N y <? Byte.to_N x)%N then 1
      else Compare a' b'
  end.

End Bytes.

(** ** Package crypto *)

Module Crypto.

(** Modelled from the spec: [crypto.Keccak256(data ...[]byte)] is not
    among the sources; it writes each argument in order to one hasher, so
    it hashes the concatenation of its arguments. The Keccak-256 hash of a
    byte string itself, [keccak256], is left abstract. *)
Definition Keccak256 (keccak256 : list byte → list byte)
    (data : list (list byte)) : list byte :=
  keccak256 (concat data).

End Crypto.

(** ** What the Go runtime gives: channels, mutexes, outcomes of a call *)

Module Go.

(** How a call ends. A goroutine that blocks for good never returns. *)
Inductive Outcome (A : Type) :=
| Returns (a : A)
| Panics (msg : string)
| Blocks.

Arguments Returns {A} a.

Arguments Panics {A} msg.

Arguments Blocks {A}.

Inductive ChanState := ChanOpen | ChanClosed.

#[global] Instance ChanState_eq_dec : EqDecision ChanState.
Proof. solve_decision. Defined.

(** Channels and mutexes are references: a struct that is copied still
    names the same channel. They are numbered and live in maps. *)
Definition make_chan (chans : gmap nat ChanState) (next : nat)
  : nat * gmap nat ChanState :=
  (next, <[next := ChanOpen]> chans).

(** [close(ch)]: closing a closed (or nil) channel panics. *)
Definition close_chan (chans : gmap nat ChanState) (ch : nat)
  : option (gmap nat ChanState) :=
  match chans !! ch with
  | Some ChanOpen => Some (<[ch := ChanClosed]> chans)
  | _ => None
  end.

(** [mu.Lock()]: [None] when the mutex is held, the caller waits. *)
Definition Lock (mutexes : gmap nat bool) (mu : nat) : option (gmap nat bool) :=
  match mutexes !! mu with
  | Some false => Some (<[mu := true]> mutexes)
  | _ => None
  end.

Definition Unlock (mutexes : gmap nat bool) (mu : nat) : gmap nat bool :=
  <[mu := false]> mutexes.

End Go.

(** ** Package ome *)

Module Ome.
Import Bytes.

(** [order.ID] and [ComputationID] are [[32]byte]. *)
Abbreviation OrderID := (list byte) (only parsing).

Abbreviation ComputationID := (list byte) (only parsing).

Abbreviation Hash32 := (list byte) (only parsing).

(** [time.Time] as the nanoseconds elapsed since Go's zero time, and
    [time.Duration] as nanoseconds. *)
Abbreviation Time := Z (only parsing).

Abbreviation Duration := Z (only parsing).

Abbreviation Error := string (only parsing).

Definition Second : Duration := 1000000000.

Definition Minute : Duration := 60 * Second.

Definition ComputationBacklogExpiry : Duration := 5 * Minute.

(** [type ComputationState int] and its [iota] constants. *)
Abbreviation ComputationState := Z (only parsing).

Definition ComputationStateNil : ComputationState := 0.

Definition ComputationStateMatched : ComputationState := 1.

Definition ComputationStateMismatched : ComputationState := 2.

Definition ComputationStateAccepted : ComputationState := 3.

Definition ComputationStateRejected : ComputationState := 4.

Definition ComputationStateSettled : ComputationState := 5.

Record Computation := mkComputation {
  ID : ComputationID;
  State : ComputationState;
  Priority : Z;
  Match : bool;
  Timestamp : Time;
  Buy : OrderID;
  Sell : OrderID;
}.

(** Zero values of Go: a [[32]byte] of zeroes, the zero [time.Time]. *)
Definition zero32 : list byte := replicate 32 x00.

Definition zeroTime : Time := 0.

Definition zeroComputation : Computation :=
  {| ID := zero32; State := 0; Priority := 0; Match := false;
     Timestamp := zeroTime; Buy := zero32; Sell := zero32 |}.

#[global] Instance Computation_inhabited : Inhabited Computation :=
  populate zeroComputation.

#[global] Instance Computation_eq_dec : EqDecision Computation.
Proof. solve_decision. Defined.

(** [time.Time.Add] and [time.Time.Before]. *)
Definition Add (t : Time) (d : Duration) : Time := t + d.

Definition Before (t u : Time) : bool := t <? u.

Section Keccak.
(** The Keccak-256 hash of a byte string, see [Crypto.Keccak256]. *)
Variable keccak256 : list byte → list byte.

Definition NewComputation (buy sell : OrderID) : Computation :=
  let com :=
    {| ID := zero32; State := 0; Priority := 0; Match := false;
       Timestamp := zeroTime; Buy := buy; Sell := sell |} in
  {| ID := copy (ID com) (Crypto.Keccak256 keccak256 [buy; sell]);
     State := State com; Priority := Priority com; Match := Match com;
     Timestamp := Timestamp com; Buy := Buy com; Sell := Sell com |}.

End Keccak.

(** The collaborators of the Ome are Go interfaces. What one call
    returns is all the Ome sees of them. *)
Class Storer (Fragment : Type) := {
  (** [storer.OrderFragment(id)]: the fragment, or an error. *)
  OrderFragment : OrderID → Fragment + Error;
}.

Class Settler := {
  (** [settler.Settle(ξ, com)]: [None] is the nil error. *)
  Settle : Hash32 → Computation → option Error;
}.

Class Ranker := {
  (** [ranker.Computations(buffer)]: the slice as the Ranker leaves it
      and the count it returns. *)
  Computations : list Computation → list Computation * Z;
}.

Inductive Log :=
| LogResolving (buy sell : OrderID)
| LogSettling (buy sell : OrderID)
| LogCannotSettle (err : Error)
| LogUnexpectedState (buy sell : OrderID) (state : ComputationState)
| LogExpiring (buy sell : OrderID)
| LogRetrying (buy sell : OrderID)
| LogCannotResolve (buy sell : OrderID) (err : Error).

(** What the Ome does to the outside, in program order. *)
Inductive Effect (Fragment : Type) :=
| ELog (l : Log)
  (** [ome.matcher.Resolve(ξ, com, buyFragment, sellFragment, callback)] *)
| EResolve (ξ : Hash32) (com : Computation) (buyFragment sellFragment : Fragment)
  (** [select { case <-done: case matches <- com: }] *)
| ESendMatches (com : Computation)
  (** [ome.settler.Settle(ξ, com)] *)
| ESettle (ξ : Hash32) (com : Computation).

Arguments ELog {Fragment} l.

Arguments EResolve {Fragment} ξ com buyFragment sellFragment.

Arguments ESendMatches {Fragment} com.

Arguments ESettle {Fragment} ξ com.

(** [cal.Epoch] *)
Record Epoch := mkEpoch {
  Hash : Hash32;
  Darknodes : list string;
}.

(** The mutable part of [struct ome]. *)
Record ome := mkOme {
  computationBacklog : gmap (list byte) Computation;
  ξ : Epoch;
}.

Definition NewOme : ome :=
  {| computationBacklog := ∅;
     ξ := {| Hash := zero32; Darknodes := [] |} |}.

Definition set_backlog (o : ome) (b : gmap (list byte) Computation) : ome :=
  {| computationBacklog := b; ξ := ξ o |}.

(** [OnChangeEpoch] as far as the Ome's own state goes. *)
Definition OnChangeEpoch (o : ome) (e : Epoch) : ome :=
  {| computationBacklog := computationBacklog o; ξ := e |}.

Section Engine.
Context {Fragment : Type} {storer : Storer Fragment} {settler : Settler} {ranker : Ranker}.

Definition sendComputationToMatcher (ξ : Hash32) (com : Computation)
  : option Error * list (Effect Fragment) :=
  match OrderFragment (Buy com) with
  | inr err => (Some err, [])
  | inl buyFragment =>
      match OrderFragment (Sell com) with
      | inr err => (Some err, [])
      | inl sellFragment =>
          (None, [ELog (LogResolving (Buy com) (Sell com));
                  EResolve ξ com buyFragment sellFragment])
      end
  end.

Definition sendComputationToConfirmer (com : Computation) : list (Effect Fragment) :=
  [ESendMatches com].

Definition sendComputationToSettler (ξ : Hash32) (com : Computation)
  : list (Effect Fragment) :=
  ELog (LogSettling (Buy com) (Sell com)) :: ESettle ξ com ::
  match Settle ξ com with
  | Some err => [ELog (LogCannotSettle err)]
  | None => []
  end.

(** One turn of the [switch buffer[i].State] of [syncRanker]. *)
Definition syncRanker_body (ξ : Hash32) (com : Computation)
    (backlog : gmap (list byte) Computation)
  : gmap (list byte) Computation * list (Effect Fragment) :=
  if State com =? ComputationStateNil then
    match sendComputationToMatcher ξ com with
    | (Some _, tr) => (<[ID com := com]> backlog, tr)
    | (None, tr) => (backlog, tr)
    end
  else if State com =? ComputationStateMatched then
    (backlog, sendComputationToConfirmer com)
  else if State com =? ComputationStateAccepted then
    (backlog, sendComputationToSettler ξ com)
  else
    (backlog, [ELog (LogUnexpectedState (Buy com) (Sell com) (State com))]).

(** [for i := 0; i < n; i++]: [todo] turns are left, the next one reads
    [buffer[i]]. [None] is Go's index out of range panic. *)
Fixpoint syncRanker_loop (ξ : Hash32) (buffer : list Computation) (i todo : nat)
    (backlog : gmap (list byte) Computation)
  : option (gmap (list byte) Computation * list (Effect Fragment)) :=
  match todo with
  | O => Some (backlog, [])
  | S todo' =>
      match buffer !! i with
      | None => None
      | Some com =>
          let '(backlog', tr) := syncRanker_body ξ com backlog in
          match syncRanker_loop ξ buffer (S i) todo' backlog' with
          | None => None
          | Some (backlog'', tr') => Some (backlog'', tr ++ tr')
          end
      end
  end.

(** The slice [syncRanker] hands to the Ranker: [buffer[:]] of a fresh
    [[128]Computation]. *)
Definition syncRanker_buffer : list Computation := replicate 128 zeroComputation.

Definition syncRanker (o : ome) : option (ome * list (Effect Fragment) * bool) :=
  let '(buffer, n) := Computations syncRanker_buffer in
  let ξ := Hash (ξ o) in
  match syncRanker_loop ξ buffer 0 (Z.to_nat n) (computationBacklog o) with
  | None => None
  | Some (backlog, tr) => Some (set_backlog o backlog, tr, negb (n =? 128))
  end.

(** The first loop of [syncOrderFragmentBacklog]. Go walks a map in an
    order of its choosing: [visit] is that order, a list of the keys. A
    key deleted before it is reached is not produced. [now tick] is what
    the [tick]-th call of [time.Now()] in this sweep returns. *)
Fixpoint backlog_collect (now : nat → Time) (visit : list (list byte)) (tick : nat)
    (backlog : gmap (list byte) Computation)
    (buffer : list Computation) (bufferN : nat)
  : gmap (list byte) Computation * list Computation * nat * list (Effect Fragment) :=
  match visit with
  | [] => (backlog, buffer, bufferN, [])
  | k :: visit' =>
      match backlog !! k with
      | None => backlog_collect now visit' tick backlog buffer bufferN
      | Some com =>
          let backlog := delete (ID com) backlog in
          if Before (Add (Timestamp com) ComputationBacklogExpiry) (now tick) then
            let '(backlog', buffer', bufferN', tr) :=
              backlog_collect now visit' (S tick) backlog buffer bufferN in
            (backlog', buffer', bufferN', ELog (LogExpiring (Buy com) (Sell com)) :: tr)
          else
            let buffer := <[bufferN := com]> buffer in
            let bufferN := S bufferN in
            if (128 <=? bufferN)%nat then (backlog, buffer, bufferN, [])
            else backlog_collect now visit' (S tick) backlog buffer bufferN
      end
  end.

(** The second loop: [for i := 0; i < bufferN; i++]. *)
Fixpoint backlog_retry (ξ : Hash32) (buffer : list Computation) (i todo : nat)
    (backlog : gmap (list byte) Computation)
  : gmap (list byte) Computation * list (Effect Fragment) :=
  match todo with
  | O => (backlog, [])
  | S todo' =>
      let com := buffer !!! i in
      let '(err, tr) := sendComputationToMatcher ξ com in
      let '(backlog, trerr) :=
        match err with
        | Some e => (<[ID com := com]> backlog,
                     [ELog (LogCannotResolve (Buy com) (Sell com) e)])
        | None => (backlog, [])
        end in
      let '(backlog', tr') := backlog_retry ξ buffer (S i) todo' backlog in
      (backlog', ELog (LogRetrying (Buy com) (Sell com)) :: tr ++ trerr ++ tr')
  end.

Definition syncOrderFragmentBacklog (now : nat → Time) (visit : list (list byte))
    (ξ : Hash32) (o : ome) : ome * list (Effect Fragment) :=
  let '(backlog, buffer, bufferN, tr1) :=
    backlog_collect now visit 0 (computationBacklog o)
                    (replicate 128 zeroComputation) 0 in
  let '(backlog, tr2) := backlog_retry ξ buffer 0 bufferN backlog in
  (set_backlog o backlog, tr1 ++ tr2).

End Engine.

(** *** The Ranker drain *)

(** [time.Time.After] and [time.Time.Sub]. *)
Definition After (t u : Time) : bool := u <? t.

Definition Sub (t u : Time) : Duration := t - u.

(** What one turn of the Ranker loop of [Run] does once [syncRanker] has
    returned [wait]: [continue] at once, or [time.Sleep]. [now1] and [now2]
    are the two later readings of [time.Now()]. *)
Inductive Pause := NoPause | Sleep (d : Duration).

Definition Run_ranker_pause (wait : bool) (timeBeginSync now1 now2 : Time) : Pause :=
  if negb wait then NoPause
  else
    let timeNextSync := Add timeBeginSync (14 * Second) in
    if After now1 timeNextSync then NoPause
    else Sleep (Sub timeNextSync now2).

Section RankerDrain.
Context {Fragment : Type} {storer : Storer Fragment} {settler : Settler} {ranker : Ranker}.

(** A fragment of [com] is unavailable: the Storer answers the request
    for the buy fragment, or the one for the sell fragment, with an error. *)
Definition lacks_fragment (com : Computation) : Prop :=
  (∃ err, OrderFragment (Buy com) = inr err) ∨
  (∃ err, OrderFragment (Sell com) = inr err).

(** The dispatch rule as the specification words it, one Computation at a
    time: the backlog before, the backlog after, what is done. A
    Computation in state Nil goes to the Matcher with its two fragments;
    it goes to the backlog, and the Matcher is not called, only when a
    fragment is unavailable. *)
Inductive Dispatch (ξ : Hash32) (com : Computation)
  : gmap (list byte) Computation → gmap (list byte) Computation →
    list (Effect Fragment) → Prop :=
| Dispatch_Nil_resolved backlog buyFragment sellFragment :
    State com = ComputationStateNil →
    OrderFragment (Buy com) = inl buyFragment →
    OrderFragment (Sell com) = inl sellFragment →
    Dispatch ξ com backlog backlog
      [ELog (LogResolving (Buy com) (Sell com));
       EResolve ξ com buyFragment sellFragment]
| Dispatch_Nil_error backlog :
    State com = ComputationStateNil →
    lacks_fragment com →
    Dispatch ξ com backlog (<[ID com := com]> backlog) []
| Dispatch_Matched backlog :
    State com = ComputationStateMatched →
    Dispatch ξ com backlog backlog [ESendMatches com]
| Dispatch_Accepted backlog :
    State com = ComputationStateAccepted →
    Dispatch ξ com backlog backlog
      (ELog (LogSettling (Buy com) (Sell com)) :: ESettle ξ com ::
       match Settle ξ com with
       | Some err => [ELog (LogCannotSettle err)]
       | None => []
       end)
| Dispatch_other backlog :
    State com ≠ ComputationStateNil →
    State com ≠ ComputationStateMatched →
    State com ≠ ComputationStateAccepted →
    Dispatch ξ com backlog backlog
      [ELog (LogUnexpectedState (Buy com) (Sell com) (State com))].

(** A pass dispatches the Computations one after the other. *)
Inductive DispatchAll (ξ : Hash32)
  : list Computation → gmap (list byte) Computation →
    gmap (list byte) Computation → list (Effect Fragment) → Prop :=
| DispatchAll_nil backlog : DispatchAll ξ [] backlog backlog []
| DispatchAll_cons com coms backlog backlog1 backlog2 tr trs :
    Dispatch ξ com backlog backlog1 tr →
    DispatchAll ξ coms backlog1 backlog2 trs →
    DispatchAll ξ (com :: coms) backlog backlog2 (tr ++ trs).

End RankerDrain.

(** *** The backlog sweep *)

(** Every insertion into the backlog is [computationBacklog[com.ID] = com]:
    an entry sits under its own ID. *)
Definition backlog_keyed (backlog : gmap (list byte) Computation) : Prop :=
  ∀ k com, backlog !! k = Some com → ID com = k.

(** [com] is past its expiry at time [t]. *)
Definition expired (t : Time) (com : Computation) : bool :=
  Before (Add (Timestamp com) ComputationBacklogExpiry) t.

(** How many of the keys [ks] hold a Computation that is not expired at [t]. *)
Fixpoint count_unexpired (t : Time) (backlog : gmap (list byte) Computation)
    (ks : list (list byte)) : nat :=
  match ks with
  | [] => 0
  | k :: ks' =>
      match backlog !! k with
      | Some com => if expired t com then 0 else 1
      | None => 0
      end + count_unexpired t backlog ks'
  end%nat.

Section BacklogSweep.
Context {Fragment : Type} {storer : Storer Fragment}.

(** The Computations a sweep retries: [buffer[0 .. bufferN)] after its
    first loop. *)
Definition backlog_retried (now : nat → Time) (visit : list (list byte)) (o : ome)
  : list Computation :=
  let '(_, buffer, bufferN, _) :=
    backlog_collect (Fragment := Fragment) now visit 0 (computationBacklog o)
                    (replicate 128 zeroComputation) 0 in
  take bufferN buffer.

(** What a trace shows of the retries: the [retrying computation] lines
    in order, each with the buy and the sell order it names, and the calls
    of [matcher.Resolve] in order. *)
Definition retry_logs (tr : list (Effect Fragment)) : list (OrderID * OrderID) :=
  omap (λ e, match e with ELog (LogRetrying buy sell) => Some (buy, sell) | _ => None end)
       tr.

Definition resolves (tr : list (Effect Fragment))
  : list (Hash32 * Computation * Fragment * Fragment) :=
  omap (λ e, match e with
             | EResolve ξ com buyFragment sellFragment =>
                 Some (ξ, com, buyFragment, sellFragment)
             | _ => None
             end) tr.

(** What the Matcher is to be handed for [com]: its two fragments as the
    Storer has them, nothing when one is unavailable. *)
Definition resolution (ξ : Hash32) (com : Computation)
  : option (Hash32 * Computation * Fragment * Fragment) :=
  match OrderFragment (Buy com), OrderFragment (Sell com) with
  | inl buyFragment, inl sellFragment => Some (ξ, com, buyFragment, sellFragment)
  | _, _ => None
  end.

End BacklogSweep.

(** *** Concrete runs *)

(** A stand-in digest of 32 bytes, to run [NewComputation]. *)
Definition pad32 (d : list byte) : list byte := take 32 (d ++ zero32).

(** The order ID and the Computation number [i]. *)
Definition exID (i : nat) : list byte :=
  default x00 (Byte.of_N (N.of_nat i)) :: replicate 31 x00.

Definition exCom (i : nat) (state : ComputationState) (timestamp : Time) : Computation :=
  {| ID := exID i; State := state; Priority := 0; Match := false;
     Timestamp := timestamp; Buy := exID i; Sell := exID (i + 1) |}.

(** A Storer that holds the fragments of order 7 only. *)
Definition exStorer : Storer unit :=
  {| OrderFragment id :=
       if decide (id = exID 7) then inl tt else inr "order fragment not found"%string |}.

Definition exSettler : Settler := {| Settle _ _ := None |}.

(** A Ranker that yields three Computations: one to match, whose
    fragments are missing, one matched, one accepted. *)
Definition exDrained : list Computation :=
  [exCom 1 ComputationStateNil 0; exCom 2 ComputationStateMatched 0;
   exCom 3 ComputationStateAccepted 0].

Definition exRanker : Ranker :=
  {| Computations buffer := (exDrained ++ drop 3 buffer, 3) |}.

(** A backlog that holds the given Computations, each under its ID. *)
Definition backlog_of (coms : list Computation) : gmap (list byte) Computation :=
  list_to_map ((λ com, (ID com, com)) <$> coms).

Definition exOme (coms : list Computation) : ome :=
  {| computationBacklog := backlog_of coms;
     ξ := {| Hash := replicate 32 x2a; Darknodes := [] |} |}.

(** The sweeps of the examples start at [exStart]. A fresh Computation
    was stamped one nanosecond before, a stale one at the zero time. *)
Definition exStart : Time := 1000 * Second + 1.

Definition exFresh (i : nat) : Computation := exCom i ComputationStateNil (1000 * Second).

Definition exStale (i : nat) : Computation := exCom i ComputationStateNil 0.

(** P7 as the specification states it: whatever the order in which the map
    is walked, a Computation that is expired when the sweep starts is gone
    when it returns. *)
Definition P7_backlog_expiry : Prop :=
  ∀ (Fragment : Type) (storer : Storer Fragment) (now : nat → Time)
    (visit : list (list byte)) (ξ : Hash32) (o : ome) (t0 : Time)
    (com : Computation),
    backlog_keyed (computationBacklog o) →
    (∀ i, t0 ≤ now i) →
    NoDup visit →
    (∀ k, k ∈ visit ↔ is_Some (computationBacklog o !! k)) →
    computationBacklog o !! ID com = Some com →
    expired t0 com = true →
    computationBacklog (syncOrderFragmentBacklog now visit ξ o).1 !! ID com = None.

(** 128 Computations that are not expired, then one that is. *)
Definition exFull : list Computation := (exFresh <$> seq 0 128) ++ [exStale 128].

(** *** The epoch, the Confirmer loop *)

(** The epoch hash an effect carries, if it carries one. *)
Definition effect_hash {Fragment : Type} (e : Effect Fragment) : option Hash32 :=
  match e with
  | EResolve ξ _ _ _ => Some ξ
  | ESettle ξ _ => Some ξ
  | _ => None
  end.

(** The Computations handed to the Settler, in order. *)
Definition settled {Fragment : Type} (tr : list (Effect Fragment)) : list Computation :=
  omap (λ e, match e with ESettle _ com => Some com | _ => None end) tr.

(** Every effect of [tr] that carries an epoch hash carries [ξ]. *)
Definition hashed {Fragment : Type} (ξ : Hash32) (tr : list (Effect Fragment)) : Prop :=
  ∀ e h, e ∈ tr → effect_hash e = Some h → h = ξ.

(** What [OnChangeEpoch] tells the Smpcer, in order:
    [smpcer.Disconnect(old hash)], [smpcer.Connect(new hash, darknodes)]. *)
Inductive SmpcCall :=
| Disconnect (hash : Hash32)
| Connect (hash : Hash32) (darknodes : list string).

Definition OnChangeEpoch_smpcer (o : ome) (e : Epoch) : list SmpcCall :=
  [Disconnect (Hash (ξ o)); Connect (Hash e) (Darknodes e)].

(** A run of epoch changes, one [OnChangeEpoch] after the other. *)
Fixpoint OnChangeEpochs (o : ome) (es : list Epoch) : ome * list SmpcCall :=
  match es with
  | [] => (o, [])
  | e :: es' =>
      let '(o', calls) := OnChangeEpochs (OnChangeEpoch o e) es' in
      (o', OnChangeEpoch_smpcer o e ++ calls)
  end.

(** One turn of a [select] of [syncConfirmerToSettler]: what arrives.
    [OnChangeEpoch] may run between two turns. *)
Inductive Arrival :=
| ArrDone
| ArrConfirmation (confirmation : Computation)
| ArrConfirmationsClosed
| ArrErr (err : Error)
| ArrErrsClosed
| ArrEpoch (e : Epoch).

Definition stops (a : Arrival) : bool :=
  match a with
  | ArrDone | ArrConfirmationsClosed | ArrErrsClosed => true
  | _ => false
  end.

(** What a run of the Confirmer loop is fed and what it gives: the
    confirmations and the errors among the arrivals, the effects on the
    collaborators and the errors forwarded among the trace. *)
Definition confirmations_of (arrivals : list Arrival) : list Computation :=
  omap (λ a, match a with ArrConfirmation c => Some c | _ => None end) arrivals.

Definition errs_of (arrivals : list Arrival) : list Error :=
  omap (λ a, match a with ArrErr err => Some err | _ => None end) arrivals.

Definition effects_of {Fragment : Type} (tr : list (Effect Fragment + Error))
  : list (Effect Fragment) :=
  omap (λ x, match x with inl e => Some e | inr _ => None end) tr.

Definition forwarded {Fragment : Type} (tr : list (Effect Fragment + Error))
  : list Error :=
  omap (λ x, match x with inl _ => None | inr err => Some err end) tr.

Section Loops.
Context {Fragment : Type} {storer : Storer Fragment} {settler : Settler}.

(** [com] is one the Matcher cannot be given: state Nil and a fragment
    that the Storer does not have. *)
Definition unresolvable (com : Computation) : Prop :=
  State com = ComputationStateNil ∧ lacks_fragment com.

(** The backlog turn of [Run]: the epoch hash is read, then the sweep
    runs under it. *)
Definition Run_backlog_tick (now : nat → Time) (visit : list (list byte)) (o : ome)
  : ome * list (Effect Fragment) :=
  syncOrderFragmentBacklog now visit (Hash (ξ o)) o.

(** [syncConfirmerToSettler] over what arrives, turn by turn. An effect is
    [inl] what the Ome does to its collaborators, [inr err] the forwarding
    [select { case <-done: case errs <- err: }]. *)
Fixpoint syncConfirmerToSettler (o : ome) (arrivals : list Arrival)
  : ome * list (Effect Fragment + Error) :=
  match arrivals with
  | [] => (o, [])
  | ArrDone :: _ => (o, [])
  | ArrConfirmationsClosed :: _ => (o, [])
  | ArrErrsClosed :: _ => (o, [])
  | ArrConfirmation confirmation :: arrivals' =>
      let ξ := Hash (ξ o) in
      let '(o', tr) := syncConfirmerToSettler o arrivals' in
      (o', (inl <$> sendComputationToSettler ξ confirmation) ++ tr)
  | ArrErr err :: arrivals' =>
      let '(o', tr) := syncConfirmerToSettler o arrivals' in
      (o', inr err :: tr)
  | ArrEpoch e :: arrivals' => syncConfirmerToSettler (OnChangeEpoch o e) arrivals'
  end.

(** What [OnChangeEpoch] and the goroutines of [Run] do to the Ome, one
    step at a time: a change of epoch; one turn of the loop of
    [syncRanker], under the hash the pass read when it began; a sweep of
    the backlog, which holds the backlog mutex from start to end. The
    Confirmer loop does not write to the Ome. *)
Inductive ome_step : ome → ome → Prop :=
| ome_step_epoch o e : ome_step o (OnChangeEpoch o e)
| ome_step_rank o ξ com :
    ome_step o (set_backlog o (syncRanker_body ξ com (computationBacklog o)).1)
| ome_step_sweep o now visit ξ :
    ome_step o (syncOrderFragmentBacklog now visit ξ o).1.

Inductive ome_reachable : ome → Prop :=
| ome_reachable_new : ome_reachable NewOme
| ome_reachable_step o o' : ome_reachable o → ome_step o o' → ome_reachable o'.

End Loops.

End Ome.

(** ** Package grpc: the StreamService *)

Module Grpc.
Import Bytes.

Abbreviation Address := string (only parsing).

Abbreviation Error := string (only parsing).

(** The generated message types. The field of [StreamMessage] is called
    [authentication] in grpc.proto; [verifyStreamAddress] reads it through
    the getter [GetStreamAddress]. A getter on a nil pointer returns the
    zero value. *)
Record StreamAuthentication := mkStreamAuthentication {
  Signature : list byte;
  Address_ : string;
}.

Record StreamMessage := mkStreamMessage {
  Authentication : option StreamAuthentication;
  Data : list byte;
}.

Definition GetStreamAddress (m : StreamMessage) : option StreamAuthentication :=
  Authentication m.

Definition GetAddress (a : option StreamAuthentication) : string :=
  match a with
  | Some a => Address_ a
  | None => ""
  end.

Definition GetSignature (a : option StreamAuthentication) : list byte :=
  match a with
  | Some a => Signature a
  | None => []
  end.

(** [struct StreamService]; [connsStream] maps an address to its channel
    of streams. The verifier is a [crypto.Verifier], an interface. *)
Record StreamService (Verifier : Type) := mkStreamService {
  verifier : Verifier;
  addr : Address;
  connsStream : gmap string nat;
}.

Arguments verifier {Verifier} s.

Arguments addr {Verifier} s.

Arguments connsStream {Verifier} s.

Definition NewStreamService {Verifier : Type} (verifier : Verifier) (addr : Address)
  : StreamService Verifier :=
  {| verifier := verifier; addr := addr; connsStream := ∅ |}.

Section Service.
Context {Verifier : Type}.
Variable keccak256 : list byte → list byte.

Definition verifyStreamAddress (service : StreamService Verifier)
    (message : StreamMessage) : Address * option Error :=
  let addr0 :=
    if bool_decide (GetStreamAddress message ≠ None)
       && negb (String.eqb (GetAddress (GetStreamAddress message)) "")
    then GetAddress (GetStreamAddress message)
    else ""%string in
  (* FIXME: Verify that this message was signed by the sender. *)
  let data := String.list_byte_of_string
                ("Republic Protocol: connect: from " +:+ addr0 +:+ " to "
                 +:+ addr service) in
  let data := Crypto.Keccak256 keccak256 [data] in
  (addr0, None).

(** [make(chan safeStream, 1)] under the address, unless there is one. *)
Definition setupConn (service : StreamService Verifier)
    (chans : gmap nat Go.ChanState) (next : nat) (a : Address)
  : nat * StreamService Verifier * gmap nat Go.ChanState * nat :=
  match connsStream service !! a with
  | Some ch => (ch, service, chans, next)
  | None =>
      let '(ch, chans) := Go.make_chan chans next in
      (ch,
       {| verifier := verifier service; addr := addr service;
          connsStream := <[a := ch]> (connsStream service) |},
       chans, S next)
  end.

Definition teardownConn (service : StreamService Verifier) (a : Address)
  : StreamService Verifier :=
  {| verifier := verifier service; addr := addr service;
     connsStream := delete a (connsStream service) |}.

(** [Connect] up to the point where the stream is offered to the
    listener: the first [Recv], the verification, [setupConn]. *)
Inductive Accept :=
| Rejected (err : Error)
| Offered (a : Address) (ch : nat).

Definition Connect_accept (service : StreamService Verifier)
    (chans : gmap nat Go.ChanState) (next : nat)
    (recv : StreamMessage + Error) : Accept :=
  match recv with
  | inr err => Rejected err
  | inl message =>
      match verifyStreamAddress service message with
      | (_, Some err) => Rejected err
      | (a, None) => Offered a (setupConn service chans next a).1.1.1
      end
  end.

End Service.

(** Modelled from the spec: the check the specification requires of the
    first message and the source leaves as a FIXME. [verify a digest sig]
    is the node's signature scheme: does [sig] over [digest] verify against
    address [a]. *)
Definition verifiable (keccak256 : list byte → list byte)
    (verify : Address → list byte → list byte → bool)
    (local : Address) (message : StreamMessage) : bool :=
  match Authentication message with
  | None => false
  | Some auth =>
      negb (String.eqb (Address_ auth) "")
      && verify (Address_ auth)
           (keccak256 (String.list_byte_of_string
              ("Republic Protocol: connect: from " +:+ Address_ auth +:+ " to "
               +:+ local)))
           (Signature auth)
  end.

(** *** safeStream *)

Record Heap := mkHeap {
  chans : gmap nat Go.ChanState;
  mutexes : gmap nat bool;
  next : nat;
}.

(** The fields of a [safeStream] are references into the heap; [stream]
    names the gRPC stream it wraps. *)
Record safeStream := mkSafeStream {
  done : nat;
  sendMu : nat;
  recvMu : nat;
  stream : nat;
}.

Definition newSafeStream (stream : nat) (h : Heap) : safeStream * Heap :=
  let n := next h in
  ({| done := n; sendMu := S n; recvMu := S (S n); stream := stream |},
   {| chans := <[n := Go.ChanOpen]> (chans h);
      mutexes := <[S (S n) := false]> (<[S n := false]> (mutexes h));
      next := S (S (S n)) |}).

(** [Close]: both mutexes are taken, the deferred calls release them, on
    a panic as well. *)
Definition Close (s : safeStream) (h : Heap) : Go.Outcome (option Error) * Heap :=
  match Go.Lock (mutexes h) (sendMu s) with
  | None => (Go.Blocks, h)
  | Some m1 =>
      match Go.Lock m1 (recvMu s) with
      | None => (Go.Blocks, {| chans := chans h; mutexes := m1; next := next h |})
      | Some m2 =>
          let released := Go.Unlock (Go.Unlock m2 (recvMu s)) (sendMu s) in
          match Go.close_chan (chans h) (done s) with
          | None =>
              (Go.Panics "close of closed channel",
               {| chans := chans h; mutexes := released; next := next h |})
          | Some chans' =>
              (Go.Returns None,
               {| chans := chans'; mutexes := released; next := next h |})
          end
      end
  end.

(** A stream nobody is sending or receiving on, not closed yet. *)
Definition idle (s : safeStream) (h : Heap) : Prop :=
  chans h !! done s = Some Go.ChanOpen ∧
  mutexes h !! sendMu s = Some false ∧
  mutexes h !! recvMu s = Some false ∧
  sendMu s ≠ recvMu s.

(** *** Send and Recv *)

Definition set_mutexes (h : Heap) (m : gmap nat bool) : Heap :=
  {| chans := chans h; mutexes := m; next := next h |}.

Section Stream.
Context {Message : Type}.
(** [message.MarshalBinary()] and [message.UnmarshalBinary(data)] of a
    [stream.Message]. *)
Variable MarshalBinary : Message → list byte + Error.
Variable UnmarshalBinary : list byte → Message + Error.

(** [Send]. [stream_Send] is what [stream.stream.Send] answers to this
    one call: the gRPC stream is outside the heap, and what it answers may
    change from call to call, as it does once [Connect] has returned. The
    third component lists what the gRPC stream was handed. The deferred
    [Unlock] runs on every return. *)
Definition Send (stream_Send : StreamMessage → option Error)
    (s : safeStream) (message : Message) (h : Heap)
  : Go.Outcome (option Error) * Heap * list StreamMessage :=
  match Go.Lock (mutexes h) (sendMu s) with
  | None => (Go.Blocks, h, [])
  | Some m1 =>
      let h' := set_mutexes h (Go.Unlock m1 (sendMu s)) in
      match MarshalBinary message with
      | inr err => (Go.Returns (Some err), h', [])
      | inl data =>
          let m := {| Authentication := None; Data := data |} in
          (Go.Returns (stream_Send m), h', [m])
      end
  end.

(** [Recv]. [stream_Recv] is what [stream.stream.Recv()] yields. The
    message the caller passed is filled in by [UnmarshalBinary]. *)
Definition Recv (stream_Recv : StreamMessage + Error) (s : safeStream) (h : Heap)
  : Go.Outcome (Message + Error) * Heap :=
  match Go.Lock (mutexes h) (recvMu s) with
  | None => (Go.Blocks, h)
  | Some m1 =>
      let h' := set_mutexes h (Go.Unlock m1 (recvMu s)) in
      match stream_Recv with
      | inr err => (Go.Returns (inr err), h')
      | inl data => (Go.Returns (UnmarshalBinary (Data data)), h')
      end
  end.

End Stream.

(** A [Recv] is under way on the stream: it holds [recvMu] and waits for
    the network; nobody sends. *)
Definition receiving (s : safeStream) (h : Heap) : Prop :=
  mutexes h !! sendMu s = Some false ∧
  mutexes h !! recvMu s = Some true ∧
  sendMu s ≠ recvMu s.

(** Every channel of the service was handed out by [make]. *)
Definition conns_bounded {Verifier : Type} (service : StreamService Verifier)
    (next : nat) : Prop :=
  ∀ a ch, connsStream service !! a = Some ch → (ch < next)%nat.

End Grpc.

(** ** Package darknode: the Router *)

Module Darknode.
Import Bytes.

Abbreviation Address := string (only parsing).

(** [identity.MultiAddress]: a network location and the Address it
    belongs to; [MultiAddress_Address] is the method [Address()]. *)
Record MultiAddress := mkMultiAddress {
  location : string;
  MultiAddress_Address : Address;
}.

(** [rpc.Computation], the message of a compute stream. The Router itself
    only ever fills in [MultiAddress], with the marshalled multi-address. *)
Record Computation := mkComputation {
  MultiAddress_ : option MultiAddress;
  payload : list byte;
}.

(** [order.Fragment] is opaque to the Router. *)
Abbreviation Fragment := (list byte) (only parsing).

(** Modelled from the spec: [dispatch.Splitter] is not among the sources.
    A bounded set of subscriber sinks and one live source; [Subscribe] fails
    beyond [maxConnections], one [Split] call binds the source and a
    repeated call fails, a message read from the source is offered to every
    current subscriber. *)
Record Splitter := mkSplitter {
  splitter_maxConnections : Z;
  subscribers : list nat;
  source : option nat;
}.

Definition NewSplitter (maxConnections : Z) : Splitter :=
  {| splitter_maxConnections := maxConnections; subscribers := []; source := None |}.

Definition Subscribe (sp : Splitter) (ch : nat) : Splitter :=
  if splitter_maxConnections sp <=? Z.of_nat (length (subscribers sp)) then sp
  else {| splitter_maxConnections := splitter_maxConnections sp;
          subscribers := subscribers sp ++ [ch];
          source := source sp |}.

Definition Unsubscribe (sp : Splitter) (ch : nat) : Splitter :=
  {| splitter_maxConnections := splitter_maxConnections sp;
     subscribers := List.filter (λ c, negb (c =? ch)%nat) (subscribers sp);
     source := source sp |}.

Definition Split (sp : Splitter) (src : nat) : Splitter :=
  match source sp with
  | Some _ => sp
  | None => {| splitter_maxConnections := splitter_maxConnections sp;
               subscribers := subscribers sp;
               source := Some src |}
  end.

(** What the Router does to its collaborators. *)
Inductive Event :=
  (** [router.clientPool.Compute(ctx, addr, sender)]: dial [addr] *)
| EClientPoolCompute (addr : Address) (sender : nat)
  (** [router.smpcer.WaitForCompute(addr, sender)]: wait for [addr] to dial *)
| EWaitForCompute (addr : Address) (sender : nat)
  (** [ch <- msg] *)
| ESend (ch : nat) (msg : Computation).

(** Channels and splitters are shared objects: the Router holds
    references. [next] is the next free reference, [trace] what was done so
    far, oldest first. *)
Record World := mkWorld {
  chans : gmap nat Go.ChanState;
  splitters : gmap nat Splitter;
  next : nat;
  trace : list Event;
}.

Definition World_empty : World :=
  {| chans := ∅; splitters := ∅; next := 0; trace := [] |}.

Definition make (w : World) : nat * World :=
  (next w,
   {| chans := <[next w := Go.ChanOpen]> (chans w); splitters := splitters w;
      next := S (next w); trace := trace w |}).

Definition new_splitter (w : World) (sp : Splitter) : nat * World :=
  (next w,
   {| chans := chans w; splitters := <[next w := sp]> (splitters w);
      next := S (next w); trace := trace w |}).

Definition update_splitter (w : World) (i : nat) (f : Splitter → Splitter) : World :=
  {| chans := chans w; splitters := alter f i (splitters w);
     next := next w; trace := trace w |}.

Definition emit (w : World) (e : Event) : World :=
  {| chans := chans w; splitters := splitters w; next := next w;
     trace := trace w ++ [e] |}.

Definition set_chans (w : World) (c : gmap nat Go.ChanState) : World :=
  {| chans := c; splitters := splitters w; next := next w; trace := trace w |}.

(** Modelled from the spec: [rpc.ClientPool.Compute] and
    [rpc.ComputerService.WaitForCompute] are not among the sources. Each
    takes the outbound channel and returns the inbound channel and the
    error channel of the stream; the first dials, the second waits for the
    peer to dial. *)
Definition clientPool_Compute (w : World) (addr : Address) (sender : nat)
  : nat * nat * World :=
  let '(receiver, w) := make w in
  let '(errs, w) := make w in
  (receiver, errs, emit w (EClientPoolCompute addr sender)).

Definition smpcer_WaitForCompute (w : World) (addr : Address) (sender : nat)
  : nat * nat * World :=
  let '(receiver, w) := make w in
  let '(errs, w) := make w in
  (receiver, errs, emit w (EWaitForCompute addr sender)).

Record Router := mkRouter {
  maxConnections : Z;
  address : Address;
  multiAddress : MultiAddress;
  orderFragmentSplitterCh : nat;
  orderFragmentSplitter : nat;
  computeSenders : gmap string nat;
  computeReceivers : gmap string nat;
  computeErrs : gmap string nat;
  computeArcs : gmap string Z;
}.

Definition set_arcs (router : Router) (arcs : gmap string Z) : Router :=
  {| maxConnections := maxConnections router; address := address router;
     multiAddress := multiAddress router;
     orderFragmentSplitterCh := orderFragmentSplitterCh router;
     orderFragmentSplitter := orderFragmentSplitter router;
     computeSenders := computeSenders router;
     computeReceivers := computeReceivers router;
     computeErrs := computeErrs router;
     computeArcs := arcs |}.

Definition set_arc_maps (router : Router)
    (senders receivers errs : gmap string nat) : Router :=
  {| maxConnections := maxConnections router; address := address router;
     multiAddress := multiAddress router;
     orderFragmentSplitterCh := orderFragmentSplitterCh router;
     orderFragmentSplitter := orderFragmentSplitter router;
     computeSenders := senders;
     computeReceivers := receivers;
     computeErrs := errs;
     computeArcs := computeArcs router |}.

(** A Go map read: the zero value when the key is absent. *)
Definition arcs_of (router : Router) (addr : Address) : Z :=
  default 0 (computeArcs router !! addr).

Definition NewRouter (maxConnections : Z) (multiAddress : MultiAddress) (w : World)
  : Router * World :=
  let '(ch, w) := make w in
  let '(sp, w) := new_splitter w (NewSplitter maxConnections) in
  ({| maxConnections := maxConnections;
      address := MultiAddress_Address multiAddress;
      multiAddress := multiAddress;
      orderFragmentSplitterCh := ch;
      orderFragmentSplitter := sp;
      computeSenders := ∅; computeReceivers := ∅; computeErrs := ∅;
      computeArcs := ∅ |}, w).

(** [OrderFragments]: a fresh channel is subscribed to the order fragment
    splitter and returned. *)
Definition OrderFragments (router : Router) (w : World) : nat * World :=
  let '(orderFragmentReceiver, w) := make w in
  (orderFragmentReceiver,
   update_splitter w (orderFragmentSplitter router)
     (λ sp, Subscribe sp orderFragmentReceiver)).

(** The subscribers that are handed what is sent on [ch]: those of a
    splitter whose source is [ch]. *)
Definition fed_by (w : World) (ch : nat) : list nat :=
  concat (map (λ isp, if decide (source isp.2 = Some ch) then subscribers isp.2 else [])
              (map_to_list (splitters w))).

Definition has_reader (w : World) (ch : nat) : bool :=
  bool_decide (Exists (λ isp, source isp.2 = Some ch) (map_to_list (splitters w))).

(** [OnOpenOrder]: [router.orderFragmentSplitterCh <- *orderFragment], a
    send on an unbuffered channel. It completes when somebody receives; the
    result lists who gets the fragment. *)
Definition OnOpenOrder (router : Router) (w : World) (orderFragment : Fragment)
  : Go.Outcome unit * list (nat * Fragment) :=
  if has_reader w (orderFragmentSplitterCh router) then
    (Go.Returns tt,
     map (λ sub, (sub, orderFragment)) (fed_by w (orderFragmentSplitterCh router)))
  else (Go.Blocks, []).

Section WithID.
(** [identity.Address.ID()], the raw bytes of an address. *)
Variable ID : Address → list byte.

Definition setupCompute (router : Router) (w : World) (addr : Address)
  : Router * World :=
  let '(sender, w) := make w in
  let '(receiver, errs, w) :=
    if Compare (ID (address router)) (ID addr) <? 0 then
      let '(receiver, errs, w) := clientPool_Compute w addr sender in
      (receiver, errs,
       emit w (ESend sender {| MultiAddress_ := Some (multiAddress router);
                               payload := [] |}))
    else smpcer_WaitForCompute w addr sender in
  let '(receivers, w) := new_splitter w (NewSplitter (maxConnections router)) in
  let w := update_splitter w receivers (λ sp, Split sp receiver) in
  let '(errors, w) := new_splitter w (NewSplitter (maxConnections router)) in
  let w := update_splitter w errors (λ sp, Split sp errs) in
  (set_arc_maps router
     (<[addr := sender]> (computeSenders router))
     (<[addr := receivers]> (computeReceivers router))
     (<[addr := errors]> (computeErrs router)), w).

End WithID.

(** [teardownCompute]; [None] is the panic of [close] on a nil or closed
    channel. *)
Definition teardownCompute (router : Router) (w : World) (addr : Address)
  : option (Router * World) :=
  match computeSenders router !! addr with
  | None => None
  | Some sender =>
      match Go.close_chan (chans w) sender with
      | None => None
      | Some chans' =>
          Some (set_arc_maps router
                  (delete addr (computeSenders router))
                  (delete addr (computeReceivers router))
                  (delete addr (computeErrs router)),
                set_chans w chans')
      end
  end.

(** The Router [r] dials [peer]: it calls the client pool and then sends
    its own MultiAddress, the first message on the new sender. *)
Definition dials (ID : Address → list byte) (r : Router) (w : World) (peer : Address)
  : Prop :=
  trace (setupCompute ID r w peer).2 =
    trace w ++ [EClientPoolCompute peer (next w);
                ESend (next w) {| MultiAddress_ := Some (multiAddress r);
                                  payload := [] |}] ∧
  computeSenders (setupCompute ID r w peer).1 !! peer = Some (next w).

(** The Router [r] waits for [peer] to dial and sends nothing. *)
Definition waits (ID : Address → list byte) (r : Router) (w : World) (peer : Address)
  : Prop :=
  trace (setupCompute ID r w peer).2 = trace w ++ [EWaitForCompute peer (next w)] ∧
  computeSenders (setupCompute ID r w peer).1 !! peer = Some (next w).

(** Two Routers, at addresses "A" and "B", their bytes read as the ID. *)
Definition exRouter (a : string) : Router :=
  (NewRouter 8 {| location := "/ip4/127.0.0.1/tcp/18514"; MultiAddress_Address := a |}
             World_empty).1.

Definition exWorld : World :=
  (NewRouter 8 {| location := "/ip4/127.0.0.1/tcp/18514"; MultiAddress_Address := "A" |}
             World_empty).2.

(** *** The order fragment fan-out *)

(** No splitter reads from [ch]. *)
Definition unread (w : World) (ch : nat) : Prop :=
  ∀ i sp, splitters w !! i = Some sp → source sp ≠ Some ch.

(** [n] callers subscribe through [OrderFragments]. *)
Fixpoint subscribe_n (router : Router) (w : World) (n : nat) : World :=
  match n with
  | O => w
  | S n' => subscribe_n router (OrderFragments router w).2 n'
  end.

(** *** Compute: the goroutines that share the Router *)

(** Where the goroutine of one [Compute] call stands: the statement it
    runs next. *)
Inductive PC :=
| PLock1        (** [router.mu.Lock()] *)
| PSetup        (** [if _, ok := router.computeReceivers[addr]; !ok { router.setupCompute(addr) }] *)
| PInc          (** [router.computeArcs[addr]++] *)
| PUnlock1      (** [router.mu.Unlock()] *)
| PSubscribe    (** the two [Subscribe] calls *)
| PForward      (** the [for { select ... } ] loop *)
| PUnsubscribe  (** deferred: the two [Unsubscribe] calls *)
| PLock2        (** deferred: [router.mu.Lock()] *)
| PDec          (** deferred: [router.computeArcs[addr]--] *)
| PTeardown     (** deferred: [if router.computeArcs[addr] == 0 { router.teardownCompute(addr) }] *)
| PUnlock2      (** deferred: [router.mu.Unlock()] *)
| PClose        (** deferred: [close(errs)], [close(computationReceiver)] *)
| PDone.

#[global] Instance PC_eq_dec : EqDecision PC.
Proof. solve_decision. Defined.

Record Thread := mkThread {
  pc : PC;
  addr : Address;
  computationReceiver : nat;
  errs : nat;
}.

Definition set_pc (th : Thread) (pc' : PC) : Thread :=
  {| pc := pc'; addr := addr th;
     computationReceiver := computationReceiver th; errs := errs th |}.

(** The Router, the objects it refers to, who holds [router.mu], and the
    goroutines of the [Compute] calls so far. *)
Record System := mkSystem {
  router : Router;
  world : World;
  mu : option nat;
  threads : list Thread;
}.

Inductive Action :=
| ALock | ASetup | ASkipSetup | AInc | AUnlock | ASubscribe
| AForward | ALeave | AUnsubscribe
| ADec | ATeardown | ASkipTeardown | AClose.

(** What the [select] of the forwarding loop picks. *)
Inductive Choice :=
| Forward (computation : Computation)
| Leave.

(** [Compute(done, addr, computationSender)] up to the [go] statement: two
    channels are made and the goroutine starts. *)
Definition Compute (s : System) (addr : Address) : System :=
  let '(computationReceiver, w) := make (world s) in
  let '(errs, w) := make w in
  {| router := router s; world := w; mu := mu s;
     threads := threads s ++
       [{| pc := PLock1; addr := addr;
           computationReceiver := computationReceiver; errs := errs |}] |}.

Definition goto (s : System) (t : nat) (th : Thread) (pc' : PC)
    (r : Router) (w : World) (m : option nat) : System :=
  {| router := r; world := w; mu := m;
     threads := <[t := set_pc th pc']> (threads s) |}.

Section Exec.
Variable ID : Address → list byte.

(** One statement of goroutine [t]. [None]: the goroutine cannot move (it
    waits for the mutex, or it is done), or the statement panics, which
    ends the whole program. A statement is one step and is taken to
    complete: the model tells which states the program can be in, not
    whether a send finds its receiver. *)
Definition exec (s : System) (t : nat) (choice : Choice) : option (Action * System) :=
  match threads s !! t with
  | None => None
  | Some th =>
      let r := router s in
      let w := world s in
      let a := addr th in
      match pc th with
      | PLock1 =>
          match mu s with
          | None => Some (ALock, goto s t th PSetup r w (Some t))
          | Some _ => None
          end
      | PSetup =>
          match computeReceivers r !! a with
          | Some _ => Some (ASkipSetup, goto s t th PInc r w (mu s))
          | None =>
              let '(r', w') := setupCompute ID r w a in
              Some (ASetup, goto s t th PInc r' w' (mu s))
          end
      | PInc =>
          Some (AInc,
                goto s t th PUnlock1
                  (set_arcs r (<[a := arcs_of r a + 1]> (computeArcs r))) w (mu s))
      | PUnlock1 => Some (AUnlock, goto s t th PSubscribe r w None)
      | PSubscribe =>
          match computeReceivers r !! a, computeErrs r !! a with
          | Some receivers, Some errors =>
              let w := update_splitter w receivers
                         (λ sp, Subscribe sp (computationReceiver th)) in
              let w := update_splitter w errors (λ sp, Subscribe sp (errs th)) in
              Some (ASubscribe, goto s t th PForward r w (mu s))
          | _, _ => None
          end
      | PForward =>
          match choice with
          | Leave => Some (ALeave, goto s t th PUnsubscribe r w (mu s))
          | Forward computation =>
              match computeSenders r !! a with
              | Some sender =>
                  Some (AForward,
                        goto s t th PForward r (emit w (ESend sender computation)) (mu s))
              | None => None
              end
          end
      | PUnsubscribe =>
          match computeReceivers r !! a, computeErrs r !! a with
          | Some receivers, Some errors =>
              let w := update_splitter w receivers
                         (λ sp, Unsubscribe sp (computationReceiver th)) in
              let w := update_splitter w errors (λ sp, Unsubscribe sp (errs th)) in
              Some (AUnsubscribe, goto s t th PLock2 r w (mu s))
          | _, _ => None
          end
      | PLock2 =>
          match mu s with
          | None => Some (ALock, goto s t th PDec r w (Some t))
          | Some _ => None
          end
      | PDec =>
          Some (ADec,
                goto s t th PTeardown
                  (set_arcs r (<[a := arcs_of r a - 1]> (computeArcs r))) w (mu s))
      | PTeardown =>
          if arcs_of r a =? 0 then
            match teardownCompute r w a with
            | Some (r', w') => Some (ATeardown, goto s t th PUnlock2 r' w' (mu s))
            | None => None
            end
          else Some (ASkipTeardown, goto s t th PUnlock2 r w (mu s))
      | PUnlock2 => Some (AUnlock, goto s t th PClose r w None)
      | PClose =>
          match Go.close_chan (chans w) (errs th) with
          | None => None
          | Some c =>
              match Go.close_chan c (computationReceiver th) with
              | None => None
              | Some c' => Some (AClose, goto s t th PDone r (set_chans w c') (mu s))
              end
          end
      | PDone => None
      end
  end.

(** The system moves when somebody calls [Compute] or when one goroutine
    runs one statement; the scheduler picks. *)
Inductive step : System → System → Prop :=
| step_Compute s addr : step s (Compute s addr)
| step_exec s t choice a s' : exec s t choice = Some (a, s') → step s s'.

Definition initial (maxConnections : Z) (multiAddress : MultiAddress) : System :=
  let '(r, w) := NewRouter maxConnections multiAddress World_empty in
  {| router := r; world := w; mu := None; threads := [] |}.

Inductive reachable : System → Prop :=
| reachable_initial maxConnections multiAddress :
    reachable (initial maxConnections multiAddress)
| reachable_step s s' : reachable s → step s s' → reachable s'.

End Exec.

(** *** The invariant of the arcs *)

(** Between [Lock] and [Unlock]. *)
Definition in_cs (c : PC) : bool :=
  match c with
  | PSetup | PInc | PUnlock1 | PDec | PTeardown | PUnlock2 => true
  | _ => false
  end.

(** Has incremented [computeArcs[addr]] and not decremented it yet. *)
Definition counted (c : PC) : bool :=
  match c with
  | PUnlock1 | PSubscribe | PForward | PUnsubscribe | PLock2 | PDec => true
  | _ => false
  end.

Definition holds (p : Address) (th : Thread) : Z :=
  if bool_decide (addr th = p) && counted (pc th) then 1 else 0.

(** The number of goroutines that hold the arc to [p]. *)
Fixpoint holders (p : Address) (l : list Thread) : Z :=
  match l with
  | [] => 0
  | th :: l' => holds p th + holders p l'
  end.

(** The arc to [p] exists: the three maps have an entry for [p]. *)
Definition present (r : Router) (p : Address) : Prop :=
  is_Some (computeSenders r !! p) ∧
  is_Some (computeReceivers r !! p) ∧
  is_Some (computeErrs r !! p).

Definition absent (r : Router) (p : Address) : Prop :=
  computeSenders r !! p = None ∧
  computeReceivers r !! p = None ∧
  computeErrs r !! p = None.

(** [setupCompute] opened the stream with outbound channel [c] to [p]. *)
Definition opened (tr : list Event) (p : Address) (c : nat) : Prop :=
  EClientPoolCompute p c ∈ tr ∨ EWaitForCompute p c ∈ tr.

(** The goroutine in the critical section is between the setup and the
    increment, or between the decrement and the teardown, for [p]. *)
Definition midway (s : System) (p : Address) : Prop :=
  ∃ t th, mu s = Some t ∧ threads s !! t = Some th ∧ addr th = p ∧
          (pc th = PInc ∨ pc th = PTeardown).

(** The channels of the arcs: references not handed out yet are free, an
    opened arc has a channel that was handed out, and an arc that was
    opened for [p] and is not closed is the one the Router has for [p]. *)
Record WorldOk (senders : gmap string nat) (w : World) : Prop := mkWorldOk {
  ok_fresh : ∀ c, (next w ≤ c)%nat → chans w !! c = None;
  ok_opened : ∀ p c, opened (trace w) p c → (c < next w)%nat;
  ok_live : ∀ p c, opened (trace w) p c →
    chans w !! c = Some Go.ChanOpen → senders !! p = Some c;
}.

Record Inv (s : System) : Prop := mkInv {
  inv_cs_mu : ∀ t th, threads s !! t = Some th → in_cs (pc th) = true → mu s = Some t;
  inv_mu_cs : ∀ t, mu s = Some t →
    ∃ th, threads s !! t = Some th ∧ in_cs (pc th) = true;
  inv_count : ∀ p, arcs_of (router s) p = holders p (threads s);
  inv_maps : ∀ p, present (router s) p ∨ absent (router s) p;
  inv_present : ∀ p, present (router s) p ↔ (0 < arcs_of (router s) p ∨ midway s p);
  inv_world : WorldOk (computeSenders (router s)) (world s);
}.

(** How one statement may move the mutex. *)
Definition mutex_move (s : System) (t : nat) (th : Thread) (pc' : PC)
    (m' : option nat) : Prop :=
  (in_cs (pc th) = in_cs pc' ∧ m' = mu s) ∨
  (in_cs (pc th) = false ∧ mu s = None ∧ in_cs pc' = true ∧ m' = Some t) ∨
  (in_cs (pc th) = true ∧ in_cs pc' = false ∧ m' = None).

(** A run under a schedule: which goroutine moves next, and what its
    [select] picks. *)
Fixpoint run (ID : Address → list byte) (s : System)
    (schedule : list (nat * Choice)) : option System :=
  match schedule with
  | [] => Some s
  | (t, choice) :: schedule' =>
      match exec ID s t choice with
      | Some (_, s') => run ID s' schedule'
      | None => None
      end
  end.

(** Two callers ask for the arc to "B"; the first one runs up to its
    forwarding loop, then the second one does. *)
Definition exStart : System :=
  Compute (Compute (initial 8 {| location := "/ip4/127.0.0.1/tcp/18514";
                              MultiAddress_Address := "A" |}) "B") "B".

Definition exSchedule : list (nat * Choice) :=
  [(0, Leave); (0, Leave); (0, Leave); (0, Leave); (0, Leave);
   (1, Leave); (1, Leave); (1, Leave); (1, Leave); (1, Leave)]%nat.

Definition exSystem : System :=
  default exStart (run String.list_byte_of_string exStart exSchedule).

(** Both callers leave: each unsubscribes, locks, decrements, tears down
    if it was the last, unlocks and closes its channels. *)
Definition exLeave : list (nat * Choice) :=
  [(0, Leave); (0, Leave); (0, Leave); (0, Leave); (0, Leave); (0, Leave); (0, Leave);
   (1, Leave); (1, Leave); (1, Leave); (1, Leave); (1, Leave); (1, Leave); (1, Leave)]%nat.

(** *** The channels of the goroutines *)

(** [c] is one of the two channels the goroutine got from [Compute]. *)
Definition own (th : Thread) (c : nat) : Prop :=
  c = computationReceiver th ∨ c = errs th.

(** Every sender of an arc is an open channel and belongs to one arc; the
    two channels of a goroutine differ, are open until it closes them and
    closed from then on; no channel is shared between two goroutines or
    between a goroutine and an arc; the outbound channel of a stream that
    was opened exists. *)
Record ChansOk (s : System) : Prop := mkChansOk {
  co_sender : ∀ p c, computeSenders (router s) !! p = Some c →
    chans (world s) !! c = Some Go.ChanOpen ∧ (c < next (world s))%nat;
  co_senders : ∀ p q c, computeSenders (router s) !! p = Some c →
    computeSenders (router s) !! q = Some c → p = q;
  co_thread : ∀ t th c, threads s !! t = Some th → own th c →
    (c < next (world s))%nat ∧
    chans (world s) !! c =
      Some (if decide (pc th = PDone) then Go.ChanClosed else Go.ChanOpen);
  co_pair : ∀ t th, threads s !! t = Some th → computationReceiver th ≠ errs th;
  co_threads : ∀ t t' th th' c, threads s !! t = Some th →
    threads s !! t' = Some th' → own th c → own th' c → t = t';
  co_apart : ∀ p c t th, computeSenders (router s) !! p = Some c →
    threads s !! t = Some th → ¬ own th c;
  co_opened : ∀ p c, opened (trace (world s)) p c → is_Some (chans (world s) !! c);
}.

(** Every goroutine has run to its end. *)
Definition finished (s : System) : Prop :=
  ∀ t th, threads s !! t = Some th → pc th = PDone.

(** Both callers of the example have left. *)
Definition exFinal : System :=
  default exSystem (run String.list_byte_of_string exSystem exLeave).

(** P1 as the specification states it, of every state at every time: at
    most one arc to a peer, no arc when the count is 0, an arc when the
    count is positive. *)
Definition P1_arc_uniqueness : Prop :=
  ∀ (ID : Address → list byte) (s : System), reachable ID s →
    ∀ p,
      (∀ c c', opened (trace (world s)) p c → opened (trace (world s)) p c' →
         chans (world s) !! c = Some Go.ChanOpen →
         chans (world s) !! c' = Some Go.ChanOpen → c = c') ∧
      (arcs_of (router s) p = 0 → absent (router s) p) ∧
      (0 < arcs_of (router s) p → present (router s) p).

(** The first caller of the example has taken the mutex and run
    [setupCompute]; its increment comes next. *)
Definition exMidway : System :=
  default exStart (run String.list_byte_of_string exStart (take 2 exSchedule)).

End Darknode.

(** ** Facts: Bytes *)

Module BytesFacts.
Import Bytes.

Lemma copy_length {A} (dst src : list A) :
  length (copy dst src) = length dst.
Proof.
  unfold copy. rewrite length_app, length_take, length_drop. lia.
Qed.

Lemma copy_same_length {A} (dst src : list A) :
  length src = length dst → copy dst src = src.
Proof.
  intros Hlen. unfold copy.
  rewrite Hlen, drop_all, app_nil_r. rewrite <- Hlen. apply firstn_all.
Qed.

Lemma Compare_refl a : Compare a a = 0.
Proof.
  induction a as [|x a IH]; simpl; [done|].
  by rewrite N.ltb_irrefl.
Qed.

Lemma Compare_eq a b : Compare a b = 0 → a = b.
Proof.
  revert b. induction a as [|x a IH]; intros [|y b]; simpl; try done.
  destruct (N.ltb_spec (Byte.to_N x) (Byte.to_N y)); [done|].
  destruct (N.ltb_spec (Byte.to_N y) (Byte.to_N x)); [done|].
  intros Hc. f_equal; [|by apply IH].
  assert (Hxy : Byte.to_N x = Byte.to_N y) by lia.
  apply (f_equal Byte.of_N) in Hxy.
  rewrite !Byte.of_to_N in Hxy. congruence.
Qed.

Lemma Compare_antisym a b : Compare b a = - Compare a b.
Proof.
  revert b. induction a as [|x a IH]; intros [|y b]; simpl; try done.
  destruct (N.ltb_spec (Byte.to_N x) (Byte.to_N y));
    destruct (N.ltb_spec (Byte.to_N y) (Byte.to_N x)); try done; lia.
Qed.

Lemma Compare_range a b : Compare a b = -1 ∨ Compare a b = 0 ∨ Compare a b = 1.
Proof.
  revert b. induction a as [|x a IH]; intros [|y b]; simpl; auto.
  repeat case_match; auto.
Qed.

End BytesFacts.

(** ** Facts: Ome *)

Module OmeFacts.
Import Bytes.
Import BytesFacts.
Import Ome.

(** *** NewComputation *)

Section NewComputationFacts.
Variable keccak256 : list byte → list byte.

Lemma NewComputation_ID_copy (buy sell : OrderID) :
  ID (NewComputation keccak256 buy sell) = copy zero32 (keccak256 (buy ++ sell)).
Proof.
  unfold NewComputation, Crypto.Keccak256. simpl. by rewrite app_nil_r.
Qed.

(** C1. The ID of [NewComputation b s] is the Keccak-256 hash of [b]
    followed by [s], byte for byte. The digest of Keccak-256 is 32 bytes
    long, which is the one fact about the hash that is needed. *)
Theorem NewComputation_ID_keccak (buy sell : OrderID) :
  length (keccak256 (buy ++ sell)) = 32%nat →
  ID (NewComputation keccak256 buy sell) = keccak256 (buy ++ sell).
Proof.
  intros Hlen. rewrite NewComputation_ID_copy.
  apply copy_same_length. by rewrite Hlen.
Qed.

(** C10. [NewComputation b s] keeps [b] and [s] and starts the lifecycle:
    state Nil, no match, priority 0, the zero time. *)
Theorem NewComputation_initial (buy sell : OrderID) :
  let com := NewComputation keccak256 buy sell in
  Buy com = buy ∧ Sell com = sell ∧
  State com = ComputationStateNil ∧ Match com = false ∧
  Priority com = 0 ∧ Timestamp com = zeroTime.
Proof. by repeat split. Qed.

End NewComputationFacts.

Section RankerDrain.
Context {Fragment : Type} {storer : Storer Fragment} {settler : Settler} {ranker : Ranker}.

Lemma syncRanker_body_Dispatch ξ com backlog :
  Dispatch ξ com backlog (syncRanker_body ξ com backlog).1
                         (syncRanker_body ξ com backlog).2.
Proof.
  unfold syncRanker_body.
  destruct (Z.eqb_spec (State com) ComputationStateNil) as [Hnil|Hnil].
  - unfold sendComputationToMatcher.
    destruct (OrderFragment (Buy com)) as [bf|err] eqn:Hb; simpl.
    + destruct (OrderFragment (Sell com)) as [sf|err] eqn:Hs; simpl.
      * by apply Dispatch_Nil_resolved.
      * apply Dispatch_Nil_error; [done|]. right. by exists err.
    + apply Dispatch_Nil_error; [done|]. left. by exists err.
  - destruct (Z.eqb_spec (State com) ComputationStateMatched) as [Hm|Hm].
    { by apply Dispatch_Matched. }
    destruct (Z.eqb_spec (State com) ComputationStateAccepted) as [Ha|Ha].
    { by apply Dispatch_Accepted. }
    by apply Dispatch_other.
Qed.

Lemma syncRanker_loop_DispatchAll ξ buffer todo : ∀ i backlog,
  (i + todo ≤ length buffer)%nat →
  ∃ backlog' tr,
    syncRanker_loop ξ buffer i todo backlog = Some (backlog', tr) ∧
    DispatchAll ξ (take todo (drop i buffer)) backlog backlog' tr.
Proof.
  induction todo as [|todo IH]; intros i backlog Hlen; simpl.
  - exists backlog, []. split; [done|]. rewrite take_0. constructor.
  - destruct (lookup_lt_is_Some_2 buffer i) as [com Hcom]; [lia|].
    rewrite Hcom.
    pose proof (syncRanker_body_Dispatch ξ com backlog) as Hd.
    destruct (syncRanker_body ξ com backlog) as [backlog1 tr]; simpl in Hd.
    destruct (IH (S i) backlog1) as (backlog2 & trs & Hloop & Hall); [lia|].
    rewrite Hloop. exists backlog2, (tr ++ trs). split; [done|].
    rewrite (drop_S _ _ _ Hcom). simpl. by econstructor.
Qed.

(** C6. A pass hands the Ranker a buffer of 128 Computations. When the
    Ranker keeps to it (the slice is still 128 long, the count [n] is
    between 0 and 128), the pass dispatches the first [n] Computations in
    order by the rule [Dispatch] under the current epoch hash, and its
    result tells [Run] to wait exactly when [n < 128]: only then can the
    loop sleep, and it sleeps until 14 seconds after the pass began. *)
Theorem syncRanker_dispatch (o : ome) (buffer : list Computation) (n : Z) :
  Computations syncRanker_buffer = (buffer, n) →
  length buffer = 128%nat →
  0 ≤ n ≤ 128 →
  length syncRanker_buffer = 128%nat ∧
  ∃ backlog' tr wait,
    syncRanker o = Some (set_backlog o backlog', tr, wait) ∧
    DispatchAll (Hash (ξ o)) (take (Z.to_nat n) buffer)
                (computationBacklog o) backlog' tr ∧
    (wait = true ↔ n < 128) ∧
    ∀ timeBeginSync now1 now2,
      Run_ranker_pause wait timeBeginSync now1 now2 =
        if decide (n < 128 ∧ now1 ≤ timeBeginSync + 14 * Second)
        then Sleep (timeBeginSync + 14 * Second - now2)
        else NoPause.
Proof.
  intros Hranker Hlen Hn. split.
  { unfold syncRanker_buffer. by rewrite length_replicate. }
  destruct (syncRanker_loop_DispatchAll (Hash (ξ o)) buffer (Z.to_nat n) 0
              (computationBacklog o)) as (backlog' & tr & Hloop & Hall); [lia|].
  exists backlog', tr, (negb (n =? 128)).
  unfold syncRanker. rewrite Hranker, Hloop.
  assert (Hwait : negb (n =? 128) = true ↔ n < 128).
  { destruct (Z.eqb_spec n 128); simpl; split; intros; try done; lia. }
  repeat split; try done; try apply Hwait.
  intros t0 now1 now2. unfold Run_ranker_pause, After, Add, Sub.
  destruct (negb (n =? 128)) eqn:Hw; simpl.
  - destruct (Z.ltb_spec (t0 + 14 * Second) now1); case_decide; try done; lia.
  - case_decide as Hc; [|done]. destruct Hc as [Hc _].
    apply Hwait in Hc. done.
Qed.

End RankerDrain.

Section BacklogSweep.
Context {Fragment : Type} {storer : Storer Fragment}.

Lemma backlog_keyed_empty : backlog_keyed ∅.
Proof. intros k com. by rewrite lookup_empty. Qed.

Lemma backlog_keyed_insert backlog com :
  backlog_keyed backlog → backlog_keyed (<[ID com := com]> backlog).
Proof.
  intros Hk k c. rewrite lookup_insert.
  case_decide; [naive_solver|]. apply Hk.
Qed.

Lemma backlog_keyed_delete backlog k :
  backlog_keyed backlog → backlog_keyed (delete k backlog).
Proof.
  intros Hk k' c. rewrite lookup_delete_Some. intros [_ H]. by apply Hk.
Qed.

Lemma backlog_collect_inv now visit : ∀ tick backlog buffer bufferN
    backlog' buffer' bufferN' tr,
  backlog_keyed backlog →
  length buffer = 128%nat → (bufferN < 128)%nat →
  backlog_collect (Fragment := Fragment) now visit tick backlog buffer bufferN
    = (backlog', buffer', bufferN', tr) →
  backlog' ⊆ backlog ∧ length buffer' = 128%nat ∧
  (bufferN ≤ bufferN' ≤ 128)%nat ∧
  (∀ j, (j < bufferN)%nat → buffer' !! j = buffer !! j) ∧
  (∀ j com, (bufferN ≤ j < bufferN')%nat → buffer' !! j = Some com →
     backlog !! ID com = Some com ∧ backlog' !! ID com = None ∧
     ∃ t, (tick ≤ t)%nat ∧ expired (now t) com = false).
Proof.
  induction visit as [|k visit IH];
    intros tick backlog buffer bufferN backlog' buffer' bufferN' tr
           Hkeyed Hlen Hn Hrun; cbn [backlog_collect] in Hrun.
  { simplify_eq. split_and!; try done; try lia; intros; lia. }
  destruct (backlog !! k) as [com|] eqn:Hk; [|by eapply IH].
  assert (ID com = k) as Hid by by apply Hkeyed.
  rewrite Hid in Hrun.
  pose proof (backlog_keyed_delete backlog k Hkeyed) as Hkeyed1.
  pose proof (delete_subseteq backlog k) as Hsub1.
  fold (expired (now tick) com) in Hrun.
  destruct (expired (now tick) com) eqn:Hexp.
  - destruct (backlog_collect now visit (S tick) (delete k backlog) buffer bufferN)
      as [[[b1 buf1] n1] tr1] eqn:Hrec.
    simplify_eq.
    destruct (IH _ _ _ _ _ _ _ _ Hkeyed1 Hlen Hn Hrec)
      as (Hsub & Hlen' & Hrange & Hold & Hnew).
    split_and!; try done; try lia.
    + by transitivity (delete (ID com) backlog).
    + intros j c Hj Hc.
      destruct (Hnew j c) as (H1 & H2 & t & Ht & He); [lia|done|].
      split_and!; [by eapply lookup_weaken|done|].
      exists t. split; [lia|done].
  - destruct (Nat.leb_spec 128 (S bufferN)) as [Hfull|Hfull].
    + simplify_eq. split_and!; try done; try lia.
      * by rewrite length_insert.
      * intros j Hj. apply list_lookup_insert_ne. lia.
      * intros j c Hj Hc. assert (j = bufferN) as -> by lia.
        rewrite list_lookup_insert_eq in Hc by lia. simplify_eq.
        split_and!; [done|apply lookup_delete_eq|].
        exists tick. by split.
    + assert (Hlen1 : length (<[bufferN:=com]> buffer) = 128%nat)
        by by rewrite length_insert.
      destruct (IH _ _ _ _ _ _ _ _ Hkeyed1 Hlen1 Hfull Hrun)
        as (Hsub & Hlen' & Hrange & Hold & Hnew).
      assert (Hat : buffer' !! bufferN = Some com).
      { rewrite Hold by lia. apply list_lookup_insert_eq. lia. }
      split_and!; try done; try lia.
      * by transitivity (delete k backlog).
      * intros j Hj. rewrite Hold by lia. apply list_lookup_insert_ne. lia.
      * intros j c Hj Hc.
        destruct (decide (j = bufferN)) as [->|Hne].
        { simplify_eq. split_and!; [done| |exists tick; by split].
          eapply lookup_weaken_None; [|done]. apply lookup_delete_eq. }
        destruct (Hnew j c) as (H1 & H2 & t & Ht & He); [lia|done|].
        split_and!; [by eapply lookup_weaken|done|].
        exists t. split; [lia|done].
Qed.

Lemma expired_mono t u com : t ≤ u → expired t com = true → expired u com = true.
Proof.
  unfold expired, Before, Add. intros Htu Ht.
  apply Z.ltb_lt in Ht. apply Z.ltb_lt. lia.
Qed.

Lemma count_unexpired_delete t backlog k ks :
  (count_unexpired t (delete k backlog) ks ≤ count_unexpired t backlog ks)%nat.
Proof.
  induction ks as [|k' ks IH]; simpl; [done|].
  rewrite lookup_delete. case_decide; [|lia].
  repeat case_match; lia.
Qed.

(** A key that holds an expired Computation and is reached before the
    buffer is full is gone after the first loop. *)
Lemma backlog_collect_drops now t0 k com post : ∀ pre tick backlog buffer bufferN,
  backlog_keyed backlog → length buffer = 128%nat →
  (∀ i, t0 ≤ now i) →
  backlog !! k = Some com → expired t0 com = true →
  (bufferN + count_unexpired t0 backlog pre < 128)%nat →
  (backlog_collect (Fragment := Fragment) now (pre ++ k :: post) tick
     backlog buffer bufferN).1.1.1 !! k = None.
Proof.
  assert (Hhere : ∀ rest tick backlog buffer bufferN,
    backlog_keyed backlog → length buffer = 128%nat → (bufferN < 128)%nat →
    (∀ i, t0 ≤ now i) →
    backlog !! k = Some com → expired t0 com = true →
    (backlog_collect (Fragment := Fragment) now (k :: rest) tick
       backlog buffer bufferN).1.1.1 !! k = None).
  { intros rest tick backlog buffer bufferN Hkeyed Hlen Hn Hclock Hk Hexp.
    cbn [backlog_collect]. rewrite Hk.
    rewrite (Hkeyed _ _ Hk).
    fold (expired (now tick) com).
    rewrite (expired_mono t0 (now tick) com (Hclock tick) Hexp).
    destruct (backlog_collect now rest (S tick) (delete k backlog) buffer bufferN)
      as [[[b1 buf1] n1] tr1] eqn:Hrec. simpl.
    apply backlog_collect_inv in Hrec as (Hsub & _);
      [|by apply backlog_keyed_delete|done|done].
    eapply lookup_weaken_None; [|done]. apply lookup_delete_eq. }
  induction pre as [|k' pre IH];
    intros tick backlog buffer bufferN Hkeyed Hlen Hclock Hk Hexp Hcount.
  { apply Hhere; try done. lia. }
  simpl in Hcount.
  destruct (decide (k' = k)) as [->|Hne].
  { change ((k :: pre) ++ k :: post) with (k :: (pre ++ k :: post)).
    apply Hhere; try done. lia. }
  change ((k' :: pre) ++ k :: post) with (k' :: (pre ++ k :: post)).
  cbn [backlog_collect].
  destruct (backlog !! k') as [com'|] eqn:Hk'.
  2:{ apply IH; try done. }
  rewrite (Hkeyed _ _ Hk').
  assert (Hk1 : delete k' backlog !! k = Some com)
    by by rewrite lookup_delete_ne.
  pose proof (count_unexpired_delete t0 backlog k' pre) as Hmono.
  fold (expired (now tick) com').
  destruct (expired (now tick) com') eqn:Hexp'.
  - pose proof (IH (S tick) (delete k' backlog) buffer bufferN) as IH'.
    destruct (backlog_collect now (pre ++ k :: post) (S tick) (delete k' backlog)
                buffer bufferN) as [[[b1 buf1] n1] tr1].
    simpl in *. apply IH'; try done; [by apply backlog_keyed_delete|lia].
  - assert (expired t0 com' = false) as Hexp0.
    { destruct (expired t0 com') eqn:E; [|done].
      by rewrite (expired_mono t0 (now tick) com' (Hclock tick) E) in Hexp'. }
    rewrite Hexp0 in Hcount.
    destruct (Nat.leb_spec 128 (S bufferN)) as [Hfull|Hfull]; [lia|].
    apply IH; try done.
    + by apply backlog_keyed_delete.
    + by rewrite length_insert.
    + lia.
Qed.

(** What the second loop leaves under a key: either nothing in the buffer
    with that ID failed and the entry is untouched, or the entry is one of
    the Computations with that ID whose retry failed. *)
Lemma backlog_retry_lookup ξ buffer k : ∀ todo i backlog,
  let backlog' := (backlog_retry ξ buffer i todo backlog).1 in
  (backlog' !! k = backlog !! k ∧
   ∀ j, (i ≤ j < i + todo)%nat → ID (buffer !!! j) = k →
        (sendComputationToMatcher ξ (buffer !!! j)).1 = None)
  ∨ (∃ j, (i ≤ j < i + todo)%nat ∧ ID (buffer !!! j) = k ∧
          is_Some (sendComputationToMatcher ξ (buffer !!! j)).1 ∧
          backlog' !! k = Some (buffer !!! j)).
Proof.
  induction todo as [|todo IH]; intros i backlog; cbn [backlog_retry].
  { left. split; [done|]. intros; lia. }
  destruct (sendComputationToMatcher ξ (buffer !!! i)) as [[err|] tr] eqn:Hsend.
  - specialize (IH (S i) (<[ID (buffer !!! i) := buffer !!! i]> backlog)).
    destruct (backlog_retry ξ buffer (S i) todo
                (<[ID (buffer !!! i) := buffer !!! i]> backlog)) as [b' tr'].
    simpl in *. destruct IH as [[Heq Hnone]|(j & Hj & Hid & Hfail & Hlook)].
    + destruct (decide (ID (buffer !!! i) = k)) as [Hik|Hik].
      * right. exists i. split; [lia|]. split; [done|]. split; [by rewrite Hsend|].
        by rewrite Heq, <- Hik, lookup_insert_eq.
      * left. split; [by rewrite Heq, lookup_insert_ne|].
        intros j Hj Hid. destruct (decide (j = i)) as [->|]; [done|].
        apply Hnone; [lia|done].
    + right. exists j. split; [lia|]. by split_and!.
  - specialize (IH (S i) backlog).
    destruct (backlog_retry ξ buffer (S i) todo backlog) as [b' tr'].
    simpl in *. destruct IH as [[Heq Hnone]|(j & Hj & Hid & Hfail & Hlook)].
    + left. split; [done|].
      intros j Hj Hid. destruct (decide (j = i)) as [->|]; [by rewrite Hsend|].
      apply Hnone; [lia|done].
    + right. exists j. split; [lia|]. by split_and!.
Qed.

Lemma backlog_retry_keyed ξ buffer : ∀ todo i backlog,
  backlog_keyed backlog →
  backlog_keyed (backlog_retry ξ buffer i todo backlog).1.
Proof.
  induction todo as [|todo IH]; intros i backlog Hkeyed; cbn [backlog_retry]; [done|].
  destruct (sendComputationToMatcher ξ (buffer !!! i)) as [[err|] tr].
  - specialize (IH (S i) _ (backlog_keyed_insert backlog (buffer !!! i) Hkeyed)).
    by destruct (backlog_retry ξ buffer (S i) todo _).
  - specialize (IH (S i) _ Hkeyed).
    by destruct (backlog_retry ξ buffer (S i) todo _).
Qed.

(** The backlog stays keyed by ID across a sweep. *)
Lemma syncOrderFragmentBacklog_keyed now visit ξ o :
  backlog_keyed (computationBacklog o) →
  backlog_keyed (computationBacklog (syncOrderFragmentBacklog now visit ξ o).1).
Proof.
  intros Hkeyed. unfold syncOrderFragmentBacklog.
  destruct (backlog_collect now visit 0 (computationBacklog o)
              (replicate 128 zeroComputation) 0) as [[[b1 buf] n] tr1] eqn:Hc.
  apply backlog_collect_inv in Hc as (Hsub & _);
    [|done|by rewrite length_replicate|lia].
  pose proof (backlog_retry_keyed ξ buf n 0 b1) as Hr.
  destruct (backlog_retry ξ buf 0 n b1) as [b2 tr2]. simpl in *.
  apply Hr. intros k c Hk. apply Hkeyed. by eapply lookup_weaken.
Qed.

(** C5, as the code has it. A Computation that sits in the backlog under
    its ID and is past its expiry when a sweep starts is dropped by that
    sweep, neither retried nor put back, when the sweep reaches it before
    its buffer of 128 is full: fewer than 128 Computations that are not
    expired come before it in the order [visit] in which the map is
    walked. The clock does not run backwards during the sweep. *)
Theorem syncOrderFragmentBacklog_drops_expired
    (now : nat → Time) (visit pre post : list (list byte)) (ξ : Hash32)
    (o : ome) (t0 : Time) (com : Computation) :
  backlog_keyed (computationBacklog o) →
  (∀ i, t0 ≤ now i) →
  computationBacklog o !! ID com = Some com →
  expired t0 com = true →
  visit = pre ++ ID com :: post →
  (count_unexpired t0 (computationBacklog o) pre < 128)%nat →
  computationBacklog (syncOrderFragmentBacklog now visit ξ o).1 !! ID com = None ∧
  com ∉ backlog_retried (Fragment := Fragment) now visit o.
Proof.
  intros Hkeyed Hclock Hin Hexp -> Hcount.
  pose proof (backlog_collect_drops now t0 (ID com) com post pre 0
                (computationBacklog o) (replicate 128 zeroComputation) 0
                Hkeyed (length_replicate _ _) Hclock Hin Hexp Hcount) as Hdrop.
  unfold syncOrderFragmentBacklog, backlog_retried.
  destruct (backlog_collect now (pre ++ ID com :: post) 0 (computationBacklog o)
              (replicate 128 zeroComputation) 0) as [[[b1 buf] n] tr1] eqn:Hc.
  simpl in Hdrop.
  apply backlog_collect_inv in Hc as (Hsub & Hlen & Hn & _ & Hnew);
    [|done|by rewrite length_replicate|lia].
  assert (Hfresh : ∀ j c, (j < n)%nat → buf !! j = Some c → ID c = ID com → False).
  { intros j c Hj Hc Hid.
    destruct (Hnew j c) as (Hc0 & _ & t & _ & Ht); [lia|done|].
    rewrite Hid, Hin in Hc0. simplify_eq.
    by rewrite (expired_mono t0 (now t) c (Hclock t) Hexp) in Ht. }
  split.
  - pose proof (backlog_retry_lookup ξ buf (ID com) n 0 b1) as Hr.
    destruct (backlog_retry ξ buf 0 n b1) as [b2 tr2]. simpl in *.
    destruct Hr as [[Heq _]|(j & Hj & Hid & _ & _)]; [by rewrite Heq|].
    exfalso. apply (Hfresh j (buf !!! j)); [lia| |done].
    apply list_lookup_lookup_total_lt. lia.
  - intros Hretried. apply list_elem_of_lookup in Hretried as [j Hj].
    apply lookup_take_Some in Hj as [Hj Hlt].
    by apply (Hfresh j com).
Qed.

(** C8. A Computation that a sweep retries and whose retry fails is in the
    backlog afterwards, under its ID, as the very record that sat there when
    the sweep began: every field has the value it had. *)
Theorem syncOrderFragmentBacklog_reinserts_unchanged
    (now : nat → Time) (visit : list (list byte)) (ξ : Hash32)
    (o : ome) (com : Computation) :
  backlog_keyed (computationBacklog o) →
  com ∈ backlog_retried (Fragment := Fragment) now visit o →
  is_Some (sendComputationToMatcher ξ com).1 →
  computationBacklog o !! ID com = Some com ∧
  computationBacklog (syncOrderFragmentBacklog now visit ξ o).1 !! ID com = Some com.
Proof.
  intros Hkeyed Hretried Hfail.
  unfold syncOrderFragmentBacklog, backlog_retried in *.
  destruct (backlog_collect now visit 0 (computationBacklog o)
              (replicate 128 zeroComputation) 0) as [[[b1 buf] n] tr1] eqn:Hc.
  apply backlog_collect_inv in Hc as (Hsub & Hlen & Hn & _ & Hnew);
    [|done|by rewrite length_replicate|lia].
  apply list_elem_of_lookup in Hretried as [j Hj].
  apply lookup_take_Some in Hj as [Hj Hlt].
  destruct (Hnew j com) as (Hin & _); [lia|done|].
  split; [done|].
  pose proof (backlog_retry_lookup ξ buf (ID com) n 0 b1) as Hr.
  destruct (backlog_retry ξ buf 0 n b1) as [b2 tr2]. simpl in *.
  destruct Hr as [[_ Hnone]|(j' & Hj' & Hid & _ & Hlook)].
  - specialize (Hnone j). rewrite (list_lookup_total_correct _ _ _ Hj) in Hnone.
    rewrite Hnone in Hfail; [by destruct Hfail|lia|done].
  - rewrite Hlook. f_equal.
    destruct (Hnew j' (buf !!! j')) as (Hin' & _); [lia| |].
    { apply list_lookup_lookup_total_lt. lia. }
    rewrite Hid, Hin in Hin'. by simplify_eq.
Qed.

End BacklogSweep.

Section Keyed.
Context {Fragment : Type} {storer : Storer Fragment} {settler : Settler} {ranker : Ranker}.

Lemma NewOme_keyed : backlog_keyed (computationBacklog NewOme).
Proof. apply backlog_keyed_empty. Qed.

Lemma Dispatch_keyed ξ com backlog backlog' tr :
  Dispatch ξ com backlog backlog' tr → backlog_keyed backlog → backlog_keyed backlog'.
Proof.
  intros Hd Hkeyed. destruct Hd; try done. by apply backlog_keyed_insert.
Qed.

Lemma syncRanker_loop_keyed ξ buffer todo : ∀ i backlog backlog' tr,
  syncRanker_loop ξ buffer i todo backlog = Some (backlog', tr) →
  backlog_keyed backlog → backlog_keyed backlog'.
Proof.
  induction todo as [|todo IH]; intros i backlog backlog' tr Hloop Hkeyed;
    simpl in Hloop; [by simplify_eq|].
  destruct (buffer !! i) as [com|]; [|done].
  pose proof (syncRanker_body_Dispatch ξ com backlog) as Hd.
  destruct (syncRanker_body ξ com backlog) as [backlog1 tr1]; simpl in Hd.
  destruct (syncRanker_loop ξ buffer (S i) todo backlog1) as [[b2 tr2]|] eqn:Hrec;
    [|done].
  simplify_eq. eapply IH; [done|]. by eapply Dispatch_keyed.
Qed.

(** The backlog stays keyed by ID across a pass of the Ranker drain. *)
Lemma syncRanker_keyed o o' tr wait :
  syncRanker o = Some (o', tr, wait) →
  backlog_keyed (computationBacklog o) → backlog_keyed (computationBacklog o').
Proof.
  unfold syncRanker. destruct (Computations syncRanker_buffer) as [buffer n].
  destruct (syncRanker_loop (Hash (ξ o)) buffer 0 (Z.to_nat n) (computationBacklog o))
    as [[b tr']|] eqn:Hloop; [|done].
  intros [= <- <- <-] Hkeyed. simpl. by eapply syncRanker_loop_keyed.
Qed.

Lemma syncRanker_loop_overrun ξ buffer todo : ∀ i backlog,
  (i ≤ length buffer < i + todo)%nat →
  syncRanker_loop ξ buffer i todo backlog = None.
Proof.
  induction todo as [|todo IH]; intros i backlog Hlen; simpl; [lia|].
  destruct (buffer !! i) as [com|] eqn:Hcom; [|done].
  apply lookup_lt_Some in Hcom.
  destruct (syncRanker_body ξ com backlog) as [backlog1 tr1].
  rewrite IH; [done|lia].
Qed.

(** A Ranker that reports more than fits the buffer makes the pass index
    out of range: the bound on the count is needed. *)
Lemma syncRanker_overrun o buffer n :
  Computations syncRanker_buffer = (buffer, n) →
  length buffer = 128%nat → 128 < n →
  syncRanker o = None.
Proof.
  intros Hranker Hlen Hn. unfold syncRanker. rewrite Hranker.
  rewrite syncRanker_loop_overrun; [done|lia].
Qed.

End Keyed.

Lemma NewComputation_ID_keccak_witness :
  ID (NewComputation pad32 (replicate 32 x01) (replicate 32 x02))
  = pad32 (replicate 32 x01 ++ replicate 32 x02).
Proof.
  apply (NewComputation_ID_keccak pad32 (replicate 32 x01) (replicate 32 x02)).
  reflexivity.
Defined.

Lemma backlog_of_keyed coms : backlog_keyed (backlog_of coms).
Proof.
  induction coms as [|com coms IH]; [apply backlog_keyed_empty|].
  by apply backlog_keyed_insert.
Qed.

Lemma backlog_of_dom coms k :
  k ∈ ID <$> coms ↔ is_Some (backlog_of coms !! k).
Proof.
  induction coms as [|com coms IH]; unfold backlog_of; simpl.
  - rewrite lookup_empty, elem_of_nil. split; [done|]. by intros [??].
  - rewrite elem_of_cons, lookup_insert_is_Some, IH. unfold backlog_of.
    split.
    + intros [->|Hk]; [by left|].
      destruct (decide (ID com = k)); [by left|by right].
    + intros [<-|[_ Hk]]; [by left|by right].
Qed.

Lemma syncRanker_dispatch_witness :
  ∃ backlog' tr wait,
    syncRanker (Fragment := unit) (storer := exStorer) (settler := exSettler)
               (ranker := exRanker) (exOme []) = Some (set_backlog (exOme []) backlog', tr, wait) ∧
    DispatchAll (storer := exStorer) (settler := exSettler) (replicate 32 x2a)
                exDrained ∅ backlog' tr ∧
    (wait = true ↔ 3 < 128).
Proof.
  destruct (syncRanker_dispatch (Fragment := unit) (storer := exStorer)
              (settler := exSettler) (ranker := exRanker) (exOme [])
              (exDrained ++ drop 3 syncRanker_buffer) 3)
    as (_ & backlog' & tr & wait & Hrun & Hall & Hwait & _);
    [reflexivity | reflexivity | lia |].
  exists backlog', tr, wait. split; [exact Hrun|]. split; [exact Hall|exact Hwait].
Defined.

Lemma syncOrderFragmentBacklog_drops_expired_witness :
  computationBacklog
    (syncOrderFragmentBacklog (storer := exStorer) (λ _, exStart)
       [exID 1; exID 2] zero32 (exOme [exFresh 1; exStale 2])).1
    !! exID 2 = None.
Proof.
  apply (syncOrderFragmentBacklog_drops_expired (storer := exStorer)
           (λ _, exStart) [exID 1; exID 2] [exID 1] [] zero32
           (exOme [exFresh 1; exStale 2]) exStart (exStale 2)).
  - apply backlog_of_keyed.
  - intros i. apply Z.le_refl.
  - vm_compute. reflexivity.
  - reflexivity.
  - reflexivity.
  - vm_compute. lia.
Defined.

Lemma syncOrderFragmentBacklog_reinserts_unchanged_witness :
  computationBacklog
    (syncOrderFragmentBacklog (storer := exStorer) (λ _, exStart)
       [exID 1; exID 2] zero32 (exOme [exFresh 1; exStale 2])).1
    !! exID 1 = Some (exFresh 1).
Proof.
  apply (syncOrderFragmentBacklog_reinserts_unchanged (storer := exStorer)
           (λ _, exStart) [exID 1; exID 2] zero32
           (exOme [exFresh 1; exStale 2]) (exFresh 1)).
  - apply backlog_of_keyed.
  - apply list_elem_of_In. vm_compute. left. reflexivity.
  - vm_compute. eexists. reflexivity.
Defined.

(** The sweep fills its buffer with the 128 and stops; the expired
    Computation 128 is not reached and stays in the backlog. *)
Lemma syncOrderFragmentBacklog_misses_expired :
  computationBacklog
    (syncOrderFragmentBacklog (storer := exStorer) (λ _, exStart)
       (ID <$> exFull) zero32 (exOme exFull)).1
    !! exID 128 = Some (exStale 128).
Proof. vm_compute. reflexivity. Qed.

Lemma backlog_expiry_counterexample : ¬ P7_backlog_expiry.
Proof.
  intros HP7.
  specialize (HP7 unit exStorer (λ _, exStart) (ID <$> exFull) zero32
                (exOme exFull) exStart (exStale 128)).
  change (ID (exStale 128)) with (exID 128) in HP7.
  rewrite syncOrderFragmentBacklog_misses_expired in HP7.
  enough (Some (exStale 128) = None) by done.
  apply HP7.
  - apply backlog_of_keyed.
  - intros i. apply Z.le_refl.
  - assert (Hd : bool_decide (NoDup (ID <$> exFull))) by (vm_compute; exact I).
    exact (bool_decide_unpack _ Hd).
  - intros k. apply backlog_of_dom.
  - vm_compute. reflexivity.
  - reflexivity.
Qed.

(** *** What a pass of the Ranker drain does to the backlog *)

Section DrainBacklog.
Context {Fragment : Type} {storer : Storer Fragment} {settler : Settler} {ranker : Ranker}.

Lemma syncRanker_loop_Some ξ buffer todo : ∀ i backlog backlog' tr,
  syncRanker_loop ξ buffer i todo backlog = Some (backlog', tr) →
  DispatchAll ξ (take todo (drop i buffer)) backlog backlog' tr.
Proof.
  induction todo as [|todo IH]; intros i backlog backlog' tr Hloop; simpl in Hloop.
  - simplify_eq. rewrite take_0. constructor.
  - destruct (buffer !! i) as [com|] eqn:Hcom; [|done].
    pose proof (syncRanker_body_Dispatch ξ com backlog) as Hd.
    destruct (syncRanker_body ξ com backlog) as [backlog1 tr1]; simpl in Hd.
    destruct (syncRanker_loop ξ buffer (S i) todo backlog1) as [[b2 tr2]|] eqn:Hrec;
      [|done].
    simplify_eq. rewrite (drop_S _ _ _ Hcom). simpl.
    econstructor; [done|]. by apply IH.
Qed.

Lemma DispatchAll_backlog ξ coms backlog backlog' tr :
  DispatchAll ξ coms backlog backlog' tr →
  ∀ k,
    (backlog' !! k = backlog !! k ∧
     ∀ com, com ∈ coms → unresolvable com → ID com ≠ k)
    ∨ (∃ com, com ∈ coms ∧ unresolvable com ∧ ID com = k ∧
              backlog' !! k = Some com).
Proof.
  induction 1 as [backlog|com coms backlog backlog1 backlog2 tr trs Hd Hall IH];
    intros k.
  { left. split; [done|]. by intros com ?%elem_of_nil. }
  destruct (IH k) as [[Heq Hnone]|(com' & Hin & Hun & Hid & Hlook)].
  2:{ right. exists com'. split_and!; try done. by right. }
  assert (Hsame : backlog1 = backlog → ¬ unresolvable com →
                  backlog2 !! k = backlog !! k ∧
                  ∀ com0, com0 ∈ com :: coms → unresolvable com0 → ID com0 ≠ k).
  { intros -> Hnot. split; [done|].
    intros com0 [->|Hin]%elem_of_cons Hun; [done|by apply Hnone]. }
  destruct Hd as [b bf sf Hst Hb Hs|b Hst Herr|b Hst|b Hst|b H1 H2 H3].
  - left. apply Hsame; [done|]. intros [_ [[e He]|[e He]]]; congruence.
  - destruct (decide (ID com = k)) as [Hk|Hk].
    + right. exists com. split_and!; [by left|by split|done|].
      by rewrite Heq, <- Hk, lookup_insert_eq.
    + left. split; [by rewrite Heq, lookup_insert_ne|].
      intros com0 [->|Hin]%elem_of_cons Hun; [done|by apply Hnone].
  - left. apply Hsame; [done|]. intros [Hnil _].
    rewrite Hst in Hnil. done.
  - left. apply Hsame; [done|]. intros [Hnil _].
    rewrite Hst in Hnil. done.
  - left. apply Hsame; [done|]. by intros [Hnil _].
Qed.

(** A pass of the Ranker drain only ever adds to the backlog. Under a
    key it leaves what was there, unless one of the Computations it drained
    has that ID, is in state Nil and lacks a fragment: then it leaves such a
    Computation there. No entry is removed; Computations in any other state,
    and failures of the Settler, do not touch the backlog. *)
Theorem syncRanker_backlog (o o' : ome) (tr : list (Effect Fragment)) (wait : bool) :
  syncRanker o = Some (o', tr, wait) →
  let drained :=
    take (Z.to_nat (Computations syncRanker_buffer).2) (Computations syncRanker_buffer).1 in
  (∀ k, is_Some (computationBacklog o !! k) → is_Some (computationBacklog o' !! k)) ∧
  (∀ k, (∀ com, com ∈ drained → unresolvable com → ID com ≠ k) →
        computationBacklog o' !! k = computationBacklog o !! k) ∧
  (∀ com, com ∈ drained → unresolvable com →
        ∃ com', com' ∈ drained ∧ unresolvable com' ∧ ID com' = ID com ∧
                computationBacklog o' !! ID com = Some com') ∧
  ξ o' = ξ o.
Proof.
  unfold syncRanker. destruct (Computations syncRanker_buffer) as [buffer n]. simpl.
  destruct (syncRanker_loop (Hash (ξ o)) buffer 0 (Z.to_nat n) (computationBacklog o))
    as [[b tr']|] eqn:Hloop; [|done].
  intros [= <- <- <-]. simpl.
  apply syncRanker_loop_Some in Hloop. rewrite drop_0 in Hloop.
  pose proof (DispatchAll_backlog _ _ _ _ _ Hloop) as Hb.
  split_and!; [| | |done].
  - intros k Hsome. destruct (Hb k) as [[-> _]|(com & _ & _ & _ & ->)]; [done|by eexists].
  - intros k Hnone. destruct (Hb k) as [[-> _]|(com & Hin & Hun & Hid & _)]; [done|].
    by destruct (Hnone com Hin Hun).
  - intros com Hin Hun. destruct (Hb (ID com)) as [[_ Hnone]|(com' & Hin' & Hun' & Hid & Hl)].
    + by destruct (Hnone com Hin Hun).
    + by exists com'.
Qed.

End DrainBacklog.

Lemma syncRanker_backlog_witness :
  computationBacklog
    (default (exOme [])
       (fst <$> (fst <$> syncRanker (storer := exStorer) (settler := exSettler)
                           (ranker := exRanker) (exOme []))))
    !! exID 1 = Some (exCom 1 ComputationStateNil 0).
Proof.
  destruct (syncRanker (storer := exStorer) (settler := exSettler)
              (ranker := exRanker) (exOme [])) as [[[o' tr] wait]|] eqn:Hrun;
    [|vm_compute in Hrun; discriminate].
  destruct (syncRanker_backlog (storer := exStorer) (settler := exSettler)
              (ranker := exRanker) (exOme []) o' tr wait Hrun)
    as (_ & _ & Hadd & _).
  destruct (Hadd (exCom 1 ComputationStateNil 0)) as (com' & Hin & _ & Hid & Hlook).
  - apply list_elem_of_In. vm_compute. left. reflexivity.
  - split; [reflexivity|]. left. eexists. vm_compute. reflexivity.
  - simpl. change (ID (exCom 1 ComputationStateNil 0)) with (exID 1) in Hlook.
    rewrite Hlook. f_equal.
    apply list_elem_of_In in Hin. vm_compute in Hin.
    destruct Hin as [<-|[<-|[<-|[]]]]; [reflexivity|vm_compute in Hid; discriminate..].
Defined.

(** *** What a sweep does to the backlog *)

Section SweepFacts.
Context {Fragment : Type} {storer : Storer Fragment}.

(** No Computation is buffered twice. *)
Lemma backlog_collect_NoDup now visit : ∀ tick backlog buffer bufferN
    backlog' buffer' bufferN' tr,
  backlog_keyed backlog →
  length buffer = 128%nat → (bufferN < 128)%nat →
  NoDup (take bufferN buffer) →
  (∀ com, com ∈ take bufferN buffer → backlog !! ID com = None) →
  backlog_collect (Fragment := Fragment) now visit tick backlog buffer bufferN
    = (backlog', buffer', bufferN', tr) →
  NoDup (take bufferN' buffer') ∧
  (∀ com, com ∈ take bufferN' buffer' → backlog' !! ID com = None).
Proof.
  induction visit as [|k visit IH];
    intros tick backlog buffer bufferN backlog' buffer' bufferN' tr
           Hkeyed Hlen Hn Hnd Hgone Hrun; cbn [backlog_collect] in Hrun.
  { by simplify_eq. }
  destruct (backlog !! k) as [com|] eqn:Hk; [|by eapply IH].
  assert (ID com = k) as Hid by by apply Hkeyed.
  rewrite Hid in Hrun.
  pose proof (backlog_keyed_delete backlog k Hkeyed) as Hkeyed1.
  assert (Hgone1 : ∀ c, c ∈ take bufferN buffer → delete k backlog !! ID c = None).
  { intros c Hc. apply lookup_delete_None. right. by apply Hgone. }
  fold (expired (now tick) com) in Hrun.
  destruct (expired (now tick) com).
  - destruct (backlog_collect now visit (S tick) (delete k backlog) buffer bufferN)
      as [[[b1 buf1] n1] tr1] eqn:Hrec.
    simplify_eq. by eapply IH.
  - assert (Htake : take (S bufferN) (<[bufferN:=com]> buffer)
                    = take bufferN buffer ++ [com]).
    { rewrite (take_S_r _ _ com) by (apply list_lookup_insert_eq; lia).
      by rewrite take_insert_ge. }
    assert (Hnd1 : NoDup (take (S bufferN) (<[bufferN:=com]> buffer))).
    { rewrite Htake. apply NoDup_app. split_and!; [done| |apply NoDup_singleton].
      intros c Hc ->%list_elem_of_singleton. apply Hgone in Hc. congruence. }
    assert (Hgone2 : ∀ c, c ∈ take (S bufferN) (<[bufferN:=com]> buffer) →
                          delete k backlog !! ID c = None).
    { intros c. rewrite Htake. intros [Hc| ->%list_elem_of_singleton]%elem_of_app.
      - by apply Hgone1.
      - rewrite Hid. apply lookup_delete_eq. }
    destruct (Nat.leb_spec 128 (S bufferN)) as [Hfull|Hfull].
    + by simplify_eq.
    + eapply IH; [..|done]; try done. by rewrite length_insert.
Qed.

(** What becomes of an entry in the first loop: it stays, or it is
    buffered, or it was found expired. *)
Lemma backlog_collect_fate now visit : ∀ tick backlog buffer bufferN
    backlog' buffer' bufferN' tr k com,
  backlog_keyed backlog →
  length buffer = 128%nat → (bufferN < 128)%nat →
  backlog_collect (Fragment := Fragment) now visit tick backlog buffer bufferN
    = (backlog', buffer', bufferN', tr) →
  backlog !! k = Some com →
  backlog' !! k = Some com ∨
  (∃ j, (bufferN ≤ j < bufferN')%nat ∧ buffer' !! j = Some com) ∨
  (∃ t, (tick ≤ t)%nat ∧ expired (now t) com = true).
Proof.
  induction visit as [|k' visit IH];
    intros tick backlog buffer bufferN backlog' buffer' bufferN' tr k c
           Hkeyed Hlen Hn Hrun Hk; cbn [backlog_collect] in Hrun.
  { simplify_eq. by left. }
  destruct (backlog !! k') as [com|] eqn:Hk'; [|by eapply IH].
  assert (ID com = k') as Hid by by apply Hkeyed.
  rewrite Hid in Hrun. clear Hid.
  pose proof (backlog_keyed_delete backlog k' Hkeyed) as Hkeyed1.
  fold (expired (now tick) com) in Hrun.
  assert (Hother : k' ≠ k → delete k' backlog !! k = Some c)
    by (intros; by rewrite lookup_delete_ne).
  assert (Hsame : k' = k → com = c) by (intros ->; congruence).
  destruct (expired (now tick) com) eqn:Hexp.
  - destruct (backlog_collect now visit (S tick) (delete k' backlog) buffer bufferN)
      as [[[b1 buf1] n1] tr1] eqn:Hrec.
    injection Hrun as <- <- <- <-.
    destruct (decide (k' = k)) as [Heq|Hne].
    { rewrite <- (Hsame Heq). right. right. exists tick. by split. }
    destruct (IH _ _ _ _ _ _ _ _ k c Hkeyed1 Hlen Hn Hrec (Hother Hne))
      as [?|[?|(t & Ht & He)]]; [by left|by right; left|].
    right. right. exists t. split; [lia|done].
  - destruct (Nat.leb_spec 128 (S bufferN)) as [Hfull|Hfull].
    + injection Hrun as <- <- <- <-. destruct (decide (k' = k)) as [Heq|Hne].
      * rewrite <- (Hsame Heq). right. left. exists bufferN. split; [lia|].
        apply list_lookup_insert_eq. lia.
      * left. by apply Hother.
    + assert (Hlen1 : length (<[bufferN:=com]> buffer) = 128%nat)
        by by rewrite length_insert.
      destruct (decide (k' = k)) as [Heq|Hne].
      * rewrite <- (Hsame Heq). right. left. exists bufferN.
        destruct (backlog_collect_inv _ _ _ _ _ _ _ _ _ _ Hkeyed1 Hlen1 Hfull Hrun)
          as (_ & _ & Hrange & Hold & _).
        split; [lia|]. rewrite Hold by lia. apply list_lookup_insert_eq. lia.
      * destruct (IH _ _ _ _ _ _ _ _ k c Hkeyed1 Hlen1 Hfull Hrun (Hother Hne))
          as [?|[(j & Hj & Hb)|(t & Ht & He)]]; [by left| |].
        -- right. left. exists j. split; [lia|done].
        -- right. right. exists t. split; [lia|done].
Qed.

(** A key the walk reaches before the buffer is full is gone after the
    first loop, whatever it held. *)
Lemma backlog_collect_reached now t0 k post : ∀ pre tick backlog buffer bufferN,
  backlog_keyed backlog → length buffer = 128%nat →
  (∀ i, t0 ≤ now i) →
  (bufferN + count_unexpired t0 backlog pre < 128)%nat →
  (backlog_collect (Fragment := Fragment) now (pre ++ k :: post) tick
     backlog buffer bufferN).1.1.1 !! k = None.
Proof.
  assert (Hhere : ∀ rest tick backlog buffer bufferN,
    backlog_keyed backlog → length buffer = 128%nat → (bufferN < 128)%nat →
    (backlog_collect (Fragment := Fragment) now (k :: rest) tick
       backlog buffer bufferN).1.1.1 !! k = None).
  { intros rest tick backlog buffer bufferN Hkeyed Hlen Hn.
    destruct (backlog_collect now (k :: rest) tick backlog buffer bufferN)
      as [[[b1 buf1] n1] tr1] eqn:Hrun. simpl.
    cbn [backlog_collect] in Hrun.
    destruct (backlog !! k) as [com|] eqn:Hk.
    2:{ apply backlog_collect_inv in Hrun as (Hsub & _); [|done..].
        by eapply lookup_weaken_None. }
    rewrite (Hkeyed _ _ Hk) in Hrun.
    assert (Hdel : ∀ tick' buffer' bufferN' b2 buf2 n2 tr2,
      length buffer' = 128%nat → (bufferN' < 128)%nat →
      backlog_collect (Fragment := Fragment) now rest tick' (delete k backlog)
        buffer' bufferN' = (b2, buf2, n2, tr2) → b2 !! k = None).
    { intros ??????? Hl Hb Hr.
      apply backlog_collect_inv in Hr as (Hsub & _);
        [|by apply backlog_keyed_delete|done..].
      eapply lookup_weaken_None; [|done]. apply lookup_delete_eq. }
    destruct (Before _ _).
    - destruct (backlog_collect now rest (S tick) (delete k backlog) buffer bufferN)
        as [[[b2 buf2] n2] tr2] eqn:Hrec. simplify_eq. by eapply Hdel.
    - destruct (Nat.leb_spec 128 (S bufferN)).
      + simplify_eq. apply lookup_delete_eq.
      + eapply Hdel; [| |done]; [by rewrite length_insert|done]. }
  induction pre as [|k' pre IH];
    intros tick backlog buffer bufferN Hkeyed Hlen Hclock Hcount.
  { apply Hhere; try done. lia. }
  simpl in Hcount.
  destruct (decide (k' = k)) as [->|Hne].
  { change ((k :: pre) ++ k :: post) with (k :: (pre ++ k :: post)).
    apply Hhere; try done. lia. }
  change ((k' :: pre) ++ k :: post) with (k' :: (pre ++ k :: post)).
  cbn [backlog_collect].
  destruct (backlog !! k') as [com'|] eqn:Hk'.
  2:{ apply IH; try done. }
  rewrite (Hkeyed _ _ Hk').
  pose proof (count_unexpired_delete t0 backlog k' pre) as Hmono.
  fold (expired (now tick) com').
  destruct (expired (now tick) com') eqn:Hexp'.
  - pose proof (IH (S tick) (delete k' backlog) buffer bufferN) as IH'.
    destruct (backlog_collect now (pre ++ k :: post) (S tick) (delete k' backlog)
                buffer bufferN) as [[[b1 buf1] n1] tr1].
    simpl in *. apply IH'; try done; [by apply backlog_keyed_delete|lia].
  - assert (expired t0 com' = false) as Hexp0.
    { destruct (expired t0 com') eqn:E; [|done].
      by rewrite (expired_mono t0 (now tick) com' (Hclock tick) E) in Hexp'. }
    rewrite Hexp0 in Hcount.
    destruct (Nat.leb_spec 128 (S bufferN)) as [Hfull|Hfull]; [lia|].
    apply IH; try done.
    + by apply backlog_keyed_delete.
    + by rewrite length_insert.
    + lia.
Qed.

(** What the Matcher is handed for a buffered Computation is part of what
    the second loop does. *)
Lemma backlog_retry_effects ξ buffer : ∀ todo i backlog j e,
  (i ≤ j < i + todo)%nat →
  e ∈ (sendComputationToMatcher ξ (buffer !!! j)).2 →
  e ∈ (backlog_retry ξ buffer i todo backlog).2.
Proof.
  induction todo as [|todo IH]; intros i backlog j e Hj He; cbn [backlog_retry]; [lia|].
  destruct (decide (j = i)) as [->|Hne].
  - destruct (sendComputationToMatcher ξ (buffer !!! i)) as [err tr].
    simpl in He.
    destruct err; destruct (backlog_retry ξ buffer (S i) todo _); simpl;
      apply elem_of_cons; right; apply elem_of_app; by left.
  - assert (∀ b, e ∈ (backlog_retry ξ buffer (S i) todo b).2) as Hrec.
    { intros b. apply (IH (S i) b j); [lia|done]. }
    destruct (sendComputationToMatcher ξ (buffer !!! i)) as [[err|] tr].
    + specialize (Hrec (<[ID (buffer !!! i) := buffer !!! i]> backlog)).
      destruct (backlog_retry ξ buffer (S i) todo _); simpl in *.
      apply elem_of_cons; right. apply elem_of_app; right.
      apply elem_of_cons; by right.
    + specialize (Hrec backlog).
      destruct (backlog_retry ξ buffer (S i) todo _); simpl in *.
      apply elem_of_cons; right. apply elem_of_app; by right.
Qed.

End SweepFacts.

Section SweepTheorems.
Context {Fragment : Type} {storer : Storer Fragment}.

Lemma syncOrderFragmentBacklog_subseteq
    (now : nat → Time) (visit : list (list byte)) (ξ : Hash32) (o : ome) :
  backlog_keyed (computationBacklog o) →
  computationBacklog (syncOrderFragmentBacklog now visit ξ o).1 ⊆ computationBacklog o.
Proof.
  intros Hkeyed.
  unfold syncOrderFragmentBacklog.
  destruct (backlog_collect now visit 0 (computationBacklog o)
              (replicate 128 zeroComputation) 0) as [[[b1 buf] n] tr1] eqn:Hc.
  apply backlog_collect_inv in Hc as (Hsub & Hlen & Hn & _ & Hnew);
    [|done|by rewrite length_replicate|lia].
  apply map_subseteq_spec. intros k c Hk.
  pose proof (backlog_retry_lookup ξ buf k n 0 b1) as Hr.
  destruct (backlog_retry ξ buf 0 n b1) as [b2 tr2]. simpl in *.
  destruct Hr as [[Heq _]|(j & Hj & Hid & _ & Hlook)].
  - rewrite Heq in Hk. by eapply lookup_weaken.
  - rewrite Hlook in Hk. simplify_eq.
    destruct (Hnew j (buf !!! j)) as (Hin & _); [lia| |done].
    apply list_lookup_lookup_total_lt. lia.
Qed.

(** A sweep never adds an entry and never changes one: what the backlog
    holds afterwards it held before, under the same key. The backlog does
    not grow. *)
Theorem syncOrderFragmentBacklog_shrinks
    (now : nat → Time) (visit : list (list byte)) (ξ : Hash32) (o : ome) :
  backlog_keyed (computationBacklog o) →
  computationBacklog (syncOrderFragmentBacklog now visit ξ o).1 ⊆ computationBacklog o ∧
  (size (computationBacklog (syncOrderFragmentBacklog now visit ξ o).1)
    ≤ size (computationBacklog o))%nat.
Proof.
  intros Hkeyed.
  pose proof (syncOrderFragmentBacklog_subseteq now visit ξ o Hkeyed) as Hsub.
  split; [done|]. by apply map_subseteq_size.
Qed.

Lemma backlog_collect_trace (now : nat → Time) :
  ∀ visit tick backlog buffer bufferN,
    retry_logs (Fragment := Fragment)
      (backlog_collect now visit tick backlog buffer bufferN).2 = [] ∧
    resolves (Fragment := Fragment)
      (backlog_collect now visit tick backlog buffer bufferN).2 = [].
Proof.
  induction visit as [|k visit IH]; intros tick backlog buffer bufferN;
    cbn [backlog_collect]; [done|].
  destruct (backlog !! k) as [com|]; [|apply IH].
  destruct (Before _ _).
  - specialize (IH (S tick) (delete (ID com) backlog) buffer bufferN).
    by destruct (backlog_collect now visit (S tick) (delete (ID com) backlog)
                   buffer bufferN) as [[[b1 buf] n] tr].
  - destruct (128 <=? S bufferN)%nat; [done|apply IH].
Qed.

Lemma backlog_retry_trace (ξ : Hash32) (buffer : list Computation) :
  ∀ todo i backlog,
    retry_logs (backlog_retry ξ buffer i todo backlog).2
      = (λ j, (Buy (buffer !!! j), Sell (buffer !!! j))) <$> seq i todo ∧
    resolves (backlog_retry ξ buffer i todo backlog).2
      = omap (λ j, resolution ξ (buffer !!! j)) (seq i todo).
Proof.
  induction todo as [|todo IH]; intros i backlog; [done|].
  cbn [backlog_retry seq fmap list_fmap omap list_omap].
  unfold sendComputationToMatcher.
  destruct (OrderFragment (Buy (buffer !!! i))) as [bf|err] eqn:Hb.
  - destruct (OrderFragment (Sell (buffer !!! i))) as [sf|err] eqn:Hs.
    + assert (resolution ξ (buffer !!! i) = Some (ξ, buffer !!! i, bf, sf)) as ->.
      { unfold resolution. by rewrite Hb, Hs. }
      destruct (IH (S i) backlog) as [IH1 IH2].
      destruct (backlog_retry ξ buffer (S i) todo backlog) as [b' tr'].
      cbn [snd] in *. rewrite <- IH1, <- IH2. by split.
    + assert (resolution ξ (buffer !!! i) = None) as ->.
      { unfold resolution. by rewrite Hb, Hs. }
      destruct (IH (S i) (<[ID (buffer !!! i) := buffer !!! i]> backlog)) as [IH1 IH2].
      destruct (backlog_retry ξ buffer (S i) todo _) as [b' tr'].
      cbn [snd] in *. rewrite <- IH1, <- IH2. by split.
  - assert (resolution ξ (buffer !!! i) = None) as ->.
    { unfold resolution. by rewrite Hb. }
    destruct (IH (S i) (<[ID (buffer !!! i) := buffer !!! i]> backlog)) as [IH1 IH2].
    destruct (backlog_retry ξ buffer (S i) todo _) as [b' tr'].
    cbn [snd] in *. rewrite <- IH1, <- IH2. by split.
Qed.

Lemma take_lookup_total (l : list Computation) :
  ∀ n, (n ≤ length l)%nat → take n l = (λ j, l !!! j) <$> seq 0 n.
Proof.
  induction n as [|n IH]; intros Hn; [done|].
  destruct (lookup_lt_is_Some_2 l n) as [x Hx]; [lia|].
  rewrite (take_S_r _ _ _ Hx), IH by lia.
  rewrite seq_S, fmap_app. simpl.
  by rewrite (list_lookup_total_correct _ _ _ Hx).
Qed.

(** A sweep retries what its first loop put into the buffer, each
    Computation once and in the order of the buffer: the trace has one
    [retrying] line per buffered Computation, and [matcher.Resolve] is
    called, under the hash of the sweep and with the fragments the Storer
    has, for exactly those of them whose two fragments are available. They
    are at most 128, no Computation is among them twice, each sat in the
    backlog under its ID and was found not expired at a reading of the
    clock; when the clock does not run backwards, none of them was expired
    when the sweep began. *)
Theorem syncOrderFragmentBacklog_batch
    (now : nat → Time) (visit : list (list byte)) (ξ : Hash32) (o : ome) :
  backlog_keyed (computationBacklog o) →
  let retried := backlog_retried (Fragment := Fragment) now visit o in
  let tr := (syncOrderFragmentBacklog now visit ξ o).2 in
  retry_logs tr = (λ com, (Buy com, Sell com)) <$> retried ∧
  resolves tr = omap (resolution ξ) retried ∧
  (length retried ≤ 128)%nat ∧
  NoDup retried ∧
  (∀ com, com ∈ retried →
     computationBacklog o !! ID com = Some com ∧
     ∃ t, expired (now t) com = false) ∧
  (∀ t0 com, (∀ i, t0 ≤ now i) → com ∈ retried → expired t0 com = false).
Proof.
  intros Hkeyed. unfold backlog_retried, syncOrderFragmentBacklog.
  pose proof (backlog_collect_trace now visit 0 (computationBacklog o)
                (replicate 128 zeroComputation) 0) as [Hlogs1 Hres1].
  destruct (backlog_collect now visit 0 (computationBacklog o)
              (replicate 128 zeroComputation) 0) as [[[b1 buf] n] tr1] eqn:Hc.
  pose proof Hc as Hc'.
  apply backlog_collect_inv in Hc as (Hsub & Hlen & Hn & _ & Hnew);
    [|done|by rewrite length_replicate|lia].
  apply backlog_collect_NoDup in Hc' as [Hnd _];
    [|done|by rewrite length_replicate|lia|by rewrite take_0; constructor|
     by rewrite take_0; intros ? ?%elem_of_nil].
  pose proof (backlog_retry_trace ξ buf n 0 b1) as [Hlogs2 Hres2].
  destruct (backlog_retry ξ buf 0 n b1) as [b2 tr2].
  cbn [fst snd] in *.
  assert (Hfound : ∀ com, com ∈ take n buf →
            computationBacklog o !! ID com = Some com ∧
            ∃ t, expired (now t) com = false).
  { intros com (j & Hj & Hlt)%elem_of_take.
    destruct (Hnew j com) as (Hin & _ & t & _ & Ht); [lia|done|]. eauto. }
  split_and!.
  - unfold retry_logs in *. rewrite omap_app, Hlogs1, Hlogs2. simpl.
    rewrite take_lookup_total by lia. by rewrite <- list_fmap_compose.
  - unfold resolves in *. rewrite omap_app, Hres1, Hres2. simpl.
    rewrite take_lookup_total by lia. clear.
    induction (seq 0 n) as [|j l IH]; [done|]. csimpl. by rewrite IH.
  - rewrite length_take. lia.
  - done.
  - done.
  - intros t0 com Hclock Hin.
    destruct (Hfound com Hin) as (_ & t & Ht).
    destruct (expired t0 com) eqn:Hexp; [|done].
    by rewrite (expired_mono t0 (now t) com (Hclock t) Hexp) in Ht.
Qed.

(** A Computation in the backlog that never expires during the sweep,
    that the sweep reaches before its buffer is full, and whose two
    fragments the Storer now has, is handed to the Matcher under the hash
    of the sweep and is gone from the backlog afterwards. *)
Theorem syncOrderFragmentBacklog_resolves
    (now : nat → Time) (visit pre post : list (list byte)) (ξ : Hash32)
    (o : ome) (t0 : Time) (com : Computation) (buyFragment sellFragment : Fragment) :
  backlog_keyed (computationBacklog o) →
  (∀ i, t0 ≤ now i) →
  computationBacklog o !! ID com = Some com →
  (∀ i, expired (now i) com = false) →
  visit = pre ++ ID com :: post →
  (count_unexpired t0 (computationBacklog o) pre < 128)%nat →
  OrderFragment (Buy com) = inl buyFragment →
  OrderFragment (Sell com) = inl sellFragment →
  EResolve ξ com buyFragment sellFragment ∈ (syncOrderFragmentBacklog now visit ξ o).2 ∧
  computationBacklog (syncOrderFragmentBacklog now visit ξ o).1 !! ID com = None.
Proof.
  intros Hkeyed Hclock Hin Hfresh -> Hcount Hbuy Hsell.
  pose proof (backlog_collect_reached (Fragment := Fragment) now t0 (ID com) post pre 0
                (computationBacklog o) (replicate 128 zeroComputation) 0
                Hkeyed (length_replicate _ _) Hclock Hcount) as Hgone.
  unfold syncOrderFragmentBacklog.
  destruct (backlog_collect now (pre ++ ID com :: post) 0 (computationBacklog o)
              (replicate 128 zeroComputation) 0) as [[[b1 buf] n] tr1] eqn:Hc.
  simpl in Hgone.
  pose proof Hc as Hfate.
  apply (backlog_collect_fate _ _ _ _ _ _ _ _ _ _ (ID com) com) in Hfate;
    [|done|by rewrite length_replicate|lia|done].
  apply backlog_collect_inv in Hc as (Hsub & Hlen & Hn & _ & Hnew);
    [|done|by rewrite length_replicate|lia].
  destruct Hfate as [Hstay|[(j & Hj & Hbuf)|(t & _ & Ht)]];
    [congruence| |by rewrite Hfresh in Ht].
  assert (Hsend : sendComputationToMatcher ξ com =
                  (None, [ELog (LogResolving (Buy com) (Sell com));
                          EResolve ξ com buyFragment sellFragment])).
  { unfold sendComputationToMatcher. by rewrite Hbuy, Hsell. }
  pose proof (list_lookup_total_correct _ _ _ Hbuf) as Htot.
  split.
  - pose proof (backlog_retry_effects ξ buf n 0 b1 j
                  (EResolve ξ com buyFragment sellFragment)) as He.
    destruct (backlog_retry ξ buf 0 n b1) as [b2 tr2]. simpl in *.
    apply elem_of_app. right. apply He; [lia|].
    rewrite Htot, Hsend. simpl. apply elem_of_cons. right. by left.
  - pose proof (backlog_retry_lookup ξ buf (ID com) n 0 b1) as Hr.
    destruct (backlog_retry ξ buf 0 n b1) as [b2 tr2]. simpl in *.
    destruct Hr as [[Heq _]|(j' & Hj' & Hid & Hfail & _)]; [by rewrite Heq|].
    exfalso.
    destruct (Hnew j' (buf !!! j')) as (Hin' & _); [lia| |].
    { apply list_lookup_lookup_total_lt. lia. }
    rewrite Hid, Hin in Hin'. injection Hin' as Heq. rewrite <- Heq, Hsend in Hfail.
    by destruct Hfail.
Qed.

(** A sweep loses nothing: an entry of the backlog is still there,
    unchanged, after the sweep, unless the sweep found it expired or retried
    it with success; then the key is free. *)
Theorem syncOrderFragmentBacklog_removes_only
    (now : nat → Time) (visit : list (list byte)) (ξ : Hash32)
    (o : ome) (k : list byte) (com : Computation) :
  backlog_keyed (computationBacklog o) →
  computationBacklog o !! k = Some com →
  computationBacklog (syncOrderFragmentBacklog now visit ξ o).1 !! k = Some com
  ∨ (computationBacklog (syncOrderFragmentBacklog now visit ξ o).1 !! k = None ∧
     ((∃ t, expired (now t) com = true) ∨
      (com ∈ backlog_retried (Fragment := Fragment) now visit o ∧
       (sendComputationToMatcher ξ com).1 = None))).
Proof.
  intros Hkeyed Hin.
  pose proof (syncOrderFragmentBacklog_subseteq now visit ξ o Hkeyed) as Hsub.
  destruct (computationBacklog (syncOrderFragmentBacklog now visit ξ o).1 !! k)
    as [c|] eqn:Hafter.
  { left. pose proof (lookup_weaken _ _ _ _ Hafter Hsub). congruence. }
  right. split; [done|].
  unfold syncOrderFragmentBacklog, backlog_retried in *.
  destruct (backlog_collect now visit 0 (computationBacklog o)
              (replicate 128 zeroComputation) 0) as [[[b1 buf] n] tr1] eqn:Hc.
  pose proof Hc as Hfate.
  apply (backlog_collect_fate _ _ _ _ _ _ _ _ _ _ k com) in Hfate;
    [|done|by rewrite length_replicate|lia|done].
  pose proof (backlog_retry_lookup ξ buf k n 0 b1) as Hr.
  destruct (backlog_retry ξ buf 0 n b1) as [b2 tr2]. simpl in *.
  destruct Hr as [[Heq Hnone]|(j' & _ & _ & _ & Hlook)]; [|congruence].
  destruct Hfate as [Hstay|[(j & Hj & Hbuf)|(t & _ & Ht)]];
    [congruence| |by left; eauto].
  right. split.
  - apply elem_of_take. exists j. split; [done|lia].
  - rewrite <- (list_lookup_total_correct _ _ _ Hbuf).
    apply Hnone; [lia|]. rewrite (list_lookup_total_correct _ _ _ Hbuf).
    by apply Hkeyed.
Qed.

End SweepTheorems.

Lemma syncOrderFragmentBacklog_shrinks_witness :
  (size (computationBacklog
          (syncOrderFragmentBacklog (storer := exStorer) (λ _, exStart)
             [exID 1; exID 2] zero32 (exOme [exFresh 1; exStale 2])).1)
  ≤ size (computationBacklog (exOme [exFresh 1; exStale 2])))%nat.
Proof.
  apply (syncOrderFragmentBacklog_shrinks (storer := exStorer) (λ _, exStart)
           [exID 1; exID 2] zero32 (exOme [exFresh 1; exStale 2])).
  apply backlog_of_keyed.
Defined.

Lemma syncOrderFragmentBacklog_batch_witness :
  resolves (syncOrderFragmentBacklog (storer := exStorer) (λ _, exStart)
              [exID 1; exID 2] zero32 (exOme [exFresh 1; exStale 2])).2
  = omap (resolution (storer := exStorer) zero32)
         (backlog_retried (Fragment := unit) (λ _, exStart) [exID 1; exID 2]
            (exOme [exFresh 1; exStale 2])).
Proof.
  apply (syncOrderFragmentBacklog_batch (storer := exStorer) (λ _, exStart)
           [exID 1; exID 2] zero32 (exOme [exFresh 1; exStale 2])).
  apply backlog_of_keyed.
Defined.

Lemma syncOrderFragmentBacklog_resolves_witness :
  computationBacklog
    (syncOrderFragmentBacklog (storer := {| OrderFragment _ := inl tt |})
       (λ _, exStart) [exID 1; exID 7] zero32 (exOme [exFresh 1; exFresh 7])).1
    !! exID 7 = None.
Proof.
  apply (syncOrderFragmentBacklog_resolves (storer := {| OrderFragment _ := inl tt |})
           (λ _, exStart) [exID 1; exID 7] [exID 1] [] zero32
           (exOme [exFresh 1; exFresh 7]) exStart (exFresh 7) tt tt).
  - apply backlog_of_keyed.
  - intros i. apply Z.le_refl.
  - vm_compute. reflexivity.
  - intros i. reflexivity.
  - reflexivity.
  - vm_compute. lia.
  - reflexivity.
  - reflexivity.
Defined.

Lemma syncOrderFragmentBacklog_removes_only_witness :
  computationBacklog
    (syncOrderFragmentBacklog (storer := exStorer) (λ _, exStart)
       [exID 1; exID 2] zero32 (exOme [exFresh 1; exStale 2])).1
    !! exID 2 = None.
Proof.
  destruct (syncOrderFragmentBacklog_removes_only (storer := exStorer) (λ _, exStart)
              [exID 1; exID 2] zero32 (exOme [exFresh 1; exStale 2])
              (exID 2) (exStale 2)) as [Hstay|[Hgone _]].
  - apply backlog_of_keyed.
  - vm_compute. reflexivity.
  - vm_compute in Hstay. discriminate.
  - exact Hgone.
Defined.

Section EpochFacts.
Context {Fragment : Type} {storer : Storer Fragment} {settler : Settler} {ranker : Ranker}.

Lemma hashed_nil (ξ : Hash32) : hashed (Fragment := Fragment) ξ [].
Proof. intros e h Hin. by apply elem_of_nil in Hin. Qed.

Lemma hashed_app (ξ : Hash32) (tr1 tr2 : list (Effect Fragment)) :
  hashed ξ tr1 → hashed ξ tr2 → hashed ξ (tr1 ++ tr2).
Proof.
  intros H1 H2 e h [Hin|Hin]%elem_of_app; [by apply H1|by apply H2].
Qed.

Lemma hashed_cons (ξ : Hash32) (e : Effect Fragment) (tr : list (Effect Fragment)) :
  (∀ h, effect_hash e = Some h → h = ξ) → hashed ξ tr → hashed ξ (e :: tr).
Proof.
  intros He Htr e' h [->|Hin]%elem_of_cons; [by apply He|by apply Htr].
Qed.

Lemma sendComputationToMatcher_hashed (ξ : Hash32) (com : Computation) :
  hashed ξ (sendComputationToMatcher ξ com).2.
Proof.
  unfold sendComputationToMatcher.
  destruct (OrderFragment (Buy com)); [|apply hashed_nil].
  destruct (OrderFragment (Sell com)); [|apply hashed_nil].
  simpl. apply hashed_cons; [done|]. apply hashed_cons; [|apply hashed_nil].
  simpl. congruence.
Qed.

Lemma sendComputationToSettler_hashed (ξ : Hash32) (com : Computation) :
  hashed (Fragment := Fragment) ξ (sendComputationToSettler ξ com).
Proof.
  unfold sendComputationToSettler.
  apply hashed_cons; [done|]. apply hashed_cons; [simpl; congruence|].
  destruct (Settle ξ com); [|apply hashed_nil].
  apply hashed_cons; [done|apply hashed_nil].
Qed.

Lemma syncRanker_body_hashed (ξ : Hash32) (com : Computation)
    (backlog : gmap (list byte) Computation) :
  hashed ξ (syncRanker_body ξ com backlog).2.
Proof.
  unfold syncRanker_body.
  destruct (State com =? ComputationStateNil).
  { pose proof (sendComputationToMatcher_hashed ξ com) as Hm.
    by destruct (sendComputationToMatcher ξ com) as [[err|] tr]. }
  destruct (State com =? ComputationStateMatched).
  { simpl. apply hashed_cons; [done|apply hashed_nil]. }
  destruct (State com =? ComputationStateAccepted).
  { apply sendComputationToSettler_hashed. }
  simpl. apply hashed_cons; [done|apply hashed_nil].
Qed.

Lemma syncRanker_loop_hashed (ξ : Hash32) (buffer : list Computation) :
  ∀ todo i backlog backlog' tr,
    syncRanker_loop ξ buffer i todo backlog = Some (backlog', tr) → hashed ξ tr.
Proof.
  induction todo as [|todo IH]; intros i backlog backlog' tr Hrun; simpl in Hrun.
  { simplify_eq. apply hashed_nil. }
  destruct (buffer !! i) as [com|]; [|done].
  pose proof (syncRanker_body_hashed ξ com backlog) as Hbody.
  destruct (syncRanker_body ξ com backlog) as [b1 tr1].
  destruct (syncRanker_loop ξ buffer (S i) todo b1) as [[b2 tr2]|] eqn:Hrest; [|done].
  simplify_eq. apply hashed_app; [done|by eapply IH].
Qed.

Lemma backlog_collect_hashed (ξ : Hash32) (now : nat → Time) :
  ∀ visit tick backlog buffer bufferN,
    hashed (Fragment := Fragment) ξ
      (backlog_collect now visit tick backlog buffer bufferN).2.
Proof.
  induction visit as [|k visit IH]; intros tick backlog buffer bufferN;
    cbn [backlog_collect]; [apply hashed_nil|].
  destruct (backlog !! k) as [com|]; [|apply IH].
  destruct (Before _ _).
  - specialize (IH (S tick) (delete (ID com) backlog) buffer bufferN).
    destruct (backlog_collect now visit (S tick) (delete (ID com) backlog) buffer bufferN)
      as [[[b1 buf] n] tr].
    simpl in *. apply hashed_cons; [done|done].
  - destruct (128 <=? S bufferN)%nat; [apply hashed_nil|apply IH].
Qed.

Lemma backlog_retry_hashed (ξ : Hash32) (buffer : list Computation) :
  ∀ todo i backlog, hashed ξ (backlog_retry ξ buffer i todo backlog).2.
Proof.
  induction todo as [|todo IH]; intros i backlog; simpl; [apply hashed_nil|].
  pose proof (sendComputationToMatcher_hashed ξ (buffer !!! i)) as Hm.
  destruct (sendComputationToMatcher ξ (buffer !!! i)) as [err tr].
  destruct err as [err|].
  - specialize (IH (S i) (<[ID (buffer !!! i) := buffer !!! i]> backlog)).
    destruct (backlog_retry ξ buffer (S i) todo _) as [b' tr'].
    simpl in *. apply hashed_cons; [done|]. apply hashed_app; [done|].
    apply hashed_cons; [done|done].
  - specialize (IH (S i) backlog).
    destruct (backlog_retry ξ buffer (S i) todo _) as [b' tr'].
    simpl in *. apply hashed_cons; [done|]. by apply hashed_app.
Qed.

Lemma syncOrderFragmentBacklog_hashed (now : nat → Time) (visit : list (list byte))
    (ξ : Hash32) (o : ome) :
  hashed ξ (syncOrderFragmentBacklog now visit ξ o).2.
Proof.
  unfold syncOrderFragmentBacklog.
  pose proof (backlog_collect_hashed ξ now visit 0 (computationBacklog o)
                (replicate 128 zeroComputation) 0) as Hc.
  destruct (backlog_collect now visit 0 (computationBacklog o)
              (replicate 128 zeroComputation) 0) as [[[b1 buf] n] tr1].
  pose proof (backlog_retry_hashed ξ buf n 0 b1) as Hr.
  destruct (backlog_retry ξ buf 0 n b1) as [b2 tr2].
  simpl in *. by apply hashed_app.
Qed.

(** A change of epoch leaves the backlog as it is and moves all later
    work to the new epoch: the next pass over the Ranker and the next
    backlog turn resolve and settle under the new hash only, also the
    Computations that entered the backlog under the old one; neither of
    them changes the epoch. *)
Theorem OnChangeEpoch_rehashes (o : ome) (e : Epoch) :
  computationBacklog (OnChangeEpoch o e) = computationBacklog o ∧
  (∀ o' tr wait, syncRanker (OnChangeEpoch o e) = Some (o', tr, wait) →
     hashed (Hash e) tr ∧ ξ o' = e) ∧
  (∀ now visit,
     hashed (Hash e) (Run_backlog_tick now visit (OnChangeEpoch o e)).2 ∧
     ξ (Run_backlog_tick now visit (OnChangeEpoch o e)).1 = e).
Proof.
  split_and!; [done| |].
  - intros o' tr wait Hrun. unfold syncRanker in Hrun.
    destruct (Computations syncRanker_buffer) as [buffer n].
    destruct (syncRanker_loop _ buffer 0 (Z.to_nat n) _) as [[b tr']|] eqn:Hloop; [|done].
    simplify_eq. split; [|done]. by eapply syncRanker_loop_hashed.
  - intros now visit. split.
    + apply syncOrderFragmentBacklog_hashed.
    + unfold Run_backlog_tick, syncOrderFragmentBacklog.
      destruct (backlog_collect _ _ _ _ _ _) as [[[b1 buf] n] tr1].
      by destruct (backlog_retry _ _ _ _ _) as [b2 tr2].
Qed.

End EpochFacts.

Section ConfirmerFacts.
Context {Fragment : Type} {storer : Storer Fragment} {settler : Settler}.

Lemma effects_of_app (tr1 tr2 : list (Effect Fragment + Error)) :
  effects_of (tr1 ++ tr2) = effects_of tr1 ++ effects_of tr2.
Proof. apply omap_app. Qed.

Lemma forwarded_app (tr1 tr2 : list (Effect Fragment + Error)) :
  forwarded (tr1 ++ tr2) = forwarded tr1 ++ forwarded tr2.
Proof. apply omap_app. Qed.

Lemma effects_of_inl (tr : list (Effect Fragment)) :
  effects_of (inl <$> tr) = tr.
Proof. induction tr as [|e tr IH]; simpl; [done|]. unfold effects_of in *. simpl. by f_equal. Qed.

Lemma forwarded_inl (tr : list (Effect Fragment)) :
  forwarded (inl <$> tr) = [].
Proof. induction tr as [|e tr IH]; [done|]. unfold forwarded in *. by simpl. Qed.

Lemma settled_sendComputationToSettler (ξ : Hash32) (com : Computation) :
  settled (Fragment := Fragment) (sendComputationToSettler ξ com) = [com].
Proof.
  unfold sendComputationToSettler, settled. simpl. by destruct (Settle ξ com).
Qed.

Lemma settled_app (tr1 tr2 : list (Effect Fragment)) :
  settled (tr1 ++ tr2) = settled tr1 ++ settled tr2.
Proof. apply omap_app. Qed.

(** The Confirmer loop returns at the first turn on which [done] is
    closed or one of the two channels of the Confirmer is found closed:
    nothing that arrives later is settled or forwarded. *)
Theorem syncConfirmerToSettler_stops
    (o : ome) (pre post : list Arrival) (a : Arrival) :
  stops a = true →
  syncConfirmerToSettler (Fragment := Fragment) o (pre ++ a :: post)
  = syncConfirmerToSettler o pre.
Proof.
  intros Hstop. revert o.
  induction pre as [|b pre IH]; intros o; simpl.
  { by destruct a. }
  destruct b; try done; by rewrite IH.
Qed.

(** Until it stops, the Confirmer loop hands every confirmation to the
    Settler and offers every error of the Confirmer to [errs] (in the
    [select] that also listens on [done]), each once and in the order of
    arrival, whether or not the Settler fails; it leaves the backlog
    alone. *)
Theorem syncConfirmerToSettler_forwards (o : ome) (arrivals : list Arrival) :
  Forall (λ a, stops a = false) arrivals →
  settled (effects_of (syncConfirmerToSettler (Fragment := Fragment) o arrivals).2)
    = confirmations_of arrivals ∧
  forwarded (syncConfirmerToSettler (Fragment := Fragment) o arrivals).2
    = errs_of arrivals ∧
  computationBacklog (syncConfirmerToSettler (Fragment := Fragment) o arrivals).1
    = computationBacklog o.
Proof.
  intros Hall. revert o.
  induction Hall as [|a arrivals Ha Hall IH]; intros o; [done|].
  destruct a; try done; cbn [syncConfirmerToSettler].
  - specialize (IH o).
    destruct (syncConfirmerToSettler o arrivals) as [o' tr].
    cbn [fst snd] in *.
    destruct IH as (IH1 & IH2 & IH3). split_and!; [| |done].
    + rewrite effects_of_app, effects_of_inl, settled_app,
        settled_sendComputationToSettler, IH1. done.
    + rewrite forwarded_app, forwarded_inl, IH2. done.
  - specialize (IH o).
    destruct (syncConfirmerToSettler o arrivals) as [o' tr].
    cbn [fst snd] in *.
    destruct IH as (IH1 & IH2 & IH3). split_and!; [done| |done].
    unfold forwarded, errs_of in *. simpl. by f_equal.
  - apply (IH (OnChangeEpoch o e)).
Qed.

End ConfirmerFacts.

Lemma syncConfirmerToSettler_stops_witness :
  syncConfirmerToSettler (Fragment := unit) (settler := exSettler)
    (exOme []) ([ArrConfirmation (exFresh 1)] ++ ArrErrsClosed :: [ArrConfirmation (exFresh 2)])
  = syncConfirmerToSettler (settler := exSettler) (exOme []) [ArrConfirmation (exFresh 1)].
Proof.
  apply (syncConfirmerToSettler_stops (Fragment := unit) (settler := exSettler)
           (exOme []) [ArrConfirmation (exFresh 1)] [ArrConfirmation (exFresh 2)]
           ArrErrsClosed).
  reflexivity.
Defined.

Lemma syncConfirmerToSettler_forwards_witness :
  settled (effects_of (syncConfirmerToSettler (Fragment := unit)
             (settler := {| Settle _ _ := Some "cannot settle"%string |})
             (exOme []) [ArrConfirmation (exFresh 1); ArrErr "lost"%string;
                         ArrConfirmation (exFresh 2)]).2)
  = [exFresh 1; exFresh 2].
Proof.
  apply (syncConfirmerToSettler_forwards (Fragment := unit)
           (settler := {| Settle _ _ := Some "cannot settle"%string |})
           (exOme []) [ArrConfirmation (exFresh 1); ArrErr "lost"%string;
                       ArrConfirmation (exFresh 2)]).
  repeat constructor.
Defined.

Section ReachFacts.
Context {Fragment : Type} {storer : Storer Fragment} {settler : Settler}.

(** The backlog only ever holds Computations that wait for a fragment,
    each under its own ID: whatever the Ranker hands over, whatever the
    epochs, the sweeps and their order, an entry of the backlog is in state
    Nil and sits under the ID it carries. *)
Theorem ome_backlog_invariant (o : ome) :
  ome_reachable o →
  ∀ k com, computationBacklog o !! k = Some com →
    ID com = k ∧ State com = ComputationStateNil.
Proof.
  induction 1 as [|o o' _ IH Hstep].
  { intros k com. unfold NewOme. simpl. by rewrite lookup_empty. }
  destruct Hstep as [o e|o ξ com|o now visit ξ]; [done| |].
  - intros k c. simpl. unfold syncRanker_body.
    destruct (Z.eqb_spec (State com) ComputationStateNil) as [Hnil|_].
    + destruct (sendComputationToMatcher ξ com) as [[err|] tr]; simpl; [|apply IH].
      intros [[<- <-]|[_ Hk]]%lookup_insert_Some; [done|by apply IH].
    + repeat case_match; simpl; apply IH.
  - intros k c Hk. apply IH.
    eapply lookup_weaken; [done|].
    apply syncOrderFragmentBacklog_subseteq. intros k' c' Hk'. by apply IH.
Qed.

End ReachFacts.

Lemma ome_backlog_invariant_witness :
  ID (exFresh 1) = exID 1 ∧ State (exFresh 1) = ComputationStateNil.
Proof.
  apply (ome_backlog_invariant (storer := exStorer) (settler := exSettler)
           (set_backlog NewOme
              (syncRanker_body (storer := exStorer) (settler := exSettler)
                 zero32 (exFresh 1) (computationBacklog NewOme)).1)).
  - eapply ome_reachable_step; [apply ome_reachable_new|].
    apply (ome_step_rank (storer := exStorer) (settler := exSettler) NewOme zero32
             (exFresh 1)).
  - vm_compute. reflexivity.
Defined.

Lemma syncRanker_overrun_witness :
  syncRanker (Fragment := unit) (storer := exStorer) (settler := exSettler)
    (ranker := {| Computations buffer := (buffer, 129) |}) (exOme []) = None.
Proof.
  apply (syncRanker_overrun (Fragment := unit) (storer := exStorer)
           (settler := exSettler)
           (ranker := {| Computations buffer := (buffer, 129) |})
           (exOme []) syncRanker_buffer 129).
  - reflexivity.
  - reflexivity.
  - lia.
Defined.

(** Over any run of epoch changes the Smpcer is told, for each change in
    turn, to leave the network of the epoch before it and then to join the
    network of the new one: what one change connects the next one
    disconnects, and the first change disconnects the epoch the Ome held at
    the start, for a new Ome the zero epoch, which nobody connected. The
    backlog is not touched and the Ome ends in the last epoch. *)
Theorem OnChangeEpochs_calls (es : list Epoch) (o : ome) :
  (OnChangeEpochs o es).2 =
    concat (zip_with (λ old e, [Disconnect old; Connect (Hash e) (Darknodes e)])
              (Hash (ξ o) :: (Hash <$> es)) es) ∧
  ξ (OnChangeEpochs o es).1 = default (ξ o) (last es) ∧
  computationBacklog (OnChangeEpochs o es).1 = computationBacklog o.
Proof.
  revert o. induction es as [|e es IH]; intros o; [done|].
  cbn [OnChangeEpochs]. specialize (IH (OnChangeEpoch o e)).
  destruct (OnChangeEpochs (OnChangeEpoch o e) es) as [o' calls].
  cbn [fst snd] in *. destruct IH as (IH1 & IH2 & IH3).
  split_and!.
  - rewrite IH1. done.
  - rewrite IH2. destruct es as [|e' es]; [done|].
    change (last (e :: e' :: es)) with (last (e' :: es)).
    destruct (last (e' :: es)) eqn:Hlast; [done|].
    by apply last_None in Hlast.
  - by rewrite IH3.
Qed.

End OmeFacts.

(** ** Facts: Grpc *)

Module GrpcFacts.
Import Bytes.
Import BytesFacts.
Import Grpc.

Lemma newSafeStream_idle stream h :
  idle (newSafeStream stream h).1 (newSafeStream stream h).2.
Proof.
  unfold idle, newSafeStream; simpl. split_and!.
  - apply lookup_insert_eq.
  - rewrite lookup_insert_ne by lia. apply lookup_insert_eq.
  - apply lookup_insert_eq.
  - lia.
Qed.

(** C4, what the code does. [verifyStreamAddress] returns a nil error for
    every first message, and [Connect] goes on to offer the stream; a
    message with no authentication at all is taken under the empty
    address, though the specification's check fails for it. *)
Theorem verifyStreamAddress_never_rejects {Verifier : Type}
    (keccak256 : list byte → list byte)
    (verify : Address → list byte → list byte → bool)
    (service : StreamService Verifier) :
  (∀ message, (verifyStreamAddress keccak256 service message).2 = None) ∧
  let message := {| Authentication := None; Data := [] |} in
  verifiable keccak256 verify (addr service) message = false ∧
  verifyStreamAddress keccak256 service message = (""%string, None) ∧
  ∀ chans next, ∃ ch,
    Connect_accept keccak256 service chans next (inl message) = Offered "" ch.
Proof.
  split; [done|]. simpl. split_and!; [done..|].
  intros chans next. by eexists.
Qed.

(** C9. On a stream that is idle, the first [Close] returns nil and the
    second one panics on the closed channel [done]. *)
Theorem Close_twice_panics (s : safeStream) (h : Heap) :
  idle s h →
  ∃ h1 h2,
    Close s h = (Go.Returns None, h1) ∧
    Close s h1 = (Go.Panics "close of closed channel", h2).
Proof.
  intros (Hdone & Hsend & Hrecv & Hne).
  assert (Hfirst : ∃ h1, Close s h = (Go.Returns None, h1) ∧
            chans h1 !! done s = Some Go.ChanClosed ∧
            mutexes h1 !! sendMu s = Some false ∧
            mutexes h1 !! recvMu s = Some false).
  { unfold Close, Go.Lock, Go.close_chan, Go.Unlock.
    rewrite Hsend. rewrite lookup_insert_ne by done. rewrite Hrecv, Hdone.
    eexists. split; [done|]. simpl. split_and!.
    - apply lookup_insert_eq.
    - apply lookup_insert_eq.
    - rewrite lookup_insert_ne by done. apply lookup_insert_eq. }
  destruct Hfirst as (h1 & Hclose & Hdone1 & Hsend1 & Hrecv1).
  exists h1. eexists. split; [done|].
  unfold Close, Go.Lock, Go.close_chan, Go.Unlock.
  rewrite Hsend1. rewrite lookup_insert_ne by done. rewrite Hrecv1, Hdone1.
  done.
Qed.

Lemma Close_twice_panics_witness :
  let '(s, h) := newSafeStream 0 {| chans := ∅; mutexes := ∅; next := 0 |} in
  ∃ h1 h2,
    Close s h = (Go.Returns None, h1) ∧
    Close s h1 = (Go.Panics "close of closed channel", h2).
Proof.
  apply (Close_twice_panics
           (newSafeStream 0 {| chans := ∅; mutexes := ∅; next := 0 |}).1
           (newSafeStream 0 {| chans := ∅; mutexes := ∅; next := 0 |}).2).
  apply newSafeStream_idle.
Defined.

(** *** The channel of an address *)

(** [Connect] and [Listen] meet on one channel. Whoever calls [setupConn]
    for an address first makes the channel; a second call for the address
    finds that channel and changes nothing. Other addresses keep what they
    have. *)
Theorem setupConn_shared {Verifier : Type} (service : StreamService Verifier)
    (chans : gmap nat Go.ChanState) (next : nat) (a : Address) :
  let '(ch, service', chans', next') := setupConn service chans next a in
  connsStream service' !! a = Some ch ∧
  setupConn service' chans' next' a = (ch, service', chans', next') ∧
  (∀ b, b ≠ a → connsStream service' !! b = connsStream service !! b) ∧
  (∀ c, c ≠ ch → chans' !! c = chans !! c).
Proof.
  unfold setupConn.
  destruct (connsStream service !! a) as [ch|] eqn:Ha; simpl.
  - by rewrite Ha.
  - rewrite lookup_insert_eq. split_and!; [done..| |].
    + intros b Hb. by rewrite lookup_insert_ne.
    + intros c Hc. by rewrite lookup_insert_ne.
Qed.

(** [teardownConn] forgets the channel of the address, and of that
    address only. The next [setupConn] makes a new channel: a party that
    got the old one before and still waits on it is not met any more. *)
Theorem teardownConn_forgets {Verifier : Type} (service : StreamService Verifier)
    (chans : gmap nat Go.ChanState) (next : nat) (a : Address) (ch : nat) :
  conns_bounded service next →
  connsStream service !! a = Some ch →
  connsStream (teardownConn service a) !! a = None ∧
  (∀ b, b ≠ a →
     connsStream (teardownConn service a) !! b = connsStream service !! b) ∧
  (setupConn (teardownConn service a) chans next a).1.1.1 ≠ ch.
Proof.
  intros Hb Ha. unfold teardownConn, setupConn; simpl.
  rewrite lookup_delete_eq. split_and!; [done| |].
  - intros b Hne. by rewrite lookup_delete_ne.
  - simpl. specialize (Hb a ch Ha). lia.
Qed.

Lemma teardownConn_forgets_witness :
  (setupConn
     (teardownConn (setupConn (NewStreamService tt "local") ∅ 0 "peer").1.1.2 "peer")
     (setupConn (NewStreamService tt "local") ∅ 0 "peer").1.2
     (setupConn (NewStreamService tt "local") ∅ 0 "peer").2 "peer").1.1.1 ≠ 0%nat.
Proof.
  apply (teardownConn_forgets
           (setupConn (NewStreamService tt "local") ∅ 0 "peer").1.1.2
           (setupConn (NewStreamService tt "local") ∅ 0 "peer").1.2
           (setupConn (NewStreamService tt "local") ∅ 0 "peer").2 "peer" 0).
  - intros a ch. unfold setupConn, NewStreamService. simpl.
    rewrite lookup_empty. simpl.
    intros [[_ <-]|[_ Hl]]%lookup_insert_Some; [lia|].
    by rewrite lookup_empty in Hl.
  - reflexivity.
Defined.

(** *** Send and Recv *)

Section StreamFacts.
Context {Message : Type}.
Variable MarshalBinary : Message → list byte + Error.
Variable UnmarshalBinary : list byte → Message + Error.

Lemma Lock_Unlock (m : gmap nat bool) (mu : nat) :
  m !! mu = Some false →
  Go.Lock m mu = Some (<[mu := true]> m) ∧
  Go.Unlock (<[mu := true]> m) mu = m.
Proof.
  intros Hfree. unfold Go.Lock, Go.Unlock. rewrite Hfree. split; [done|].
  rewrite insert_insert_eq. by apply insert_id.
Qed.

Lemma set_mutexes_id (h : Heap) : set_mutexes h (mutexes h) = h.
Proof. by destruct h. Qed.

(** With [sendMu] free, [Send] returns and leaves the heap as it was:
    nothing but [sendMu] is looked at. *)
Lemma Send_free (stream_Send : StreamMessage → option Error)
    (s : safeStream) (message : Message) (h : Heap) :
  mutexes h !! sendMu s = Some false →
  Send MarshalBinary stream_Send s message h =
    match MarshalBinary message with
    | inr err => (Go.Returns (Some err), h, [])
    | inl data =>
        (Go.Returns (stream_Send {| Authentication := None; Data := data |}), h,
         [{| Authentication := None; Data := data |}])
    end.
Proof.
  intros Hfree. unfold Send.
  destruct (Lock_Unlock _ _ Hfree) as [-> ->].
  rewrite set_mutexes_id. by destruct (MarshalBinary message).
Qed.

(** One goroutine may write while another one reads: while a [Recv]
    holds its mutex, a [Send] goes through and leaves the heap as it found
    it, and a second [Recv] waits. A [Close] that comes in meanwhile takes
    the send mutex and then waits for the reader: from then on a [Send]
    waits as well. *)
Theorem Send_during_Recv (stream_Send : StreamMessage → option Error)
    (stream_Recv : StreamMessage + Error)
    (s : safeStream) (message : Message) (h : Heap) :
  receiving s h →
  (∃ r sent, Send MarshalBinary stream_Send s message h = (Go.Returns r, h, sent)) ∧
  Recv UnmarshalBinary stream_Recv s h = (Go.Blocks, h) ∧
  ∃ h1, Close s h = (Go.Blocks, h1) ∧
        Send MarshalBinary stream_Send s message h1 = (Go.Blocks, h1, []).
Proof.
  intros (Hsend & Hrecv & Hne). split_and!.
  - rewrite Send_free by done. destruct (MarshalBinary message); by eauto.
  - unfold Recv, Go.Lock. by rewrite Hrecv.
  - unfold Close, Go.Lock. rewrite Hsend.
    rewrite lookup_insert_ne by done. rewrite Hrecv.
    eexists. split; [done|].
    unfold Send, Go.Lock. simpl. by rewrite lookup_insert_eq.
Qed.

(** [Send] does not look at [done]: a [Close] of an idle stream closes
    [done] and leaves both mutexes free, and a [Send] after it is not
    refused by the safeStream. It marshals the message, hands it to the
    gRPC stream and returns what the stream answers to that call, whatever
    that is by then; when marshalling fails it returns that error and the
    stream is handed nothing. *)
Theorem Send_after_Close (stream_Send : StreamMessage → option Error)
    (s : safeStream) (message : Message) (h : Heap) :
  idle s h →
  ∃ h1,
    Close s h = (Go.Returns None, h1) ∧
    chans h1 !! done s = Some Go.ChanClosed ∧
    Send MarshalBinary stream_Send s message h1 =
      match MarshalBinary message with
      | inr err => (Go.Returns (Some err), h1, [])
      | inl data =>
          (Go.Returns (stream_Send {| Authentication := None; Data := data |}), h1,
           [{| Authentication := None; Data := data |}])
      end.
Proof.
  intros (Hdone & Hsend & Hrecv & Hne).
  unfold Close, Go.Lock, Go.close_chan, Go.Unlock.
  rewrite Hsend. rewrite lookup_insert_ne by done. rewrite Hrecv, Hdone.
  eexists. split_and!; [done|apply lookup_insert_eq|].
  apply Send_free. simpl. apply lookup_insert_eq.
Qed.

End StreamFacts.

Lemma Send_during_Recv_witness :
  let s := {| done := 0; sendMu := 1; recvMu := 2; stream := 0 |} in
  let h := {| chans := {[0%nat := Go.ChanOpen]};
              mutexes := {[1%nat := false; 2%nat := true]}; next := 3 |} in
  Recv (Message := list byte) inl (inr "EOF"%string) s h = (Go.Blocks, h).
Proof.
  intros s h.
  apply (Send_during_Recv (Message := list byte) inl inl (λ _, None)
           (inr "EOF"%string) s [] h).
  split_and!; [reflexivity|reflexivity|discriminate].
Defined.

Lemma Send_after_Close_witness :
  let '(s, h) := newSafeStream 0 {| chans := ∅; mutexes := ∅; next := 0 |} in
  ∃ h1,
    Close s h = (Go.Returns None, h1) ∧
    chans h1 !! done s = Some Go.ChanClosed ∧
    Send (Message := list byte) inl (λ _, Some "EOF"%string) s [] h1 =
      (Go.Returns (Some "EOF"%string), h1, [{| Authentication := None; Data := [] |}]).
Proof.
  apply (Send_after_Close (Message := list byte) inl (λ _, Some "EOF"%string)
           (newSafeStream 0 {| chans := ∅; mutexes := ∅; next := 0 |}).1 []
           (newSafeStream 0 {| chans := ∅; mutexes := ∅; next := 0 |}).2).
  apply newSafeStream_idle.
Defined.

End GrpcFacts.

(** ** Facts: Darknode *)

Module DarknodeFacts.
Import Bytes.
Import BytesFacts.
Import Darknode.

(** *** Arc setup: who dials *)

Lemma Compare_total a b : a ≠ b → Compare a b < 0 ∨ Compare b a < 0.
Proof.
  intros Hne. pose proof (Compare_range a b) as Hr.
  pose proof (Compare_antisym a b) as Ha.
  destruct Hr as [Hr|[Hr|Hr]].
  - left. lia.
  - by apply Compare_eq in Hr.
  - right. lia.
Qed.

Lemma setupCompute_client ID router w addr :
  Compare (ID (address router)) (ID addr) < 0 →
  trace (setupCompute ID router w addr).2 =
    trace w ++ [EClientPoolCompute addr (next w);
                ESend (next w) {| MultiAddress_ := Some (multiAddress router);
                                  payload := [] |}] ∧
  computeSenders (setupCompute ID router w addr).1 !! addr = Some (next w).
Proof.
  intros Hlt. unfold setupCompute. simpl.
  apply Z.ltb_lt in Hlt. rewrite Hlt. simpl.
  split; [by rewrite <- app_assoc|apply lookup_insert_eq].
Qed.

Lemma setupCompute_server ID router w addr :
  ¬ Compare (ID (address router)) (ID addr) < 0 →
  trace (setupCompute ID router w addr).2 =
    trace w ++ [EWaitForCompute addr (next w)] ∧
  computeSenders (setupCompute ID router w addr).1 !! addr = Some (next w).
Proof.
  intros Hge. unfold setupCompute. simpl.
  apply Z.ltb_nlt in Hge. rewrite Hge. simpl.
  split; [done|apply lookup_insert_eq].
Qed.

(** C2. Two Routers whose addresses differ in their bytes set up the arc
    to each other. The one whose address is the smaller in byte order dials
    and greets, the other one waits and sends no greeting. *)
Theorem setupCompute_tiebreak (ID : Address → list byte)
    (a b : Router) (wa wb : World) :
  ID (address a) ≠ ID (address b) →
  (Compare (ID (address a)) (ID (address b)) < 0 ∧
   dials ID a wa (address b) ∧ waits ID b wb (address a))
  ∨
  (Compare (ID (address b)) (ID (address a)) < 0 ∧
   dials ID b wb (address a) ∧ waits ID a wa (address b)).
Proof.
  intros Hne.
  destruct (Compare_total _ _ Hne) as [Hlt|Hlt]; [left|right];
    (split; [done|]); split.
  - by apply setupCompute_client.
  - apply setupCompute_server. rewrite Compare_antisym. lia.
  - by apply setupCompute_client.
  - apply setupCompute_server. rewrite Compare_antisym. lia.
Qed.

Lemma setupCompute_tiebreak_witness :
  dials String.list_byte_of_string (exRouter "A") exWorld "B" ∧
  waits String.list_byte_of_string (exRouter "B") exWorld "A".
Proof.
  destruct (setupCompute_tiebreak String.list_byte_of_string
              (exRouter "A") (exRouter "B") exWorld exWorld)
    as [(_ & Hd & Hw)|(Hlt & _)].
  - vm_compute. discriminate.
  - split; [exact Hd|exact Hw].
  - vm_compute in Hlt. discriminate.
Defined.

Lemma unread_blocks router w orderFragment :
  unread w (orderFragmentSplitterCh router) →
  OnOpenOrder router w orderFragment = (Go.Blocks, []).
Proof.
  intros Hunread. unfold OnOpenOrder, has_reader.
  rewrite bool_decide_eq_false_2; [done|].
  intros Hex. apply Exists_exists in Hex as ([i sp] & Hin & Hsrc).
  apply elem_of_map_to_list in Hin. by eapply Hunread.
Qed.

Lemma OrderFragments_unread router w ch :
  unread w ch → unread (OrderFragments router w).2 ch.
Proof.
  intros Hunread i sp. unfold OrderFragments, update_splitter; simpl.
  rewrite lookup_alter. case_decide as Hi; [|apply Hunread].
  destruct (splitters w !! orderFragmentSplitter router) as [sp0|] eqn:Hsp;
    simpl; [|done].
  intros [= <-]. specialize (Hunread _ _ Hsp).
  unfold Subscribe. by case_match.
Qed.

Lemma NewRouter_unread maxConnections multiAddress :
  let '(router, w) := NewRouter maxConnections multiAddress World_empty in
  unread w (orderFragmentSplitterCh router).
Proof.
  unfold NewRouter, unread; simpl. intros i sp.
  rewrite lookup_insert. case_decide; [|by rewrite lookup_empty].
  by intros [= <-].
Qed.

Lemma subscribe_n_unread router ch n : ∀ w,
  unread w ch → unread (subscribe_n router w n) ch.
Proof.
  induction n as [|n IH]; intros w Hunread; simpl; [done|].
  by apply IH, OrderFragments_unread.
Qed.

(** C7, what the code does. [NewRouter] makes the channel and the
    splitter but never calls [Split] on it: nothing reads the channel.
    However many callers have subscribed, [OnOpenOrder] blocks on its send
    and no subscriber is handed the fragment. *)
Theorem OnOpenOrder_never_delivers (maxConnections : Z)
    (multiAddress : MultiAddress) (n : nat) (orderFragment : Fragment) :
  let '(router, w) := NewRouter maxConnections multiAddress World_empty in
  source <$> (splitters w !! orderFragmentSplitter router) = Some None ∧
  OnOpenOrder router (subscribe_n router w n) orderFragment = (Go.Blocks, []).
Proof.
  pose proof (NewRouter_unread maxConnections multiAddress) as Hunread.
  destruct (NewRouter maxConnections multiAddress World_empty) as [router w] eqn:Hnew.
  split.
  - unfold NewRouter in Hnew. simpl in Hnew. simplify_eq. simpl.
    by rewrite lookup_insert_eq.
  - by apply unread_blocks, subscribe_n_unread.
Qed.

Lemma holds_range p th : 0 ≤ holds p th ≤ 1.
Proof. unfold holds. case_match; lia. Qed.

Lemma holders_nonneg p l : 0 ≤ holders p l.
Proof.
  induction l as [|th l IH]; simpl; [lia|].
  pose proof (holds_range p th). lia.
Qed.

Lemma holders_app p l1 l2 : holders p (l1 ++ l2) = holders p l1 + holders p l2.
Proof. induction l1 as [|th l1 IH]; simpl; lia. Qed.

Lemma holders_insert p l : ∀ t th th',
  l !! t = Some th →
  holders p (<[t := th']> l) = holders p l - holds p th + holds p th'.
Proof.
  induction l as [|x l IH]; intros [|t] th th' Hl; simplify_eq/=; [lia|].
  rewrite (IH t th th' Hl). lia.
Qed.

Lemma holders_lookup p l t th :
  l !! t = Some th → holds p th ≤ holders p l.
Proof.
  revert t. induction l as [|x l IH]; intros [|t] Hl; simplify_eq/=.
  - pose proof (holders_nonneg p l). lia.
  - pose proof (holds_range p x). specialize (IH t Hl). lia.
Qed.

Lemma goto_lookup (l : list Thread) t th th' t' :
  l !! t = Some th →
  <[t := th']> l !! t' = if decide (t' = t) then Some th' else l !! t'.
Proof.
  intros Hth. case_decide as Ht.
  - subst. apply list_lookup_insert_eq. by eapply lookup_lt_Some.
  - by apply list_lookup_insert_ne.
Qed.

Lemma mutex_move_cs_mu s t th pc' r w m' :
  Inv s → threads s !! t = Some th → mutex_move s t th pc' m' →
  ∀ t' th', threads (goto s t th pc' r w m') !! t' = Some th' →
            in_cs (pc th') = true → mu (goto s t th pc' r w m') = Some t'.
Proof.
  intros HI Hth Hmove t' th'. simpl. rewrite (goto_lookup _ _ _ _ _ Hth).
  case_decide as Ht.
  - subst. intros [= <-]. simpl. intros Hcs. destruct Hmove as [[Heq ->]|[(_ & _ & _ & ->)|(_ & Hout & _)]].
    + eapply inv_cs_mu; [done..|]. by rewrite Heq.
    + done.
    + congruence.
  - intros Hl Hcs. pose proof (inv_cs_mu s HI t' th' Hl Hcs) as Hmu.
    destruct Hmove as [[Heq ->]|[(_ & Hnone & _)|(Hin & _)]]; [done|congruence|].
    pose proof (inv_cs_mu s HI t th Hth Hin). congruence.
Qed.

Lemma mutex_move_mu_cs s t th pc' r w m' :
  Inv s → threads s !! t = Some th → mutex_move s t th pc' m' →
  ∀ t', mu (goto s t th pc' r w m') = Some t' →
        ∃ th', threads (goto s t th pc' r w m') !! t' = Some th' ∧
               in_cs (pc th') = true.
Proof.
  intros HI Hth Hmove t' Hmu. simpl in *.
  rewrite (goto_lookup _ _ _ _ _ Hth).
  destruct Hmove as [[Heq ->]|[(_ & _ & Hin & ->)|(_ & _ & ->)]]; [| |done].
  - destruct (inv_mu_cs s HI t' Hmu) as (th' & Hl & Hcs).
    case_decide; [|by eauto]. subst. simplify_eq.
    eexists. split; [done|]. simpl. by rewrite <- Heq.
  - simplify_eq. rewrite decide_True by done. by eexists.
Qed.

Lemma count_goto s t th pc' r w m' :
  Inv s → threads s !! t = Some th →
  (∀ p, arcs_of r p = arcs_of (router s) p - holds p th + holds p (set_pc th pc')) →
  ∀ p, arcs_of (router (goto s t th pc' r w m')) p
       = holders p (threads (goto s t th pc' r w m')).
Proof.
  intros HI Hth Harcs p. simpl.
  rewrite (holders_insert p _ t th _ Hth), Harcs, (inv_count s HI). done.
Qed.

Lemma midway_goto_holder s t th pc' r w p :
  threads s !! t = Some th →
  midway (goto s t th pc' r w (Some t)) p ↔
    addr th = p ∧ (pc' = PInc ∨ pc' = PTeardown).
Proof.
  intros Hth. unfold midway. simpl. split.
  - intros (t' & th' & Hmu & Hl & Ha & Hpc).
    rewrite (goto_lookup _ _ _ _ _ Hth) in Hl.
    injection Hmu as <-.
    rewrite decide_True in Hl by done. by simplify_eq.
  - intros [Ha Hpc]. exists t, (set_pc th pc'). split_and!; try done.
    by rewrite (goto_lookup _ _ _ _ _ Hth), decide_True.
Qed.

Lemma midway_goto_none s t th pc' r w p :
  ¬ midway (goto s t th pc' r w None) p.
Proof. by intros (t' & th' & Hmu & _). Qed.

Lemma midway_goto_other s t th pc' r w p :
  threads s !! t = Some th → in_cs (pc th) = false → Inv s →
  midway (goto s t th pc' r w (mu s)) p ↔ midway s p.
Proof.
  intros Hth Hout HI. unfold midway. simpl.
  split; intros (t' & th' & Hmu & Hl & Ha & Hpc).
  - rewrite (goto_lookup _ _ _ _ _ Hth) in Hl.
    case_decide; [|by eauto 10]. subst.
    destruct (inv_mu_cs s HI t Hmu) as (th0 & Hl0 & Hcs). congruence.
  - exists t', th'. split_and!; try done.
    rewrite (goto_lookup _ _ _ _ _ Hth). case_decide; [|done]. subst.
    simplify_eq. destruct Hpc as [Hpc|Hpc]; rewrite Hpc in Hout; done.
Qed.

Lemma opened_app tr1 tr2 p c :
  opened (tr1 ++ tr2) p c ↔ opened tr1 p c ∨ opened tr2 p c.
Proof. unfold opened. rewrite !elem_of_app. tauto. Qed.

Lemma opened_send ch msg p c : ¬ opened [ESend ch msg] p c.
Proof.
  unfold opened. rewrite !list_elem_of_singleton. by intros [?|?].
Qed.

Lemma WorldOk_update_splitter senders w i f :
  WorldOk senders w → WorldOk senders (update_splitter w i f).
Proof. intros [H1 H2 H3]. by constructor. Qed.

Lemma WorldOk_emit_send senders w ch msg :
  WorldOk senders w → WorldOk senders (emit w (ESend ch msg)).
Proof.
  intros [H1 H2 H3].
  assert (Hop : ∀ p c, opened (trace w ++ [ESend ch msg]) p c → opened (trace w) p c).
  { intros p c [H|H]%opened_app; [done|]. by apply opened_send in H. }
  constructor; simpl; [done|..]; intros p c Ho%Hop; eauto.
Qed.

Lemma WorldOk_make senders w :
  WorldOk senders w → WorldOk senders (make w).2.
Proof.
  intros [H1 H2 H3]. constructor; simpl.
  - intros c Hc. rewrite lookup_insert_ne by lia. apply H1. lia.
  - intros p c Ho. specialize (H2 p c Ho). lia.
  - intros p c Ho. specialize (H2 p c Ho).
    rewrite lookup_insert_ne by lia. by apply H3.
Qed.

Lemma WorldOk_close senders w ch chans' :
  Go.close_chan (chans w) ch = Some chans' →
  WorldOk senders w → WorldOk senders (set_chans w chans').
Proof.
  unfold Go.close_chan. intros Hclose [H1 H2 H3].
  destruct (chans w !! ch) as [[]|] eqn:Hch; simplify_eq.
  constructor; simpl; [|done|].
  - intros c Hc. rewrite lookup_insert. case_decide; [|by apply H1].
    subst. rewrite H1 in Hch; [done|lia].
  - intros p c Ho. rewrite lookup_insert. case_decide; [done|]. by apply H3.
Qed.

Lemma WorldOk_teardown senders w p ch chans' :
  senders !! p = Some ch →
  Go.close_chan (chans w) ch = Some chans' →
  WorldOk senders w → WorldOk (delete p senders) (set_chans w chans').
Proof.
  unfold Go.close_chan. intros Hp Hclose [H1 H2 H3].
  destruct (chans w !! ch) as [[]|] eqn:Hch; simplify_eq.
  constructor; simpl; [|done|].
  - intros c Hc. rewrite lookup_insert. case_decide; [|by apply H1].
    subst. rewrite H1 in Hch; [done|lia].
  - intros p' c Ho. rewrite lookup_insert. case_decide as Hc; [done|].
    intros Hopen. specialize (H3 p' c Ho Hopen).
    rewrite lookup_delete_ne; [done|]. intros <-. congruence.
Qed.

Lemma opened_dial p c q c' :
  opened [EClientPoolCompute p c] q c' ↔ q = p ∧ c' = c.
Proof.
  unfold opened. rewrite !list_elem_of_singleton. split.
  - intros [H|H]; by simplify_eq.
  - intros [-> ->]. by left.
Qed.

Lemma opened_wait p c q c' :
  opened [EWaitForCompute p c] q c' ↔ q = p ∧ c' = c.
Proof.
  unfold opened. rewrite !list_elem_of_singleton. split.
  - intros [H|H]; by simplify_eq.
  - intros [-> ->]. by right.
Qed.

Lemma setupCompute_world ID r w p :
  let '(r', w') := setupCompute ID r w p in
  computeSenders r' = <[p := next w]> (computeSenders r) ∧
  computeReceivers r' = <[p := (next w + 3)%nat]> (computeReceivers r) ∧
  computeErrs r' = <[p := (next w + 4)%nat]> (computeErrs r) ∧
  computeArcs r' = computeArcs r ∧
  next w' = (next w + 5)%nat ∧
  chans w' = <[S (S (next w)) := Go.ChanOpen]>
               (<[S (next w) := Go.ChanOpen]> (<[next w := Go.ChanOpen]> (chans w))) ∧
  ∀ q c, opened (trace w') q c ↔ opened (trace w) q c ∨ (q = p ∧ c = next w).
Proof.
  unfold setupCompute. simpl.
  destruct (Compare (ID (address r)) (ID p) <? 0); simpl.
  - split_and!; [f_equal; lia..|done|lia|done|].
    intros q c. rewrite !opened_app, opened_dial.
    pose proof (opened_send (next w)
                  {| MultiAddress_ := Some (multiAddress r); payload := [] |} q c).
    tauto.
  - split_and!; [f_equal; lia..|done|lia|done|].
    intros q c. by rewrite !opened_app, opened_wait.
Qed.

Lemma WorldOk_setup senders w w' p :
  senders !! p = None →
  next w' = (next w + 5)%nat →
  chans w' = <[S (S (next w)) := Go.ChanOpen]>
               (<[S (next w) := Go.ChanOpen]> (<[next w := Go.ChanOpen]> (chans w))) →
  (∀ q c, opened (trace w') q c ↔ opened (trace w) q c ∨ (q = p ∧ c = next w)) →
  WorldOk senders w → WorldOk (<[p := next w]> senders) w'.
Proof.
  intros Hp Hnext Hchans Hopened [H1 H2 H3]. constructor.
  - intros c Hc. rewrite Hchans, !lookup_insert_ne by lia. apply H1. lia.
  - intros q c [Ho|[-> ->]]%Hopened; [|lia]. specialize (H2 q c Ho). lia.
  - intros q c [Ho|[-> ->]]%Hopened; [|by rewrite lookup_insert_eq].
    specialize (H2 q c Ho). rewrite Hchans, !lookup_insert_ne by lia.
    intros Hopen. specialize (H3 q c Ho Hopen).
    rewrite lookup_insert_ne; [done|]. intros <-. congruence.
Qed.

Lemma Inv_goto s t th pc' r' w' m' :
  Inv s → threads s !! t = Some th →
  mutex_move s t th pc' m' →
  (∀ p, arcs_of r' p = arcs_of (router s) p - holds p th + holds p (set_pc th pc')) →
  (∀ p, present r' p ∨ absent r' p) →
  (∀ p, present r' p ↔ (0 < arcs_of r' p ∨ midway (goto s t th pc' r' w' m') p)) →
  WorldOk (computeSenders r') w' →
  Inv (goto s t th pc' r' w' m').
Proof.
  intros HI Hth Hmove Hcount Hmaps Hpresent Hworld. constructor.
  - by apply mutex_move_cs_mu.
  - by apply mutex_move_mu_cs.
  - by apply count_goto.
  - done.
  - done.
  - done.
Qed.

(** A statement that leaves the Router alone, run by a goroutine that
    is not midway before or after. *)
Lemma Inv_goto_same s t th pc' w' m' :
  Inv s → threads s !! t = Some th →
  mutex_move s t th pc' m' →
  counted (pc th) = counted pc' →
  pc th ≠ PInc → pc th ≠ PTeardown → pc' ≠ PInc → pc' ≠ PTeardown →
  WorldOk (computeSenders (router s)) w' →
  Inv (goto s t th pc' (router s) w' m').
Proof.
  intros HI Hth Hmove Hcounted Hn1 Hn2 Hn3 Hn4 Hworld.
  apply Inv_goto; try done.
  - intros p. unfold holds; simpl. rewrite Hcounted. lia.
  - apply (inv_maps s HI).
  - intros p. rewrite (inv_present s HI p).
    enough (midway s p ↔ midway (goto s t th pc' (router s) w' m') p) by tauto.
    destruct Hmove as [[Hcs ->]|[(Hout & Hmu & Hin & ->)|(Hin & Hout & ->)]].
    + destruct (in_cs (pc th)) eqn:Hcsth.
      * pose proof (inv_cs_mu s HI t th Hth Hcsth) as Hmu. rewrite Hmu.
        rewrite midway_goto_holder by done. split.
        -- intros (t' & th' & Hmu' & Hl & _ & Hpc).
           rewrite Hmu in Hmu'. simplify_eq. by destruct Hpc.
        -- by intros [_ [?|?]].
      * symmetry. by apply midway_goto_other.
    + rewrite midway_goto_holder by done. split.
      * intros (t' & th' & Hmu' & _). congruence.
      * by intros [_ [?|?]].
    + split; [|by intros ?%midway_goto_none].
      intros (t' & th' & Hmu' & Hl & _ & Hpc).
      pose proof (inv_cs_mu s HI t th Hth Hin) as Hmu.
      rewrite Hmu in Hmu'. simplify_eq. by destruct Hpc.
Qed.

Lemma midway_holder s t th p :
  Inv s → threads s !! t = Some th → in_cs (pc th) = true →
  midway s p ↔ addr th = p ∧ (pc th = PInc ∨ pc th = PTeardown).
Proof.
  intros HI Hth Hcs. pose proof (inv_cs_mu s HI t th Hth Hcs) as Hmu. split.
  - intros (t' & th' & Hmu' & Hl & Ha & Hpc).
    rewrite Hmu in Hmu'. by simplify_eq.
  - intros [Ha Hpc]. by exists t, th.
Qed.

Lemma arcs_of_set_arcs r a v p :
  arcs_of (set_arcs r (<[a := v]> (computeArcs r))) p
  = if decide (a = p) then v else arcs_of r p.
Proof.
  unfold arcs_of; simpl. rewrite lookup_insert. by case_decide.
Qed.

Lemma present_absent r p : present r p → absent r p → False.
Proof. intros ([? H] & _) (H' & _). congruence. Qed.

Lemma absent_of_receivers r p :
  (present r p ∨ absent r p) → computeReceivers r !! p = None → absent r p.
Proof. intros [(_ & [? H] & _)|H] Hn; [congruence|done]. Qed.

Lemma present_of_receivers r p :
  (present r p ∨ absent r p) → is_Some (computeReceivers r !! p) → present r p.
Proof. intros [H|(_ & H & _)] [? Hs]; [done|congruence]. Qed.

Lemma Inv_skip_setup s t th :
  Inv s → threads s !! t = Some th → pc th = PSetup →
  is_Some (computeReceivers (router s) !! addr th) →
  Inv (goto s t th PInc (router s) (world s) (mu s)).
Proof.
  intros HI Hth Hpc Hsome.
  assert (Hcs : in_cs (pc th) = true) by by rewrite Hpc.
  pose proof (inv_cs_mu s HI t th Hth Hcs) as Hmu.
  apply Inv_goto; try done.
  - left. by rewrite Hpc.
  - intros p. unfold holds; simpl. rewrite Hpc. simpl. rewrite !andb_false_r. lia.
  - apply (inv_maps s HI).
  - intros p. rewrite Hmu, midway_goto_holder by done.
    pose proof (inv_present s HI p) as Hp.
    rewrite (midway_holder s t th p HI Hth Hcs), Hpc in Hp. split.
    + intros [?|[_ [?|?]]]%Hp; by eauto.
    + intros [?|[<- _]]; [apply Hp; by left|].
      apply present_of_receivers; [apply (inv_maps s HI)|done].
  - apply (inv_world s HI).
Qed.

Lemma Inv_setup ID s t th :
  Inv s → threads s !! t = Some th → pc th = PSetup →
  computeReceivers (router s) !! addr th = None →
  Inv (goto s t th PInc (setupCompute ID (router s) (world s) (addr th)).1
            (setupCompute ID (router s) (world s) (addr th)).2 (mu s)).
Proof.
  intros HI Hth Hpc Hnone.
  assert (Hcs : in_cs (pc th) = true) by by rewrite Hpc.
  pose proof (inv_cs_mu s HI t th Hth Hcs) as Hmu.
  pose proof (absent_of_receivers _ _ (inv_maps s HI (addr th)) Hnone) as Habs.
  pose proof (setupCompute_world ID (router s) (world s) (addr th)) as Hsetup.
  destruct (setupCompute ID (router s) (world s) (addr th)) as [r' w'].
  destruct Hsetup as (Hs & Hr & He & Ha & Hnext & Hchans & Hopened). simpl.
  assert (Harcs : ∀ p, arcs_of r' p = arcs_of (router s) p).
  { intros p. unfold arcs_of. by rewrite Ha. }
  assert (Hmaps : ∀ p, if decide (addr th = p) then present r' p
                       else (present r' p ↔ present (router s) p) ∧
                            (absent r' p ↔ absent (router s) p)).
  { intros p. unfold present, absent. rewrite Hs, Hr, He. case_decide as Hp.
    - subst. rewrite !lookup_insert_eq. by split_and!.
    - by rewrite !lookup_insert_ne. }
  apply Inv_goto; try done.
  - left. by rewrite Hpc.
  - intros p. rewrite Harcs. unfold holds; simpl. rewrite Hpc. simpl.
    rewrite !andb_false_r. lia.
  - intros p. specialize (Hmaps p). case_decide; [by left|].
    destruct Hmaps as [-> ->]. apply (inv_maps s HI).
  - intros p. rewrite Hmu, midway_goto_holder, Harcs by done.
    specialize (Hmaps p). case_decide as Hp.
    + split; [intros _; right; by eauto|by intros _].
    + destruct Hmaps as [-> _].
      pose proof (inv_present s HI p) as Hpres.
      rewrite (midway_holder s t th p HI Hth Hcs) in Hpres. split.
      * intros [?|[? _]]%Hpres; by eauto.
      * intros [?|[? _]]; [apply Hpres; by left|done].
  - rewrite Hs. eapply WorldOk_setup; try done; [apply Habs|apply (inv_world s HI)].
Qed.

Lemma present_set_arcs r arcs p : present (set_arcs r arcs) p ↔ present r p.
Proof. done. Qed.

Lemma absent_set_arcs r arcs p : absent (set_arcs r arcs) p ↔ absent r p.
Proof. done. Qed.

Lemma Inv_inc s t th :
  Inv s → threads s !! t = Some th → pc th = PInc →
  Inv (goto s t th PUnlock1
         (set_arcs (router s)
            (<[addr th := arcs_of (router s) (addr th) + 1]> (computeArcs (router s))))
         (world s) (mu s)).
Proof.
  intros HI Hth Hpc.
  assert (Hcs : in_cs (pc th) = true) by by rewrite Hpc.
  pose proof (inv_cs_mu s HI t th Hth Hcs) as Hmu.
  apply Inv_goto; try done.
  - left. by rewrite Hpc.
  - intros p. rewrite arcs_of_set_arcs. unfold holds; simpl. rewrite Hpc; simpl.
    rewrite andb_false_r, andb_true_r.
    case_decide; [rewrite bool_decide_eq_true_2 by done; subst; lia|].
    rewrite bool_decide_eq_false_2 by done. lia.
  - intros p. rewrite present_set_arcs, absent_set_arcs. apply (inv_maps s HI).
  - intros p. rewrite present_set_arcs, Hmu, midway_goto_holder by done.
    rewrite arcs_of_set_arcs.
    pose proof (inv_present s HI p) as Hp.
    rewrite (midway_holder s t th p HI Hth Hcs) in Hp.
    pose proof (inv_count s HI (addr th)) as Hc.
    pose proof (holders_nonneg (addr th) (threads s)).
    case_decide as Ha; split.
    + intros _. left. lia.
    + intros _. apply Hp. right. by eauto.
    + intros [?|[? _]]%Hp; [by left|done].
    + intros [?|[_ [?|?]]]; [apply Hp; by left|done..].
  - apply (inv_world s HI).
Qed.

Lemma Inv_dec s t th :
  Inv s → threads s !! t = Some th → pc th = PDec →
  Inv (goto s t th PTeardown
         (set_arcs (router s)
            (<[addr th := arcs_of (router s) (addr th) - 1]> (computeArcs (router s))))
         (world s) (mu s)).
Proof.
  intros HI Hth Hpc.
  assert (Hcs : in_cs (pc th) = true) by by rewrite Hpc.
  pose proof (inv_cs_mu s HI t th Hth Hcs) as Hmu.
  apply Inv_goto; try done.
  - left. by rewrite Hpc.
  - intros p. rewrite arcs_of_set_arcs. unfold holds; simpl. rewrite Hpc; simpl.
    rewrite andb_false_r, andb_true_r.
    case_decide; [rewrite bool_decide_eq_true_2 by done; subst; lia|].
    rewrite bool_decide_eq_false_2 by done. lia.
  - intros p. rewrite present_set_arcs, absent_set_arcs. apply (inv_maps s HI).
  - intros p. rewrite present_set_arcs, Hmu, midway_goto_holder by done.
    rewrite arcs_of_set_arcs.
    pose proof (inv_present s HI p) as Hp.
    rewrite (midway_holder s t th p HI Hth Hcs), Hpc in Hp.
    case_decide as Ha; split.
    + intros _. right. by eauto.
    + intros _. apply Hp. left. subst.
      rewrite (inv_count s HI).
      pose proof (holders_lookup (addr th) _ _ _ Hth) as Hh.
      unfold holds in Hh. rewrite Hpc, bool_decide_eq_true_2 in Hh by done.
      simpl in Hh. lia.
    + intros [?|[_ [?|?]]]%Hp; [by left|done..].
    + intros [?|[? _]]; [apply Hp; by left|done].
  - apply (inv_world s HI).
Qed.

Lemma Inv_skip_teardown s t th :
  Inv s → threads s !! t = Some th → pc th = PTeardown →
  arcs_of (router s) (addr th) ≠ 0 →
  Inv (goto s t th PUnlock2 (router s) (world s) (mu s)).
Proof.
  intros HI Hth Hpc Hnz.
  assert (Hcs : in_cs (pc th) = true) by by rewrite Hpc.
  pose proof (inv_cs_mu s HI t th Hth Hcs) as Hmu.
  apply Inv_goto; try done.
  - left. by rewrite Hpc.
  - intros p. unfold holds; simpl. rewrite Hpc. simpl. rewrite !andb_false_r. lia.
  - apply (inv_maps s HI).
  - intros p. rewrite Hmu, midway_goto_holder by done.
    pose proof (inv_present s HI p) as Hp.
    rewrite (midway_holder s t th p HI Hth Hcs) in Hp. split.
    + intros [?|[<- _]]%Hp; [by left|]. left.
      pose proof (inv_count s HI (addr th)).
      pose proof (holders_nonneg (addr th) (threads s)). lia.
    + intros [?|[_ [?|?]]]; [apply Hp; by left|done..].
  - apply (inv_world s HI).
Qed.

Lemma Inv_teardown s t th r' w' :
  Inv s → threads s !! t = Some th → pc th = PTeardown →
  arcs_of (router s) (addr th) = 0 →
  teardownCompute (router s) (world s) (addr th) = Some (r', w') →
  Inv (goto s t th PUnlock2 r' w' (mu s)).
Proof.
  intros HI Hth Hpc Hz Htear.
  assert (Hcs : in_cs (pc th) = true) by by rewrite Hpc.
  pose proof (inv_cs_mu s HI t th Hth Hcs) as Hmu.
  unfold teardownCompute in Htear.
  destruct (computeSenders (router s) !! addr th) as [sender|] eqn:Hsender; [|done].
  destruct (Go.close_chan (chans (world s)) sender) as [chans'|] eqn:Hclose; [|done].
  simplify_eq.
  assert (Hmaps : ∀ p, if decide (addr th = p)
                       then absent (set_arc_maps (router s)
                              (delete (addr th) (computeSenders (router s)))
                              (delete (addr th) (computeReceivers (router s)))
                              (delete (addr th) (computeErrs (router s)))) p
                       else (present (set_arc_maps (router s)
                              (delete (addr th) (computeSenders (router s)))
                              (delete (addr th) (computeReceivers (router s)))
                              (delete (addr th) (computeErrs (router s)))) p
                             ↔ present (router s) p) ∧
                            (absent (set_arc_maps (router s)
                              (delete (addr th) (computeSenders (router s)))
                              (delete (addr th) (computeReceivers (router s)))
                              (delete (addr th) (computeErrs (router s)))) p
                             ↔ absent (router s) p)).
  { intros p. unfold present, absent; simpl. case_decide as Hp.
    - subst. by rewrite !lookup_delete_eq.
    - by rewrite !lookup_delete_ne. }
  apply Inv_goto; try done.
  - left. by rewrite Hpc.
  - intros p. unfold holds; simpl. rewrite Hpc. simpl. rewrite !andb_false_r.
    unfold arcs_of; simpl. lia.
  - intros p. specialize (Hmaps p). case_decide; [by right|].
    destruct Hmaps as [-> ->]. apply (inv_maps s HI).
  - intros p. rewrite Hmu, midway_goto_holder by done.
    specialize (Hmaps p).
    change (arcs_of (set_arc_maps (router s) _ _ _) p) with (arcs_of (router s) p).
    pose proof (inv_present s HI p) as Hp.
    rewrite (midway_holder s t th p HI Hth Hcs) in Hp.
    case_decide as Ha; split.
    + intros Hpres. by destruct (present_absent _ _ Hpres Hmaps).
    + subst. intros [?|[_ [?|?]]]; [lia|done..].
    + destruct Hmaps as [-> _]. intros [?|[? _]]%Hp; [by left|done].
    + destruct Hmaps as [-> _]. intros [?|[_ [?|?]]]; [apply Hp; by left|done..].
  - simpl. eapply WorldOk_teardown; [done..|apply (inv_world s HI)].
Qed.

Lemma exec_Inv ID s t choice a s' :
  Inv s → exec ID s t choice = Some (a, s') → Inv s'.
Proof.
  intros HI Hexec. unfold exec in Hexec.
  destruct (threads s !! t) as [th|] eqn:Hth; [|done].
  pose proof (inv_world s HI) as Hworld.
  destruct (pc th) eqn:Hpc.
  - (* PLock1 *)
    destruct (mu s) eqn:Hmu; simplify_eq.
    apply Inv_goto_same; try done; try by rewrite Hpc.
    right. left. by rewrite Hpc.
  - (* PSetup *)
    destruct (computeReceivers (router s) !! addr th) eqn:Hrecv.
    + simplify_eq. by apply Inv_skip_setup.
    + pose proof (Inv_setup ID s t th HI Hth Hpc Hrecv) as Hsetup.
      destruct (setupCompute ID (router s) (world s) (addr th)). by simplify_eq.
  - (* PInc *) simplify_eq. by apply Inv_inc.
  - (* PUnlock1 *)
    simplify_eq. apply Inv_goto_same; try done; try by rewrite Hpc.
    right. right. by rewrite Hpc.
  - (* PSubscribe *)
    destruct (computeReceivers (router s) !! addr th); [|done].
    destruct (computeErrs (router s) !! addr th); [|done]. simplify_eq.
    apply Inv_goto_same; try done; try by rewrite Hpc.
    + left. by rewrite Hpc.
    + by do 2 apply WorldOk_update_splitter.
  - (* PForward *)
    destruct choice as [computation|].
    + destruct (computeSenders (router s) !! addr th); [|done]. simplify_eq.
      apply Inv_goto_same; try done; try by rewrite Hpc.
      * left. by rewrite Hpc.
      * by apply WorldOk_emit_send.
    + simplify_eq. apply Inv_goto_same; try done; try by rewrite Hpc.
      left. by rewrite Hpc.
  - (* PUnsubscribe *)
    destruct (computeReceivers (router s) !! addr th); [|done].
    destruct (computeErrs (router s) !! addr th); [|done]. simplify_eq.
    apply Inv_goto_same; try done; try by rewrite Hpc.
    + left. by rewrite Hpc.
    + by do 2 apply WorldOk_update_splitter.
  - (* PLock2 *)
    destruct (mu s) eqn:Hmu; simplify_eq.
    apply Inv_goto_same; try done; try by rewrite Hpc.
    right. left. by rewrite Hpc.
  - (* PDec *) simplify_eq. by apply Inv_dec.
  - (* PTeardown *)
    destruct (Z.eqb_spec (arcs_of (router s) (addr th)) 0) as [Hz|Hnz].
    + destruct (teardownCompute (router s) (world s) (addr th)) as [[r' w']|] eqn:Htear;
        [|done].
      simplify_eq. by eapply Inv_teardown.
    + simplify_eq. by apply Inv_skip_teardown.
  - (* PUnlock2 *)
    simplify_eq. apply Inv_goto_same; try done; try by rewrite Hpc.
    right. right. by rewrite Hpc.
  - (* PClose *)
    destruct (Go.close_chan (chans (world s)) (errs th)) as [c|] eqn:Hc1; [|done].
    destruct (Go.close_chan c (computationReceiver th)) as [c'|] eqn:Hc2; [|done].
    simplify_eq. apply Inv_goto_same; try done; try by rewrite Hpc.
    + left. by rewrite Hpc.
    + pose proof (WorldOk_close _ _ _ _ Hc1 Hworld) as Hw1.
      by apply (WorldOk_close _ (set_chans (world s) c) _ _ Hc2) in Hw1.
  - (* PDone *) done.
Qed.

Lemma Compute_Inv s a : Inv s → Inv (Compute s a).
Proof.
  intros HI. unfold Compute; simpl. constructor; simpl.
  - intros t th [Hl|[_ Hl]]%lookup_app_Some Hcs.
    + by eapply inv_cs_mu.
    + apply list_lookup_singleton_Some in Hl as [_ <-]. done.
  - intros t Hmu. destruct (inv_mu_cs s HI t Hmu) as (th & Hl & Hcs).
    exists th. split; [|done]. by apply lookup_app_l_Some.
  - intros p. rewrite holders_app, (inv_count s HI). simpl.
    unfold holds; simpl. rewrite andb_false_r. lia.
  - apply (inv_maps s HI).
  - intros p. rewrite (inv_present s HI p).
    enough (midway s p ↔
            midway {| router := router s;
                      world := (make (make (world s)).2).2; mu := mu s;
                      threads := threads s ++
                        [{| pc := PLock1; addr := a;
                            computationReceiver := next (world s);
                            errs := S (next (world s)) |}] |} p) as <- by done.
    unfold midway; simpl. split; intros (t & th & Hmu & Hl & Ha & Hpc).
    + exists t, th. split_and!; try done. by apply lookup_app_l_Some.
    + apply lookup_app_Some in Hl as [Hl|[_ Hl]]; [by exists t, th|].
      apply list_lookup_singleton_Some in Hl as [_ <-]. by destruct Hpc.
  - apply (WorldOk_make _ (make (world s)).2), WorldOk_make, (inv_world s HI).
Qed.

Lemma initial_Inv maxConnections multiAddress :
  Inv (initial maxConnections multiAddress).
Proof.
  unfold initial, NewRouter. simpl. constructor; simpl.
  - intros t th. by rewrite lookup_nil.
  - done.
  - done.
  - intros p. right. by split_and!.
  - intros p. split.
    + intros ([? H] & _). simpl in H. by rewrite lookup_empty in H.
    + intros [H|(t & th & H & _)]; [by unfold arcs_of in H|done].
  - constructor; simpl.
    + intros c Hc. rewrite lookup_insert_ne by lia. apply lookup_empty.
    + intros p c [H|H]; by apply elem_of_nil in H.
    + intros p c [H|H]; by apply elem_of_nil in H.
Qed.

Lemma reachable_Inv ID s : reachable ID s → Inv s.
Proof.
  induction 1 as [|s s' _ IH Hstep]; [apply initial_Inv|].
  destruct Hstep as [s a|s t choice a s' Hexec].
  - by apply Compute_Inv.
  - by eapply exec_Inv.
Qed.

(** Only a goroutine that holds the mutex changes the Router. *)
Lemma exec_router_change ID s t choice a s' :
  Inv s → exec ID s t choice = Some (a, s') →
  router s' ≠ router s → mu s = Some t ∧ mu s' = Some t.
Proof.
  intros HI Hexec Hne. unfold exec in Hexec.
  destruct (threads s !! t) as [th|] eqn:Hth; [|done].
  assert (Hcs : in_cs (pc th) = true → mu s = Some t)
    by apply (inv_cs_mu s HI t th Hth).
  destruct (pc th) eqn:Hpc; repeat case_match; simplify_eq; simpl in *;
    try done; by rewrite Hcs.
Qed.

(** A teardown is run by the holder of the mutex, right after its
    decrement brought the count to zero; it closes the sender of the arc
    and removes the arc from the three maps. *)
Lemma exec_teardown ID s t choice s' :
  Inv s → exec ID s t choice = Some (ATeardown, s') →
  ∃ th c, threads s !! t = Some th ∧ pc th = PTeardown ∧
    mu s = Some t ∧ arcs_of (router s) (addr th) = 0 ∧
    computeSenders (router s) !! addr th = Some c ∧
    chans (world s) !! c = Some Go.ChanOpen ∧
    chans (world s') !! c = Some Go.ChanClosed ∧
    present (router s) (addr th) ∧ absent (router s') (addr th).
Proof.
  intros HI Hexec. unfold exec in Hexec.
  destruct (threads s !! t) as [th|] eqn:Hth; [|done].
  destruct (pc th) eqn:Hpc; repeat case_match; simplify_eq.
  assert (Hcs : in_cs (pc th) = true) by by rewrite Hpc.
  pose proof (inv_cs_mu s HI t th Hth Hcs) as Hmu.
  unfold teardownCompute, Go.close_chan in *. repeat case_match; simplify_eq.
  eexists th, _. split_and!; try done; simpl.
  - by apply Z.eqb_eq.
  - apply lookup_insert_eq.
  - apply (inv_present s HI). right. exists t, th. by eauto.
  - unfold absent; simpl. by rewrite !lookup_delete_eq.
Qed.

(** C3, as the code has it. In every state the Router and the goroutines
    of its [Compute] calls can reach:
    - of the arcs ever opened to a peer [p], at most one is not closed;
    - the sender, receivers and errs entries of [p] are all there or all
      gone; whenever the mutex is free they are there exactly when
      [computeArcs[p] > 0] and gone exactly when it is 0; while a goroutine
      holds the mutex they are there exactly when the count is positive or
      that goroutine stands between its setup and its increment, or between
      its decrement and its teardown, for [p];
    - the count of [p] is the number of callers that have incremented it
      and not yet decremented it, and for each of them, which covers every
      caller that subscribes, forwards or unsubscribes, the arc is there;
    - a statement that changes the Router, its counters or its maps, is run
      by the goroutine that holds the mutex, and a teardown is run by the
      holder of the mutex when its decrement has brought the count to zero:
      it closes the open sender of the arc and removes the three entries. *)
Theorem Compute_arcs_invariant (ID : Address → list byte) (s : System) :
  reachable ID s →
  (∀ p c c',
     opened (trace (world s)) p c → opened (trace (world s)) p c' →
     chans (world s) !! c = Some Go.ChanOpen →
     chans (world s) !! c' = Some Go.ChanOpen → c = c') ∧
  (∀ p, present (router s) p ∨ absent (router s) p) ∧
  (mu s = None → ∀ p,
     (present (router s) p ↔ 0 < arcs_of (router s) p) ∧
     (absent (router s) p ↔ arcs_of (router s) p = 0)) ∧
  (∀ p, present (router s) p ↔ (0 < arcs_of (router s) p ∨ midway s p)) ∧
  (∀ p, arcs_of (router s) p = holders p (threads s)) ∧
  (∀ t th, threads s !! t = Some th → counted (pc th) = true →
     0 < arcs_of (router s) (addr th) ∧ present (router s) (addr th)) ∧
  (∀ t choice a s', exec ID s t choice = Some (a, s') →
     (router s' ≠ router s → mu s = Some t ∧ mu s' = Some t) ∧
     (a = ATeardown →
      ∃ th c, threads s !! t = Some th ∧ pc th = PTeardown ∧
        mu s = Some t ∧ arcs_of (router s) (addr th) = 0 ∧
        computeSenders (router s) !! addr th = Some c ∧
        chans (world s) !! c = Some Go.ChanOpen ∧
        chans (world s') !! c = Some Go.ChanClosed ∧
        present (router s) (addr th) ∧ absent (router s') (addr th))).
Proof.
  intros HI%reachable_Inv. split_and!.
  - intros p c c' Ho Ho' Hc Hc'.
    pose proof (ok_live _ _ (inv_world s HI) p c Ho Hc).
    pose proof (ok_live _ _ (inv_world s HI) p c' Ho' Hc'). congruence.
  - apply (inv_maps s HI).
  - intros Hmu p.
    assert (Hpres : present (router s) p ↔ 0 < arcs_of (router s) p).
    { rewrite (inv_present s HI p). split; [|by left].
      intros [?|(t & th & Hmu' & _)]; [done|congruence]. }
    split; [done|].
    pose proof (inv_count s HI p). pose proof (holders_nonneg p (threads s)).
    split.
    + intros Habs. destruct (decide (arcs_of (router s) p = 0)); [done|].
      exfalso. eapply present_absent; [|done]. apply Hpres. lia.
    + intros Hz. destruct (inv_maps s HI p) as [Hp|Ha]; [|done].
      apply Hpres in Hp. lia.
  - apply (inv_present s HI).
  - apply (inv_count s HI).
  - intros t th Hth Hcounted.
    assert (0 < arcs_of (router s) (addr th)) as Hpos.
    { rewrite (inv_count s HI).
      pose proof (holders_lookup (addr th) _ _ _ Hth) as Hh.
      unfold holds in Hh. rewrite Hcounted, bool_decide_eq_true_2 in Hh by done.
      simpl in Hh. lia. }
    split; [done|]. apply (inv_present s HI). by left.
  - intros t choice a s' Hexec. split.
    + by eapply exec_router_change.
    + intros ->. by eapply exec_teardown.
Qed.

Lemma run_reachable ID schedule : ∀ s s',
  reachable ID s → run ID s schedule = Some s' → reachable ID s'.
Proof.
  induction schedule as [|[t choice] schedule IH]; intros s s' Hs Hrun; simpl in Hrun.
  - by simplify_eq.
  - destruct (exec ID s t choice) as [[a s1]|] eqn:Hexec; [|done].
    apply (IH s1); [|done]. eapply reachable_step; [done|].
    by eapply step_exec.
Qed.

Lemma exSystem_reachable : reachable String.list_byte_of_string exSystem.
Proof.
  apply (run_reachable String.list_byte_of_string exSchedule exStart).
  - eapply reachable_step; [eapply reachable_step; [apply reachable_initial|]|];
      apply step_Compute.
  - vm_compute. reflexivity.
Qed.

(** With both callers in their loops the count is 2 and the sender of the
    arc is channel 6; the first to leave brings the count to 1 and the arc
    stays, the second one tears it down. *)
Lemma exSystem_first_leaves :
  ∃ s, run String.list_byte_of_string exSystem (take 7 exLeave) = Some s ∧
       arcs_of (router s) "B" = 1 ∧
       computeSenders (router s) !! "B"%string = Some 6%nat ∧
       chans (world s) !! 6%nat = Some Go.ChanOpen.
Proof. eexists. split; [vm_compute; reflexivity|]. by vm_compute. Qed.

Lemma exSystem_torn_down :
  ∃ s, run String.list_byte_of_string exSystem exLeave = Some s ∧
       arcs_of (router s) "B" = 0 ∧
       computeSenders (router s) !! "B"%string = None ∧
       computeReceivers (router s) !! "B"%string = None ∧
       computeErrs (router s) !! "B"%string = None ∧
       chans (world s) !! 6%nat = Some Go.ChanClosed.
Proof. eexists. split; [vm_compute; reflexivity|]. by vm_compute. Qed.

Lemma Compute_arcs_invariant_witness :
  arcs_of (router exSystem) "B" = 2 ∧ present (router exSystem) "B".
Proof.
  destruct (Compute_arcs_invariant String.list_byte_of_string exSystem
              exSystem_reachable) as (_ & _ & Hfree & _).
  split; [vm_compute; reflexivity|].
  apply (Hfree eq_refl "B"%string). vm_compute. reflexivity.
Defined.

(** *** The channels of the goroutines *)

Lemma goto_thread (l : list Thread) t th pc' t0 th0 :
  l !! t = Some th →
  <[t := set_pc th pc']> l !! t0 = Some th0 →
  ∃ th1, l !! t0 = Some th1 ∧
    computationReceiver th0 = computationReceiver th1 ∧ errs th0 = errs th1 ∧
    pc th0 = (if decide (t0 = t) then pc' else pc th1).
Proof.
  intros Hth. rewrite (goto_lookup _ _ _ _ _ Hth).
  case_decide as Ht.
  - intros [= <-]. subst. by exists th.
  - intros Hl. by exists th0.
Qed.

Lemma own_eq th0 th1 c :
  computationReceiver th0 = computationReceiver th1 → errs th0 = errs th1 →
  own th0 c ↔ own th1 c.
Proof. unfold own. by intros -> ->. Qed.

(** What one statement of goroutine [t] has to respect. *)
Lemma ChansOk_goto_gen s t th pc' r' w' m' :
  ChansOk s → threads s !! t = Some th →
  (next (world s) ≤ next w')%nat →
  (∀ p c, computeSenders r' !! p = Some c →
     chans w' !! c = Some Go.ChanOpen ∧ (c < next w')%nat ∧
     (computeSenders (router s) !! p = Some c ∨ (next (world s) ≤ c)%nat)) →
  (∀ p q c, computeSenders r' !! p = Some c → computeSenders r' !! q = Some c → p = q) →
  (∀ t0 th0 c, threads s !! t0 = Some th0 → own th0 c →
     chans w' !! c =
       Some (if decide ((if decide (t0 = t) then pc' else pc th0) = PDone)
             then Go.ChanClosed else Go.ChanOpen)) →
  (∀ p c, opened (trace w') p c → is_Some (chans w' !! c)) →
  ChansOk (goto s t th pc' r' w' m').
Proof.
  intros [H1 H2 H3 H4 H5 H6 H7] Hth Hnext Hsnd Hinj Hthr Hop. constructor; simpl.
  - intros p c Hp. destruct (Hsnd p c Hp) as (? & ? & _). done.
  - done.
  - intros t0 th0 c Hl Hown.
    destruct (goto_thread _ _ _ _ _ _ Hth Hl) as (th1 & Hl1 & Hcr & He & Hpc).
    apply (own_eq _ _ c Hcr He) in Hown.
    destruct (H3 t0 th1 c Hl1 Hown) as [Hlt _]. split; [lia|].
    rewrite Hpc. by apply Hthr.
  - intros t0 th0 Hl.
    destruct (goto_thread _ _ _ _ _ _ Hth Hl) as (th1 & Hl1 & Hcr & He & _).
    rewrite Hcr, He. by eapply H4.
  - intros t0 t0' th0 th0' c Hl Hl' Ho Ho'.
    destruct (goto_thread _ _ _ _ _ _ Hth Hl) as (th1 & Hl1 & Hcr & He & _).
    destruct (goto_thread _ _ _ _ _ _ Hth Hl') as (th1' & Hl1' & Hcr' & He' & _).
    apply (own_eq _ _ c Hcr He) in Ho. apply (own_eq _ _ c Hcr' He') in Ho'.
    by eapply H5.
  - intros p c t0 th0 Hp Hl Ho.
    destruct (goto_thread _ _ _ _ _ _ Hth Hl) as (th1 & Hl1 & Hcr & He & _).
    apply (own_eq _ _ c Hcr He) in Ho.
    destruct (Hsnd p c Hp) as (_ & _ & [Hold|Hnew]).
    + by eapply H6.
    + destruct (H3 t0 th1 c Hl1 Ho) as [Hlt _]. lia.
  - done.
Qed.

(** A statement that leaves the senders, the channels and the arcs
    opened alone and does not end the goroutine. *)
Lemma ChansOk_goto s t th pc' r' w' m' :
  ChansOk s → threads s !! t = Some th →
  computeSenders r' = computeSenders (router s) →
  chans w' = chans (world s) → next w' = next (world s) →
  (∀ p c, opened (trace w') p c ↔ opened (trace (world s)) p c) →
  pc th ≠ PDone → pc' ≠ PDone →
  ChansOk (goto s t th pc' r' w' m').
Proof.
  intros HC Hth Hs Hc Hn Htr Hpc Hpc'.
  apply ChansOk_goto_gen; try done.
  - lia.
  - rewrite Hs, Hc, Hn. intros p c Hp.
    destruct (co_sender s HC p c Hp). by split_and!; [..|left].
  - rewrite Hs. apply (co_senders s HC).
  - intros t0 th0 c Hl Ho. rewrite Hc.
    destruct (co_thread s HC t0 th0 c Hl Ho) as [_ ->].
    destruct (decide (t0 = t)) as [->|Ht]; [|done]. simplify_eq.
    by rewrite !decide_False.
  - intros p c Ho%Htr. rewrite Hc. by eapply co_opened.
Qed.

Lemma ChansOk_setup ID s t th :
  ChansOk s → threads s !! t = Some th → pc th = PSetup →
  ChansOk (goto s t th PInc (setupCompute ID (router s) (world s) (addr th)).1
             (setupCompute ID (router s) (world s) (addr th)).2 (mu s)).
Proof.
  intros HC Hth Hpc.
  pose proof (setupCompute_world ID (router s) (world s) (addr th)) as Hw.
  destruct (setupCompute ID (router s) (world s) (addr th)) as [r' w'].
  destruct Hw as (Hs & _ & _ & _ & Hn & Hc & Htr). simpl.
  assert (Hold : ∀ c, (c < next (world s))%nat → chans w' !! c = chans (world s) !! c).
  { intros c Hlt. rewrite Hc, !lookup_insert_ne by lia. done. }
  apply ChansOk_goto_gen; try done.
  - lia.
  - rewrite Hs. intros p c [[<- <-]|[Hne Hp]]%lookup_insert_Some.
    + split_and!; [|lia|right; lia].
      rewrite Hc, !lookup_insert_ne by lia. apply lookup_insert_eq.
    + destruct (co_sender s HC p c Hp) as [Hopen Hlt].
      split_and!; [by rewrite Hold|lia|by left].
  - rewrite Hs. intros p q c [[<- <-]|[Hne Hp]]%lookup_insert_Some
                            [[<- Heq]|[Hne' Hq]]%lookup_insert_Some; try done.
    + destruct (co_sender s HC q _ Hq) as [_ Hlt]. lia.
    + destruct (co_sender s HC p _ Hp) as [_ Hlt]. lia.
    + by eapply (co_senders s HC).
  - intros t0 th0 c Hl Ho.
    destruct (co_thread s HC t0 th0 c Hl Ho) as [Hlt Hst].
    rewrite Hold, Hst by done.
    destruct (decide (t0 = t)) as [->|Ht]; [|done]. simplify_eq.
    rewrite Hpc. by rewrite !decide_False.
  - intros p c [Ho|[-> ->]]%Htr.
    + destruct (co_opened s HC p c Ho) as [st Hst].
      rewrite Hc.
      destruct (decide (c = S (S (next (world s))))) as [->|];
        [by rewrite lookup_insert_eq|rewrite lookup_insert_ne by done].
      destruct (decide (c = S (next (world s)))) as [->|];
        [by rewrite lookup_insert_eq|rewrite lookup_insert_ne by done].
      destruct (decide (c = next (world s))) as [->|];
        [by rewrite lookup_insert_eq|rewrite lookup_insert_ne by done].
      by rewrite Hst.
    + rewrite Hc, !lookup_insert_ne by lia. by rewrite lookup_insert_eq.
Qed.

Lemma ChansOk_teardown s t th r' w' :
  ChansOk s → threads s !! t = Some th → pc th = PTeardown →
  teardownCompute (router s) (world s) (addr th) = Some (r', w') →
  ChansOk (goto s t th PUnlock2 r' w' (mu s)).
Proof.
  intros HC Hth Hpc Htear. unfold teardownCompute, Go.close_chan in Htear.
  destruct (computeSenders (router s) !! addr th) as [snd|] eqn:Hsnd; [|done].
  destruct (chans (world s) !! snd) as [[|]|] eqn:Hopen; simplify_eq.
  apply ChansOk_goto_gen; try done; simpl.
  - intros p c [Hne Hp]%lookup_delete_Some.
    destruct (co_sender s HC p c Hp) as [Hc Hlt].
    split_and!; [|done|by left].
    rewrite lookup_insert_ne; [done|]. intros <-.
    by apply Hne, (co_senders s HC _ _ snd).
  - intros p q c [_ Hp]%lookup_delete_Some [_ Hq]%lookup_delete_Some.
    by eapply (co_senders s HC).
  - intros t0 th0 c Hl Ho.
    destruct (co_thread s HC t0 th0 c Hl Ho) as [_ Hst].
    rewrite lookup_insert_ne.
    + rewrite Hst. destruct (decide (t0 = t)) as [->|Ht]; [|done]. simplify_eq.
      rewrite Hpc. by rewrite !decide_False.
    + intros <-. by eapply (co_apart s HC).
  - intros p c Ho. destruct (co_opened s HC p c Ho) as [st Hst].
    destruct (decide (c = snd)) as [->|];
      [by rewrite lookup_insert_eq|rewrite lookup_insert_ne by done].
    by rewrite Hst.
Qed.

Lemma ChansOk_close s t th c c' :
  ChansOk s → threads s !! t = Some th → pc th = PClose →
  Go.close_chan (chans (world s)) (errs th) = Some c →
  Go.close_chan c (computationReceiver th) = Some c' →
  ChansOk (goto s t th PDone (router s) (set_chans (world s) c') (mu s)).
Proof.
  intros HC Hth Hpc Hc1 Hc2. unfold Go.close_chan in *.
  destruct (chans (world s) !! errs th) as [[|]|] eqn:He; simplify_eq.
  destruct (<[errs th:=Go.ChanClosed]> (chans (world s)) !! computationReceiver th)
    as [[|]|] eqn:Hr; simplify_eq.
  assert (Hother : ∀ x, ¬ own th x →
            <[computationReceiver th:=Go.ChanClosed]>
              (<[errs th:=Go.ChanClosed]> (chans (world s))) !! x
            = chans (world s) !! x).
  { intros x Hx. rewrite !lookup_insert_ne; [done|..]; intros <-; apply Hx.
    - by right.
    - by left. }
  apply ChansOk_goto_gen; try done; simpl.
  - intros p x Hp. destruct (co_sender s HC p x Hp) as [Hopen Hlt].
    split_and!; [|done|by left]. rewrite Hother; [done|]. by eapply (co_apart s HC).
  - apply (co_senders s HC).
  - intros t0 th0 x Hl Ho. destruct (decide (t0 = t)) as [->|Ht].
    + simplify_eq. rewrite decide_True by done.
      destruct Ho as [->| ->]; [by rewrite lookup_insert_eq|].
      rewrite lookup_insert_ne by by eapply (co_pair s HC).
      by rewrite lookup_insert_eq.
    + rewrite Hother; [by eapply (co_thread s HC)|].
      intros Ho'. apply Ht. by eapply (co_threads s HC).
  - intros p x Ho. destruct (co_opened s HC p x Ho) as [st Hst].
    destruct (decide (x = computationReceiver th)) as [->|];
      [by rewrite lookup_insert_eq|rewrite lookup_insert_ne by done].
    destruct (decide (x = errs th)) as [->|];
      [by rewrite lookup_insert_eq|rewrite lookup_insert_ne by done].
    by rewrite Hst.
Qed.

Lemma exec_ChansOk ID s t choice a s' :
  ChansOk s → exec ID s t choice = Some (a, s') → ChansOk s'.
Proof.
  intros HC Hexec. unfold exec in Hexec.
  destruct (threads s !! t) as [th|] eqn:Hth; [|done].
  destruct (pc th) eqn:Hpc.
  - destruct (mu s); simplify_eq. apply ChansOk_goto; try done. by rewrite Hpc.
  - destruct (computeReceivers (router s) !! addr th).
    + simplify_eq. apply ChansOk_goto; try done. by rewrite Hpc.
    + pose proof (ChansOk_setup ID s t th HC Hth Hpc) as Hsetup.
      destruct (setupCompute ID (router s) (world s) (addr th)). by simplify_eq.
  - simplify_eq. apply ChansOk_goto; try done. by rewrite Hpc.
  - simplify_eq. apply ChansOk_goto; try done. by rewrite Hpc.
  - destruct (computeReceivers (router s) !! addr th); [|done].
    destruct (computeErrs (router s) !! addr th); [|done]. simplify_eq.
    apply ChansOk_goto; try done. by rewrite Hpc.
  - destruct choice as [computation|].
    + destruct (computeSenders (router s) !! addr th); [|done]. simplify_eq.
      apply ChansOk_goto; try done; [|by rewrite Hpc].
      intros p c. simpl. rewrite opened_app.
      pose proof (opened_send n computation p c). tauto.
    + simplify_eq. apply ChansOk_goto; try done. by rewrite Hpc.
  - destruct (computeReceivers (router s) !! addr th); [|done].
    destruct (computeErrs (router s) !! addr th); [|done]. simplify_eq.
    apply ChansOk_goto; try done. by rewrite Hpc.
  - destruct (mu s); simplify_eq. apply ChansOk_goto; try done. by rewrite Hpc.
  - simplify_eq. apply ChansOk_goto; try done. by rewrite Hpc.
  - destruct (arcs_of (router s) (addr th) =? 0).
    + destruct (teardownCompute (router s) (world s) (addr th)) as [[r' w']|] eqn:Htear;
        [|done].
      simplify_eq. by eapply ChansOk_teardown.
    + simplify_eq. apply ChansOk_goto; try done. by rewrite Hpc.
  - simplify_eq. apply ChansOk_goto; try done. by rewrite Hpc.
  - destruct (Go.close_chan (chans (world s)) (errs th)) as [c|] eqn:Hc1; [|done].
    destruct (Go.close_chan c (computationReceiver th)) as [c'|] eqn:Hc2; [|done].
    simplify_eq. by eapply ChansOk_close.
  - done.
Qed.

Lemma Compute_ChansOk s a :
  Inv s → ChansOk s → ChansOk (Compute s a).
Proof.
  intros HI HC. unfold Compute; simpl.
  pose proof (ok_fresh _ _ (inv_world s HI)) as Hfresh.
  assert (Hold : ∀ c, (c < next (world s))%nat →
            <[S (next (world s)):=Go.ChanOpen]>
              (<[next (world s):=Go.ChanOpen]> (chans (world s))) !! c
            = chans (world s) !! c).
  { intros c Hlt. by rewrite !lookup_insert_ne by lia. }
  assert (Hnew : ∀ t th, (threads s ++
            [{| pc := PLock1; addr := a; computationReceiver := next (world s);
                errs := S (next (world s)) |}]) !! t = Some th →
            threads s !! t = Some th ∨
            (t = length (threads s) ∧
             th = {| pc := PLock1; addr := a; computationReceiver := next (world s);
                     errs := S (next (world s)) |})).
  { intros t th [Hl|[Hlen Hl]]%lookup_app_Some; [by left|right].
    apply list_lookup_singleton_Some in Hl as [Hz <-]. split; [lia|done]. }
  assert (Hnewown : ∀ c,
            own {| pc := PLock1; addr := a; computationReceiver := next (world s);
                   errs := S (next (world s)) |} c →
            (next (world s) ≤ c)%nat ∧
            <[S (next (world s)):=Go.ChanOpen]>
              (<[next (world s):=Go.ChanOpen]> (chans (world s))) !! c
            = Some Go.ChanOpen).
  { intros c [->| ->]; simpl; (split; [lia|]).
    - rewrite lookup_insert_ne by lia. apply lookup_insert_eq.
    - apply lookup_insert_eq. }
  constructor; simpl.
  - intros p c Hp. destruct (co_sender s HC p c Hp) as [Hopen Hlt].
    rewrite Hold by done. split; [done|lia].
  - apply (co_senders s HC).
  - intros t th c [Hl|[-> ->]]%Hnew Ho.
    + destruct (co_thread s HC t th c Hl Ho) as [Hlt Hst].
      rewrite Hold by done. split; [lia|done].
    + destruct (Hnewown c Ho) as [Hge Hopen]. split; [|done].
      destruct Ho as [->| ->]; simpl; lia.
  - intros t th [Hl|[-> ->]]%Hnew; [by eapply (co_pair s HC)|]. simpl. lia.
  - intros t t' th th' c [Hl|[-> ->]]%Hnew [Hl'|[-> ->]]%Hnew Ho Ho'; try done.
    + by eapply (co_threads s HC).
    + destruct (co_thread s HC t th c Hl Ho) as [Hlt _].
      destruct (Hnewown c Ho') as [Hge _]. lia.
    + destruct (co_thread s HC t' th' c Hl' Ho') as [Hlt _].
      destruct (Hnewown c Ho) as [Hge _]. lia.
  - intros p c t th Hp [Hl|[-> ->]]%Hnew Ho; [by eapply (co_apart s HC)|].
    destruct (co_sender s HC p c Hp) as [_ Hlt].
    destruct (Hnewown c Ho) as [Hge _]. lia.
  - intros p c Ho. destruct (co_opened s HC p c Ho) as [st Hst].
    destruct (decide (c = S (next (world s)))) as [->|];
      [by rewrite lookup_insert_eq|rewrite lookup_insert_ne by done].
    destruct (decide (c = next (world s))) as [->|];
      [by rewrite lookup_insert_eq|rewrite lookup_insert_ne by done].
    by rewrite Hst.
Qed.

Lemma initial_ChansOk maxConnections multiAddress :
  ChansOk (initial maxConnections multiAddress).
Proof.
  unfold initial, NewRouter. simpl. constructor; simpl.
  - intros p c. by rewrite lookup_empty.
  - intros p q c. by rewrite lookup_empty.
  - intros t th c. by rewrite lookup_nil.
  - intros t th. by rewrite lookup_nil.
  - intros t t' th th' c. by rewrite lookup_nil.
  - intros p c t th. by rewrite lookup_empty.
  - intros p c [H|H]; by apply elem_of_nil in H.
Qed.

Lemma reachable_ChansOk ID s : reachable ID s → ChansOk s.
Proof.
  induction 1 as [|s s' Hs IH Hstep]; [apply initial_ChansOk|].
  destruct Hstep as [s a|s t choice a s' Hexec].
  - apply Compute_ChansOk; [by eapply reachable_Inv|done].
  - by eapply exec_ChansOk.
Qed.

Lemma holders_finished p (l : list Thread) :
  (∀ t th, l !! t = Some th → pc th = PDone) → holders p l = 0.
Proof.
  induction l as [|th l IH]; intros Hdone; simpl; [done|].
  rewrite IH by (intros t th'; apply (Hdone (S t))).
  unfold holds. rewrite (Hdone 0%nat th eq_refl). simpl.
  by rewrite andb_false_r.
Qed.

(** No channel is closed twice and no nil channel is closed. In every
    state the Router and the goroutines of its [Compute] calls can reach,
    every sender in [computeSenders] is an open channel and is the sender
    of one peer only; the two channels of a caller differ, are open until
    its goroutine has closed them and closed afterwards; no channel belongs
    to two callers, or to a caller and an arc. So when a goroutine comes to
    the teardown with the count at zero, [close(router.computeSenders[addr])]
    finds the sender there and open, and when it comes to its deferred
    [close] calls, each finds its channel open. *)
Theorem Compute_closes_once (ID : Address → list byte) (s : System) :
  reachable ID s →
  (∀ p c, computeSenders (router s) !! p = Some c →
     chans (world s) !! c = Some Go.ChanOpen) ∧
  (∀ p q c, computeSenders (router s) !! p = Some c →
     computeSenders (router s) !! q = Some c → p = q) ∧
  (∀ t th c, threads s !! t = Some th → own th c →
     chans (world s) !! c =
       Some (if decide (pc th = PDone) then Go.ChanClosed else Go.ChanOpen)) ∧
  (∀ t th, threads s !! t = Some th → computationReceiver th ≠ errs th) ∧
  (∀ t t' th th' c, threads s !! t = Some th → threads s !! t' = Some th' →
     own th c → own th' c → t = t') ∧
  (∀ p c t th, computeSenders (router s) !! p = Some c →
     threads s !! t = Some th → ¬ own th c) ∧
  (∀ t th, threads s !! t = Some th → pc th = PTeardown →
     arcs_of (router s) (addr th) = 0 →
     ∃ c chans',
       computeSenders (router s) !! addr th = Some c ∧
       Go.close_chan (chans (world s)) c = Some chans' ∧
       teardownCompute (router s) (world s) (addr th) =
         Some (set_arc_maps (router s)
                 (delete (addr th) (computeSenders (router s)))
                 (delete (addr th) (computeReceivers (router s)))
                 (delete (addr th) (computeErrs (router s))),
               set_chans (world s) chans')) ∧
  (∀ t th, threads s !! t = Some th → pc th = PClose →
     ∃ c c', Go.close_chan (chans (world s)) (errs th) = Some c ∧
             Go.close_chan c (computationReceiver th) = Some c').
Proof.
  intros Hreach.
  pose proof (reachable_Inv ID s Hreach) as HI.
  pose proof (reachable_ChansOk ID s Hreach) as HC.
  split_and!.
  - intros p c Hp. by destruct (co_sender s HC p c Hp).
  - apply (co_senders s HC).
  - intros t th c Hth Ho. by destruct (co_thread s HC t th c Hth Ho).
  - apply (co_pair s HC).
  - apply (co_threads s HC).
  - apply (co_apart s HC).
  - intros t th Hth Hpc Hz.
    assert (Hpres : present (router s) (addr th)).
    { apply (inv_present s HI). right. exists t, th. split_and!; [|done..|by right].
      apply (inv_cs_mu s HI t th Hth). by rewrite Hpc. }
    destruct Hpres as ([snd Hsnd] & _).
    destruct (co_sender s HC _ _ Hsnd) as [Hopen _].
    exists snd. unfold teardownCompute, Go.close_chan. rewrite Hsnd, Hopen.
    by eexists.
  - intros t th Hth Hpc.
    destruct (co_thread s HC t th (errs th) Hth) as [_ He]; [by right|].
    destruct (co_thread s HC t th (computationReceiver th) Hth) as [_ Hr]; [by left|].
    rewrite decide_False in He, Hr by by rewrite Hpc.
    unfold Go.close_chan. rewrite He.
    eexists _, _. split; [done|].
    rewrite lookup_insert_ne by (intros Heq; by eapply (co_pair s HC)).
    by rewrite Hr.
Qed.

(** When every goroutine of [Compute] has run to its end, nothing is
    left behind: the mutex is free, every count is zero and every arc is
    gone from the three maps, the outbound channel of every stream that
    [setupCompute] opened is closed, and so are the two channels of every
    caller. *)
Theorem Compute_no_leak (ID : Address → list byte) (s : System) :
  reachable ID s → finished s →
  mu s = None ∧
  (∀ p, arcs_of (router s) p = 0 ∧ absent (router s) p) ∧
  (∀ p c, opened (trace (world s)) p c →
     chans (world s) !! c = Some Go.ChanClosed) ∧
  (∀ t th c, threads s !! t = Some th → own th c →
     chans (world s) !! c = Some Go.ChanClosed).
Proof.
  intros Hreach Hfin.
  pose proof (reachable_Inv ID s Hreach) as HI.
  pose proof (reachable_ChansOk ID s Hreach) as HC.
  assert (Hmu : mu s = None).
  { destruct (mu s) as [t|] eqn:Hmu; [|done].
    destruct (inv_mu_cs s HI t Hmu) as (th & Hth & Hcs).
    by rewrite (Hfin t th Hth) in Hcs. }
  assert (Harcs : ∀ p, arcs_of (router s) p = 0).
  { intros p. rewrite (inv_count s HI). by apply holders_finished. }
  assert (Habs : ∀ p, absent (router s) p).
  { intros p. destruct (inv_maps s HI p) as [Hp|Ha]; [|done].
    apply (inv_present s HI) in Hp as [Hpos|(t & th & Hmu' & _)].
    - rewrite Harcs in Hpos. lia.
    - congruence. }
  split_and!; [done|by split| |].
  - intros p c Ho. destruct (co_opened s HC p c Ho) as [[|] Hst]; [|done].
    pose proof (ok_live _ _ (inv_world s HI) p c Ho Hst) as Hsnd.
    destruct (Habs p) as (Hnone & _). congruence.
  - intros t th c Hth Ho.
    destruct (co_thread s HC t th c Hth Ho) as [_ ->].
    by rewrite decide_True by by apply (Hfin t th).
Qed.

(** Two Routers whose addresses have the same bytes, and so a Router
    asked for the arc to itself: each one waits for the other to dial, no
    one dials and no greeting is sent. *)
Theorem setupCompute_equal_IDs (ID : Address → list byte)
    (a b : Router) (wa wb : World) :
  ID (address a) = ID (address b) →
  waits ID a wa (address b) ∧ waits ID b wb (address a).
Proof.
  intros Heq. split; apply setupCompute_server.
  - rewrite Heq, Compare_refl. lia.
  - rewrite Heq, Compare_refl. lia.
Qed.

Lemma setupCompute_router ID r w p :
  (setupCompute ID r w p).1 =
  set_arc_maps r (<[p := next w]> (computeSenders r))
    (<[p := (next w + 3)%nat]> (computeReceivers r))
    (<[p := (next w + 4)%nat]> (computeErrs r)).
Proof.
  unfold setupCompute. simpl.
  destruct (Compare (ID (address r)) (ID p) <? 0); simpl;
    unfold set_arc_maps; f_equal; f_equal; lia.
Qed.

Lemma set_arc_maps_id r :
  set_arc_maps r (computeSenders r) (computeReceivers r) (computeErrs r) = r.
Proof. by destruct r. Qed.

(** [teardownCompute] undoes [setupCompute] on the Router: after the two
    the Router is what it was. The outbound channel of the stream is
    closed; its two inbound channels are left open and the two splitters
    stay in the world, the Router only forgets them. *)
Theorem teardownCompute_undoes_setupCompute (ID : Address → list byte)
    (r : Router) (w : World) (p : Address) :
  absent r p →
  ∃ w', teardownCompute (setupCompute ID r w p).1 (setupCompute ID r w p).2 p
        = Some (r, w') ∧
    chans w' !! next w = Some Go.ChanClosed ∧
    chans w' !! S (next w) = Some Go.ChanOpen ∧
    chans w' !! S (S (next w)) = Some Go.ChanOpen ∧
    splitters w' = splitters (setupCompute ID r w p).2 ∧
    trace w' = trace (setupCompute ID r w p).2.
Proof.
  intros (Hs & Hr & He).
  pose proof (setupCompute_world ID r w p) as Hw.
  pose proof (setupCompute_router ID r w p) as Hrouter.
  destruct (setupCompute ID r w p) as [r' w'] eqn:Hsetup.
  destruct Hw as (_ & _ & _ & _ & Hn & Hc & _). simpl in *. subst r'.
  unfold teardownCompute, Go.close_chan. simpl.
  rewrite lookup_insert_eq.
  rewrite Hc, !lookup_insert_ne by lia. rewrite lookup_insert_eq.
  eexists. split_and!.
  - do 2 f_equal. rewrite !delete_insert_id by done.
    rewrite <- (set_arc_maps_id r) at 4. by destruct r.
  - apply lookup_insert_eq.
  - simpl. rewrite lookup_insert_ne by lia. rewrite lookup_insert_ne by lia.
    apply lookup_insert_eq.
  - simpl. rewrite lookup_insert_ne by lia. apply lookup_insert_eq.
  - done.
  - done.
Qed.

Lemma Compute_closes_once_witness :
  chans (world exSystem) !! 6%nat = Some Go.ChanOpen.
Proof.
  destruct (Compute_closes_once String.list_byte_of_string exSystem
              exSystem_reachable) as [Hsender _].
  apply (Hsender "B"%string 6%nat). vm_compute. reflexivity.
Defined.

Lemma exFinal_reachable : reachable String.list_byte_of_string exFinal.
Proof.
  apply (run_reachable String.list_byte_of_string exLeave exSystem).
  - apply exSystem_reachable.
  - vm_compute. reflexivity.
Qed.

Lemma Compute_no_leak_witness :
  mu exFinal = None ∧ absent (router exFinal) "B".
Proof.
  destruct (Compute_no_leak String.list_byte_of_string exFinal exFinal_reachable)
    as (Hmu & Harcs & _).
  - intros t th Hth. vm_compute in Hth.
    destruct t as [|[|t]]; simpl in Hth; [by injection Hth as <-..|discriminate].
  - split; [exact Hmu|]. apply (Harcs "B"%string).
Defined.

Lemma setupCompute_equal_IDs_witness :
  waits String.list_byte_of_string (exRouter "A") exWorld "A".
Proof.
  apply (setupCompute_equal_IDs String.list_byte_of_string
           (exRouter "A") (exRouter "A") exWorld exWorld).
  reflexivity.
Defined.

Lemma teardownCompute_undoes_setupCompute_witness :
  ∃ w', teardownCompute
          (setupCompute String.list_byte_of_string (exRouter "A") exWorld "B").1
          (setupCompute String.list_byte_of_string (exRouter "A") exWorld "B").2 "B"
        = Some (exRouter "A", w').
Proof.
  destruct (teardownCompute_undoes_setupCompute String.list_byte_of_string
              (exRouter "A") exWorld "B") as (w' & Hw' & _).
  - split_and!; reflexivity.
  - exists w'. exact Hw'.
Defined.

Lemma exMidway_reachable : reachable String.list_byte_of_string exMidway.
Proof.
  apply (run_reachable String.list_byte_of_string (take 2 exSchedule) exStart).
  - eapply reachable_step; [eapply reachable_step; [apply reachable_initial|]|];
      apply step_Compute.
  - vm_compute. reflexivity.
Qed.

(** Between [setupCompute] and the increment the arc to "B" is in the
    three maps and its count is still 0. *)
Lemma Compute_arcs_counterexample : ¬ P1_arc_uniqueness.
Proof.
  intros HP1.
  destruct (HP1 String.list_byte_of_string exMidway exMidway_reachable "B"%string)
    as (_ & Hzero & _).
  destruct Hzero as (Hsender & _); [vm_compute; reflexivity|].
  vm_compute in Hsender. discriminate.
Qed.

End DarknodeFacts.

